(** * tools/sync-components.js: the component documentation synchroniser

    A shallow embedding of the script and of the collaborators it calls,
    followed by the properties of its document processors, of its
    local-copy filter and of its run orchestration.

    Conventions.
    - A path is the list of its segments below the root, so that every
      path value is absolute and normalised, which is what [path.resolve]
      returns.
    - The file system is a tree of directories and regular files.  Calls
      fail on such a tree as follows: [mkdirp.sync] on a regular file in
      the way, [fs.writeFileSync] on a directory, [copydir.sync] on a
      destination that is a regular file.  A copy that meets, below its
      destination, a regular file where the source has a directory or a
      directory where the source has a regular file is resolved in favour
      of the source, where the package may throw midway; what is stated
      of a copy is stated of a copy that has returned, or that has
      thrown.  Faults that do not show in the tree (permissions, full
      disks) are not modelled.
    - Effects are threaded through a state monad whose state is the file
      system together with the trace of observable events; a computation
      may end abruptly, by a thrown exception or by [process.exit].  An
      event is recorded when its call returns.
    - Promises: the executor of [new Promise] runs synchronously, a throw
      inside it rejects the promise, and reactions registered with [then]
      run later, in the order of the microtask queue.  Both processors are
      synchronous from end to end, so a processor runs as one block once
      its reaction is reached.
    - Remote acquisition is the only asynchronous work.  What the network
      and the archive tool answer, and which lane's pending operation
      completes next, are given by an oracle; every operation completes,
      with a result or a failure.
    - The event [Settle l o] is a mark, not an effect: it records the
      point from which the outcome [o] of lane [l] is determined and no
      further step of that lane runs.
    - [argv] carries strings: a flag is absent or has a string value.
      For another value (a number after [--core 123], [true] after a bare
      [--core]) [path.resolve] throws at line 151 or 187, outside any
      promise, and the script ends there.
    - [rimraf.sync] is taken to return.  On a disk where a regular file
      stands at an ancestor of the path it throws instead; at line 223
      this ends the script with no report, no cleanup and no exit status
      of its own.  The event [Rimraf examples_path] is recorded when the
      call of line 223 returns, and what is stated of a run beyond that
      line is stated of the runs that have this event. *)

From stdpp Require Import gmap strings list fin_maps.
From Stdlib Require Import Ascii ZArith Lia.

Open Scope string_scope.
Open Scope list_scope.
Open Scope stdpp_scope.

(** ** Paths (Node's [path] module, POSIX flavour) *)

Definition path := list string.

(** Splits at every slash; [cur] is the segment being read. *)
Fixpoint split_slash (s : string) (cur : string) : list string :=
  match s with
  | EmptyString => [cur]
  | String c s' =>
      if Ascii.eqb c "/"%char then cur :: split_slash s' ""
      else split_slash s' (cur +:+ String c "")
  end.

Definition is_absolute (s : string) : bool :=
  match s with
  | String c _ => Ascii.eqb c "/"%char
  | EmptyString => false
  end.

(** One step of normalisation: empty segments and [.] vanish, [..] climbs
    (and stays at the root when there is nothing to climb). *)
Definition walk_segment (acc : path) (seg : string) : path :=
  if String.eqb seg "" then acc
  else if String.eqb seg "." then acc
  else if String.eqb seg ".." then removelast acc
  else acc ++ [seg].

Definition resolve1 (base : path) (arg : string) : path :=
  fold_left walk_segment (split_slash arg "")
            (if is_absolute arg then [] else base).

(** [path.resolve(base, arg1, ..., argn)] for an absolute [base]: a later
    absolute argument discards what precedes it. *)
Definition resolve (base : path) (args : list string) : path :=
  fold_left resolve1 args base.

(** [path.dirname] of an absolute normalised path. *)
Definition dirname (p : path) : path := removelast p.

(** The textual form of a path, as it appears in messages. *)
Definition render (p : path) : string :=
  match p with
  | [] => "/"
  | _ => String.concat "" (map (fun seg => "/" +:+ seg) p)
  end.

(** [s.includes(sub)] *)
Fixpoint occurs (sub s : string) : bool :=
  String.prefix sub s
  || match s with
     | EmptyString => false
     | String _ s' => occurs sub s'
     end.

(** ** JavaScript values of the manifest's optional [preview] field *)

Inductive jsval :=
| JUndefined
| JNull
| JBool (b : bool)
| JNum (z : Z)
| JStr (s : string).

(** [!!v] *)
Definition truthy (v : jsval) : bool :=
  match v with
  | JUndefined | JNull => false
  | JBool b => b
  | JNum z => negb (Z.eqb z 0)
  | JStr s => negb (String.eqb s "")
  end.

(** ** The file system *)

#[warnings="-register-all"] Inductive node :=
| File (data : string)
| Dir (entries : gmap string node).

Definition is_dir (n : node) : bool :=
  match n with Dir _ => true | File _ => false end.

Definition entries_of (cur : option node) : gmap string node :=
  match cur with Some (Dir es) => es | _ => ∅ end.

Fixpoint lookup_path (p : path) (n : node) : option node :=
  match p with
  | [] => Some n
  | s :: p' =>
      match n with
      | Dir es => es !! s ≫= lookup_path p'
      | File _ => None
      end
  end.

Definition lookup_opt (p : path) (cur : option node) : option node :=
  cur ≫= lookup_path p.

Definition file_in (p : path) (cur : option node) : bool :=
  match lookup_opt p cur with Some (File _) => true | _ => false end.

Definition dir_in (p : path) (cur : option node) : bool :=
  match lookup_opt p cur with Some (Dir _) => true | _ => false end.

(** The path exists and is a regular file. *)
Definition file_at (p : path) (t : node) : bool := file_in p (Some t).

(** The path exists and is a directory. *)
Definition dir_at (p : path) (t : node) : bool := dir_in p (Some t).

(** What a look at a path tells: nothing there, a directory, or a regular
    file with its content. *)
Inductive entry :=
| Absent
| IsDir
| IsFile (data : string).

Definition entry_of (cur : option node) : entry :=
  match cur with
  | None => Absent
  | Some (Dir _) => IsDir
  | Some (File d) => IsFile d
  end.

Definition entry_in (p : path) (cur : option node) : entry :=
  entry_of (lookup_opt p cur).

Definition entry_at (p : path) (t : node) : entry := entry_in p (Some t).

(** [p] is a proper prefix of [q]. *)
Definition nested (p q : path) : Prop := p `prefix_of` q /\ p <> q.

(** Nothing on the disk stands in the way of writing a file at [out]: no
    regular file at a proper prefix of [out], no directory at [out]. *)
Definition unblocked (t : node) (out : path) : Prop :=
  out <> []
  /\ dir_at out t = false
  /\ forall q, nested q out -> file_at q t = false.

(** [rimraf.sync]: removes the entry and everything below it; an absent
    path is tolerated.  The root itself is never removed. *)
Fixpoint remove_path (p : path) (n : node) : node :=
  match n with
  | File _ => n
  | Dir es =>
      match p with
      | [] => n
      | [s] => Dir (delete s es)
      | s :: p' => Dir (alter (remove_path p') s es)
      end
  end.

(** [mkdirp.sync]: creates the missing directories of the chain; [None]
    when a regular file is in the way. *)
Fixpoint make_dirs (p : path) (cur : option node) : option node :=
  match cur with
  | Some (File _) => None
  | _ =>
      match p with
      | [] => Some (Dir (entries_of cur))
      | s :: p' =>
          c ← make_dirs p' (entries_of cur !! s);
          Some (Dir (<[s := c]> (entries_of cur)))
      end
  end.

(** Puts [new] at [p], in place of whatever is there; [None] when the
    parent of [p] is not an existing directory. *)
Fixpoint put_node (p : path) (new : node) (cur : option node) : option node :=
  match p with
  | [] => Some new
  | s :: p' =>
      match cur with
      | Some (Dir es) =>
          c ← put_node p' new (es !! s);
          Some (Dir (<[s := c]> es))
      | _ => None
      end
  end.

(** The filter handed to [copydir.sync]:
    [(stat, filepath, filename) => !(stat === 'directory' && filename === 'node_modules')].
    [stat] is represented by whether the entry is a directory; the filter
    does not look at [filepath]. *)
Definition copy_filter (is_directory : bool) (filename : string) : bool :=
  negb (is_directory && String.eqb filename "node_modules").

(** The recursive copy of [copy-dir]: each entry of a directory is offered
    to the filter; a kept file is written over the destination entry, a
    kept directory is created when absent and copied into recursively.
    Entries that exist only in the destination stay. *)
Fixpoint copy_into (keep : bool -> string -> bool)
    (src : node) (dst : option node) : node :=
  match src with
  | File d => File d
  | Dir es =>
      Dir (map_imap (fun name c =>
                       if keep (is_dir c) name
                       then Some (copy_into keep c (entries_of dst !! name))
                       else None) es
           ∪ entries_of dst)
  end.

(** The entry that the recursive copy reaches at [rel] below the source
    root: [None] when the path does not exist in the source or when the
    filter refuses an entry on the way. *)
Fixpoint visible (keep : bool -> string -> bool) (rel : path) (src : node)
  : option node :=
  match rel with
  | [] => Some src
  | s :: rel' =>
      match src with
      | Dir es =>
          c ← es !! s;
          if keep (is_dir c) s then visible keep rel' c else None
      | File _ => None
      end
  end.

(** Some directory on the way from the copied root down to [rel], [rel]
    itself included, is named [node_modules]. *)
Definition node_modules_on_way (rel : path) (src : node) : Prop :=
  exists k,
    rel !! k = Some "node_modules" /\ dir_at (take (S k) rel) src = true.

(** ** Manifest records and documents *)

(** An entry of [components.getCore()] or [components.getExtensions()]. *)
Record ComponentRecord := {
  name : string;
  readme : string;
  output : string;
  preview : jsval;
}.

(** What [util.parseMarkdown] returns. *)
Record ParsedDocument := {
  data_title : string;
  data_content : string;
  data_deps : list string;
}.

(** What [util.readPreset] returns: a value, or [undefined]. *)
Definition Preset := option string.

(** The [setting] object handed to [util.toMarkdown]. *)
Record Setting := {
  set_deps : list string;
  set_name : string;
  set_preset : Preset;
  set_preview : bool;
}.

(** The argument of [util.toMarkdown]. *)
Record OutputDocument := {
  out_title : string;
  out_content : string;
  out_setting : Setting;
}.

(** The opaque helpers of [./util]: the markdown parser and serialiser and
    the preset reader.  The development holds for whatever they compute. *)
Class Util := {
  parseMarkdown : string -> ParsedDocument;
  toMarkdown : OutputDocument -> string;
  readPreset : node -> path -> Preset;
}.

(** The manifest of [./components]. *)
Class Components := {
  getCore : list ComponentRecord;
  getExtensions : list ComponentRecord;
}.

(** The ambient process: [__dirname] of the script and [process.cwd()]. *)
Class Process := {
  __dirname : path;
  cwd : path;
}.

(** [minimist(process.argv.slice(2))], restricted to the two flags the
    script reads, each absent or carrying a string. *)
Record Argv := {
  core : option string;
  extensions : option string;
}.

(** ** Events, errors and promise results *)

Inductive lane := Core | Extensions.

Inductive error :=
| ReadFailed (p : path)
| MkdirFailed (p : path)
| WriteFailed (p : path)
| CopyFailed (from to : path)
| StoreFailed (p : path).

(** What a promise is rejected with: a message string, or a caught
    exception. *)
Inductive reason :=
| Message (s : string)
| Thrown (e : error).

Inductive settled :=
| Resolved
| Rejected (r : reason).

(** Where in a lane's pipeline a rejection arises.  It fixes how many
    turns of the microtask queue pass before the rejection reaches the
    top-level [Promise.all]. *)
Inductive stage := AcquireStage | DirCheckStage | RecordStage.

Inductive outcome :=
| Fulfilled
| Failed (st : stage) (r : reason).

Inductive event :=
| LogInfo (msg : string)                  (* reporter.info *)
| LogError (r : reason)                   (* reporter.error *)
| CopyDir (from to : path)               (* copydir.sync returned *)
| DownGit (git : string) (file : path)   (* util.downGit called *)
| Downloaded (file : path)               (* the archive is on disk *)
| Unzipped (dir : path)                  (* the archive is extracted *)
| Rimraf (p : path)                      (* rimraf.sync *)
| ReadFile (p : path)                    (* fs.readFileSync returned *)
| Mkdirp (p : path)                      (* mkdirp.sync returned *)
| WriteFile (p : path) (data : string)   (* fs.writeFileSync returned *)
| Exit (code : Z)                        (* process.exit *)
| Settle (l : lane) (o : outcome).       (* the lane's outcome is determined *)

(** ** The effect monad *)

Record world := World {
  fs : node;
  trace : list event;
}.

Inductive abort :=
| Throw (e : error)
| ExitProcess (code : Z).

Definition X (A : Type) : Type := world -> (abort + A) * world.

Definition X_ret {A} (a : A) : X A := fun w => (inr a, w).

Definition X_bind {A B} (f : A -> X B) (c : X A) : X B :=
  fun w =>
    match c w with
    | (inr a, w') => f a w'
    | (inl stop, w') => (inl stop, w')
    end.

#[global] Instance X_mret : MRet X := @X_ret.
#[global] Instance X_mbind : MBind X := @X_bind.

Definition get_fs : X node := fun w => (inr (fs w), w).
Definition set_fs (t : node) : X unit := fun w => (inr tt, World t (trace w)).
Definition emit (e : event) : X unit :=
  fun w => (inr tt, World (fs w) (trace w ++ [e])).
Definition throw {A} (e : error) : X A := fun w => (inl (Throw e), w).

(** [process.exit(code)]: nothing after it runs. *)
Definition process_exit (code : Z) : X unit :=
  fun w => (inl (ExitProcess code), World (fs w) (trace w ++ [Exit code])).

(** [new Promise(executor)]: the executor runs at once; what it passes to
    [resolve] or [reject] is its result here, and an exception it throws
    rejects the promise. *)
Definition new_promise (executor : X settled) : X settled :=
  fun w =>
    match executor w with
    | (inl (Throw e), w') => (inr (Rejected (Thrown e)), w')
    | r => r
    end.

(** [list.map(f)] for an effectful [f]: left to right, every element. *)
Fixpoint map_in_order {A B} (f : A -> X B) (l : list A) : X (list B) :=
  match l with
  | [] => mret []
  | a :: l' => b ← f a; bs ← map_in_order f l'; mret (b :: bs)
  end.

(** [Promise.all] of promises that are already settled: the reactions run
    in index order, so the first rejected one decides. *)
Fixpoint promise_all (ps : list settled) : settled :=
  match ps with
  | [] => Resolved
  | Resolved :: ps' => promise_all ps'
  | Rejected r :: _ => Rejected r
  end.

(** ** Collaborators acting on the file system *)

Definition info (msg : string) : X unit := emit (LogInfo msg).
Definition error_ (r : reason) : X unit := emit (LogError r).

(** Modelled from the spec: [util.isDirectory] of [./util], which is not
    among the sources; the path exists and is a directory. *)
Definition isDirectory (p : path) : X bool :=
  t ← get_fs;
  mret (dir_at p t).

(** Modelled from the spec: [util.fileExists] of [./util], which is not
    among the sources; the path exists and is a regular file. *)
Definition fileExists (p : path) : X bool :=
  t ← get_fs;
  mret (file_at p t).

Definition readFileSync (p : path) : X string :=
  t ← get_fs;
  match lookup_path p t with
  | Some (File d) => emit (ReadFile p);; mret d
  | _ => throw (ReadFailed p)
  end.

Definition mkdirp_sync (p : path) : X unit :=
  t ← get_fs;
  match make_dirs p (Some t) with
  | Some t' => set_fs t';; emit (Mkdirp p)
  | None => throw (MkdirFailed p)
  end.

(** Overwrites a regular file or creates it; throws on a directory and
    when the parent directory is missing. *)
Definition writeFileSync (p : path) (data : string) : X unit :=
  t ← get_fs;
  match lookup_path p t with
  | Some (Dir _) => throw (WriteFailed p)
  | _ =>
      match put_node p (File data) (Some t) with
      | Some t' => set_fs t';; emit (WriteFile p data)
      | None => throw (WriteFailed p)
      end
  end.

(** [rimraf.sync(p)]: removes [p] and what lies below it; an absent path
    is tolerated.  The call is taken to return (see the conventions). *)
Definition rimraf_sync (p : path) : X unit :=
  t ← get_fs;
  set_fs (remove_path p t);;
  emit (Rimraf p).

(** [copydir.sync(from, to, filter)]: throws when [from] is not a
    directory, when [to] is a regular file and when the parent of [to] is
    missing. *)
Definition copydir_sync (from to : path) (keep : bool -> string -> bool)
  : X unit :=
  t ← get_fs;
  match lookup_path from t, lookup_path to t with
  | Some (Dir es), Some (File _) => throw (CopyFailed from to)
  | Some (Dir es), dst =>
      match put_node to (copy_into keep (Dir es) dst) (Some t) with
      | Some t' => set_fs t';; emit (CopyDir from to)
      | None => throw (CopyFailed from to)
      end
  | _, _ => throw (CopyFailed from to)
  end.

(** ** The script *)

Section Script.

Context {util : Util} {comps : Components} {proc : Process}.

Definition BASE_URL : path := resolve __dirname [".."].

Definition TOOLS_PATH : path := resolve BASE_URL ["tools"].

(** The two groups differ by constants only. *)
Definition lane_name (l : lane) : string :=
  match l with Core => "core" | Extensions => "extensions" end.

Definition lane_dir (l : lane) : string :=
  match l with Core => "mip-master" | Extensions => "mip-extensions-master" end.

Definition lane_zip (l : lane) : string :=
  match l with
  | Core => "mip-master.zip"
  | Extensions => "mip-extensions-master.zip"
  end.

Definition lane_git (l : lane) : string :=
  match l with
  | Core => "https://github.com/mipengine/mip/archive/master.zip"
  | Extensions => "https://github.com/mipengine/mip-extensions/archive/master.zip"
  end.

Definition manifest (l : lane) : list ComponentRecord :=
  match l with Core => getCore | Extensions => getExtensions end.

Definition markdownFile (dir : path) (val : ComponentRecord) : path :=
  resolve dir [readme val].

Definition outputFilePath (val : ComponentRecord) : path :=
  resolve BASE_URL ["source"; output val].

(** [val.preview === undefined ? true : !!val.preview] *)
Definition preview_setting (val : ComponentRecord) : bool :=
  match preview val with
  | JUndefined => true
  | v => truthy v
  end.

(** The object handed to [util.toMarkdown] for one record. *)
Definition output_document (data : ParsedDocument) (preset : Preset)
    (val : ComponentRecord) : OutputDocument :=
  {| out_title := data_title data;
     out_content := data_content data;
     out_setting := {| set_deps := data_deps data;
                       set_name := name val;
                       set_preset := preset;
                       set_preview := preview_setting val |} |}.

(** The executor of the promise made for one record, lines 49-76 and
    98-125. *)
Definition record_executor (dir : path) (val : ComponentRecord) : X settled :=
  found ← fileExists (markdownFile dir val);
  if negb found
  then mret (Rejected (Message (render (markdownFile dir val) +:+ " 不存在")))
  else
    text ← readFileSync (markdownFile dir val);
    t ← get_fs;
    mkdirp_sync (dirname (outputFilePath val));;
    writeFileSync (outputFilePath val)
      (toMarkdown (output_document (parseMarkdown text)
                     (readPreset t (dirname (markdownFile dir val))) val));;
    info (output val +:+ " 同步成功");;
    mret Resolved.

(** [masterPath] of [coreProcessor], [extensionsDir] of
    [extensionsProcessor]. *)
Definition working_dir (l : lane) : path := resolve TOOLS_PATH [lane_dir l].

(** [components.getCore().map(val => new Promise(...))]: the promises of
    the records, each settled by the time [map] returns. *)
Definition record_promises (l : lane) : X (list settled) :=
  map_in_order (fun val => new_promise (record_executor (working_dir l) val))
               (manifest l).

Definition outcome_of (s : settled) : outcome :=
  match s with
  | Resolved => Fulfilled
  | Rejected r => Failed RecordStage r
  end.

(** [coreProcessor] and [extensionsProcessor], one text for both. *)
Definition processor (l : lane) : X outcome :=
  found ← isDirectory (working_dir l);
  if negb found
  then mret (Failed DirCheckStage
               (Message (render (working_dir l) +:+ " 不存在")))
  else
    ps ← record_promises l;
    mret (outcome_of (promise_all ps)).

Definition coreProcessor : X outcome := processor Core.

Definition extensionsProcessor : X outcome := processor Extensions.

Definition temporary_names : list string :=
  ["mip-extensions-master.zip"; "mip-extensions-master";
   "mip-master.zip"; "mip-master"].

Definition temporary_paths : list path :=
  (fun name => resolve TOOLS_PATH [name]) <$> temporary_names.

(** [array.forEach(f)] *)
Fixpoint for_each {A} (f : A -> X unit) (l : list A) : X unit :=
  match l with
  | [] => mret tt
  | a :: l' => f a;; for_each f l'
  end.

Definition clean : X unit :=
  for_each (fun name => rimraf_sync (resolve TOOLS_PATH [name])) temporary_names.

(** *** Launching the two lanes (lines 146-218) *)

(** [if (argv.core)]: an absent flag and an empty string are falsy. *)
Definition flag_given (flag : option string) : option string :=
  match flag with
  | Some arg => if String.eqb arg "" then None else Some arg
  | None => None
  end.

Definition lane_flag (argv : Argv) (l : lane) : option string :=
  match l with Core => core argv | Extensions => extensions argv end.

(** The state of one element of [queue]. *)
Inductive lane_state :=
| Copied (r : settled)   (* local copy done; [.then(processor)] is queued *)
| Downloading            (* [util.downGit] is in flight *)
| Unzipping              (* [util.unzipFile] is in flight *)
| Settled (o : outcome).

Definition LF : string := String "010"%char "".

Definition missing_message (l : lane) (localDir : path) : string :=
  "本地 " +:+ lane_name l +:+ " 目录不存在：" +:+ render localDir.

Definition load_message (l : lane) (localDir : path) : string :=
  "加载本地的 " +:+ lane_name l +:+ " 目录：" +:+ render localDir.

Definition acquire_local (l : lane) (arg : string) : X lane_state :=
  let localDir := resolve cwd [arg] in
  found ← isDirectory localDir;
  (if negb found
   then error_ (Message (missing_message l localDir));; process_exit 1
   else mret tt);;
  info (load_message l localDir);;
  r ← new_promise
        (copydir_sync localDir (working_dir l) copy_filter;;
         mret Resolved);
  mret (Copied r).

Definition acquire_remote (l : lane) : X lane_state :=
  emit (DownGit (lane_git l) (resolve TOOLS_PATH [lane_zip l]));;
  mret Downloading.

Definition launch (argv : Argv) (l : lane) : X lane_state :=
  match flag_given (lane_flag argv l) with
  | Some arg => acquire_local l arg
  | None => acquire_remote l
  end.

(** *** Remote acquisition *)

(** What the network and the archive tool will answer for one lane. *)
Record Remote := {
  fetched : reason + string;     (* the archive bytes, or the failure *)
  extracted : reason + node;     (* the extracted tree, or the failure *)
}.

(** The environment of the asynchronous part: the answers for each lane
    and, at every turn of the event loop, the lane whose pending
    operation completes next. *)
Record Oracle := {
  remote : lane -> Remote;
  sched : nat -> lane;
}.

Definition store (p : path) (new : node) : X unit :=
  t ← get_fs;
  match put_node p new (Some t) with
  | Some t' => set_fs t'
  | None => throw (StoreFailed p)
  end.

Definition settle (l : lane) (o : outcome) : X lane_state :=
  emit (Settle l o);; mret (Settled o).

(** Modelled from the spec: [util.downGit] and [util.unzipFile] of
    [./util], which are not among the sources.  The download writes the
    archive to the given file; the extraction puts the extracted tree at
    the lane's working directory, in place of any prior contents; either
    fails with the oracle's reason or when the file system refuses the
    write.  [.then(processor)] runs as soon as the extraction is done. *)
Definition advance (o : Oracle) (l : lane) (st : lane_state) : X lane_state :=
  match st with
  | Downloading =>
      match fetched (remote o l) with
      | inl r => settle l (Failed AcquireStage r)
      | inr bytes =>
          r ← new_promise
                (store (resolve TOOLS_PATH [lane_zip l]) (File bytes);;
                 emit (Downloaded (resolve TOOLS_PATH [lane_zip l]));;
                 mret Resolved);
          match r with
          | Resolved => mret Unzipping
          | Rejected r => settle l (Failed AcquireStage r)
          end
      end
  | Unzipping =>
      match extracted (remote o l) with
      | inl r => settle l (Failed AcquireStage r)
      | inr tree =>
          r ← new_promise
                (store (working_dir l) tree;;
                 emit (Unzipped (working_dir l));;
                 mret Resolved);
          match r with
          | Resolved => out ← processor l; settle l out
          | Rejected r => settle l (Failed AcquireStage r)
          end
      end
  | _ => mret st
  end.

(** *** The aggregate (lines 225-231) *)

(** The reaction [.then(processor)] of a lane whose source was copied
    locally; it is already queued when the script ends. *)
Definition react (l : lane) (st : lane_state) : X lane_state :=
  match st with
  | Copied Resolved => out ← processor l; settle l out
  | Copied (Rejected r) => settle l (Failed AcquireStage r)
  | _ => mret st
  end.

(** Turns of the microtask queue between the lane's first reaction and
    the rejection of the top-level [Promise.all]: a failed copy rejects
    the queued promise in that reaction; a rejected processor promise is
    adopted through a thenable job; a rejected record first travels
    through the inner [Promise.all(processor).then(resolve).catch(reject)]. *)
Definition latency (st : stage) : nat :=
  match st with
  | AcquireStage => 2
  | DirCheckStage => 4
  | RecordStage => 6
  end.

(** [Promise.all(queue)]: rejected by the first rejection to arrive (the
    core lane's jobs precede the extensions lane's in every turn),
    fulfilled when both lanes are, pending otherwise. *)
Definition aggregate (c e : lane_state) : option settled :=
  match c, e with
  | Settled (Failed sc rc), Settled (Failed se re) =>
      Some (Rejected (if Nat.leb (latency sc) (latency se) then rc else re))
  | Settled (Failed _ r), _ => Some (Rejected r)
  | _, Settled (Failed _ r) => Some (Rejected r)
  | Settled Fulfilled, Settled Fulfilled => Some Resolved
  | _, _ => None
  end.

Definition is_pending (st : lane_state) : bool :=
  match st with Downloading | Unzipping => true | _ => false end.

(** The lane whose operation completes next: the oracle's choice when
    that lane has something pending, the other lane otherwise. *)
Definition next_lane (choice : lane) (c e : lane_state) : lane :=
  match choice with
  | Core => if is_pending c then Core else Extensions
  | Extensions => if is_pending e then Extensions else Core
  end.

Definition start_message : string := "开始同步组件文档!" +:+ LF.

Definition success_message : string := LF +:+ "同步成功!" +:+ LF.

Definition examples_path : path := resolve BASE_URL ["./source/examples"].

(** [.then(clean).then(() => reporter.info(...))] *)
Definition on_fulfilled : X unit :=
  clean;;
  info success_message.

(** [.catch(err => {...})] *)
Definition on_rejected (err : reason) : X unit :=
  error_ err;;
  clean;;
  process_exit 1.

(** The event loop after the script's last statement.  Each turn lets one
    pending remote operation complete and then drains the microtask
    queue, which is when the aggregate's reactions run. *)
Fixpoint event_loop (o : Oracle) (fuel turn : nat) (c e : lane_state)
  : X unit :=
  match aggregate c e with
  | Some Resolved => on_fulfilled
  | Some (Rejected r) => on_rejected r
  | None =>
      match fuel with
      | 0 => mret tt
      | S fuel' =>
          match next_lane (sched o turn) c e with
          | Core =>
              c' ← advance o Core c;
              event_loop o fuel' (S turn) c' e
          | Extensions =>
              e' ← advance o Extensions e;
              event_loop o fuel' (S turn) c e'
          end
      end
  end.

(** Each lane has at most two pending operations. *)
Definition enough_turns : nat := 4.

(** The whole script, lines 146-231. *)
Definition main (argv : Argv) (o : Oracle) : X unit :=
  c ← launch argv Core;
  e ← launch argv Extensions;
  info start_message;;
  rimraf_sync examples_path;;
  c' ← react Core c;
  e' ← react Extensions e;
  event_loop o enough_turns 0 c' e'.

(** ** A functional reading of the script

    What the monadic text computes, written as plain functions of the file
    system.  The run lemmas below prove that the script computes exactly
    these. *)

(** The text written for [val] when its source holds [text]. *)
Definition serialized (dir : path) (val : ComponentRecord) (t : node)
    (text : string) : string :=
  toMarkdown (output_document (parseMarkdown text)
                (readPreset t (dirname (markdownFile dir val))) val).

(** The events of one record processed to its end. *)
Definition record_block (dir : path) (val : ComponentRecord) (data : string)
  : list event :=
  [ReadFile (markdownFile dir val);
   Mkdirp (dirname (outputFilePath val));
   WriteFile (outputFilePath val) data;
   LogInfo (output val +:+ " 同步成功")].

(** The promise of one record: how it settles, the file system it leaves
    and the events it emits. *)
Definition record_result (dir : path) (val : ComponentRecord) (t : node)
  : settled * node * list event :=
  match lookup_path (markdownFile dir val) t with
  | Some (File text) =>
      match make_dirs (dirname (outputFilePath val)) (Some t) with
      | None =>
          (Rejected (Thrown (MkdirFailed (dirname (outputFilePath val)))), t,
           take 1 (record_block dir val (serialized dir val t text)))
      | Some t1 =>
          match lookup_path (outputFilePath val) t1,
                put_node (outputFilePath val)
                         (File (serialized dir val t text)) (Some t1) with
          | Some (Dir _), _ | _, None =>
              (Rejected (Thrown (WriteFailed (outputFilePath val))), t1,
               take 2 (record_block dir val (serialized dir val t text)))
          | _, Some t2 =>
              (Resolved, t2, record_block dir val (serialized dir val t text))
          end
      end
  | _ =>
      (Rejected (Message (render (markdownFile dir val) +:+ " 不存在")), t, [])
  end.

Fixpoint records_result (dir : path) (l : list ComponentRecord) (t : node)
  : list settled * node * list event :=
  match l with
  | [] => ([], t, [])
  | val :: l' =>
      let '(s, t1, ev1) := record_result dir val t in
      let '(ss, t2, ev2) := records_result dir l' t1 in
      (s :: ss, t2, ev1 ++ ev2)
  end.

Definition processor_result (l : lane) (t : node)
  : outcome * node * list event :=
  if dir_at (working_dir l) t
  then let '(ss, t', evs) := records_result (working_dir l) (manifest l) t in
       (outcome_of (promise_all ss), t', evs)
  else (Failed DirCheckStage (Message (render (working_dir l) +:+ " 不存在")),
        t, []).

(** No record's executor threw: every rejection is a message. *)
Definition fault_free (ss : list settled) : Prop :=
  forall e, Rejected (Thrown e) ∉ ss.

(** The records of [l] whose promise, at the same index of [ss], is
    resolved. *)
Fixpoint resolved_records (l : list ComponentRecord) (ss : list settled)
  : list ComponentRecord :=
  match l, ss with
  | val :: l', Resolved :: ss' => val :: resolved_records l' ss'
  | _ :: l', _ :: ss' => resolved_records l' ss'
  | _, _ => []
  end.

(** The events of the record [val], by the way its promise is settled:
    the whole block when it is resolved; nothing when the source is
    missing; the read alone when [mkdirp.sync] threw; the read and the
    creation of the directory when [fs.writeFileSync] threw. *)
Definition settled_block (dir : path) (val : ComponentRecord) (s : settled)
    (block : list event) : Prop :=
  match s with
  | Resolved =>
      exists t text, block = record_block dir val (serialized dir val t text)
  | Rejected (Message m) =>
      m = render (markdownFile dir val) +:+ " 不存在" /\ block = []
  | Rejected (Thrown e) =>
      (e = MkdirFailed (dirname (outputFilePath val))
       /\ block = [ReadFile (markdownFile dir val)])
      \/ (e = WriteFailed (outputFilePath val)
          /\ block = [ReadFile (markdownFile dir val);
                      Mkdirp (dirname (outputFilePath val))])
  end.

(** Nothing stands in the way of the output of [val] when its turn comes
    after the records [before]: nothing on the disk [t] does, and no
    output of an earlier record lies above or below it. *)
Definition output_clear (t : node) (before : list ComponentRecord)
    (val : ComponentRecord) : Prop :=
  unblocked t (outputFilePath val)
  /\ forall v, v ∈ before ->
       ~ nested (outputFilePath v) (outputFilePath val)
       /\ ~ nested (outputFilePath val) (outputFilePath v).

(** What [clean] emits and what it leaves. *)
Definition clean_events : list event := Rimraf <$> temporary_paths.

Definition cleaned (t : node) : node :=
  foldl (fun t p => remove_path p t) t temporary_paths.

(** The paths removed by [rimraf.sync], in the order of the calls. *)
Definition removed (evs : list event) : list path :=
  omap (fun ev => match ev with Rimraf p => Some p | _ => None end) evs.

(** The paths written by [fs.writeFileSync], in the order of the calls. *)
Definition written (evs : list event) : list path :=
  omap (fun ev => match ev with WriteFile p _ => Some p | _ => None end) evs.

(** The lines printed by [reporter.info], in the order of the calls. *)
Definition logged (evs : list event) : list string :=
  omap (fun ev => match ev with LogInfo msg => Some msg | _ => None end) evs.

(** The line printed for a record that is processed to its end. *)
Definition success_line (val : ComponentRecord) : string :=
  output val +:+ " 同步成功".

(** *** Kinds of events *)

(** Events of document processing. *)
Definition is_doc_event (e : event) : bool :=
  match e with
  | ReadFile _ | Mkdirp _ | WriteFile _ _ | LogInfo _ => true
  | _ => false
  end.

(** Events of a lane at work, short of its settling. *)
Definition is_progress (e : event) : bool :=
  match e with
  | ReadFile _ | Mkdirp _ | WriteFile _ _ | LogInfo _
  | Downloaded _ | Unzipped _ => true
  | _ => false
  end.

(** Events emitted between the launch of the lanes and the reactions of
    the aggregate. *)
Definition is_work (e : event) : bool :=
  match e with
  | ReadFile _ | Mkdirp _ | WriteFile _ _ | LogInfo _
  | Downloaded _ | Unzipped _ | Settle _ _ => true
  | _ => false
  end.

(** Events by which a source is acquired. *)
Definition is_acquisition (e : event) : bool :=
  match e with
  | CopyDir _ _ | DownGit _ _ => true
  | _ => false
  end.

(** The events of one record: the whole block, or its first one or two
    events when the executor threw. *)
Definition block_of (dir : path) (val : ComponentRecord) (b : list event)
  : Prop :=
  exists t text,
    b = record_block dir val (serialized dir val t text)
    \/ exists n, n <= 2
                 /\ b = take n (record_block dir val (serialized dir val t text)).

(** Events that touch a document: reading a source, creating an output
    directory, writing an output. *)
Definition is_file_access (e : event) : bool :=
  match e with
  | ReadFile _ | Mkdirp _ | WriteFile _ _ => true
  | _ => false
  end.

Definition is_settle (e : event) : bool :=
  match e with Settle _ _ => true | _ => false end.

(** [launched l st evs]: launching lane [l] leaves it in state [st] and
    emits [evs]. *)
Inductive launched (l : lane) : lane_state -> list event -> Prop :=
| launched_remote :
    launched l Downloading
      [DownGit (lane_git l) (resolve TOOLS_PATH [lane_zip l])]
| launched_copied d :
    launched l (Copied Resolved)
      [LogInfo (load_message l d); CopyDir d (working_dir l)]
| launched_copy_failed d e :
    launched l (Copied (Rejected (Thrown e))) [LogInfo (load_message l d)].

(** *** The invariant of the event loop *)

(** Remote operations a lane still has to complete. *)
Definition weight (st : lane_state) : nat :=
  match st with
  | Downloading => 2
  | Unzipping => 1
  | _ => 0
  end.

Definition st_of (l : lane) (c e : lane_state) : lane_state :=
  match l with Core => c | Extensions => e end.

(** One step of lane [l] ending in [st'] emitted [evs]: work only, with a
    [Settle] event exactly when the lane settled. *)
Definition step_ok (l : lane) (st' : lane_state) (evs : list event) : Prop :=
  Forall (fun e => is_work e = true) evs
  /\ (forall l' o, Settle l' o ∈ evs <-> l' = l /\ st' = Settled o).

Definition ready (st : lane_state) : Prop :=
  match st with Copied _ => False | _ => True end.

(** The [Settle] events so far are those of the lanes that are settled. *)
Definition loop_inv (c e : lane_state) (work : list event) : Prop :=
  forall l o, Settle l o ∈ work <-> st_of l c e = Settled o.

(** *** Further observations of a run *)

(** The data of the last [fs.writeFileSync] at [p], if any. *)
Definition last_written (p : path) (evs : list event) : option string :=
  last (omap (fun ev => match ev with
                        | WriteFile q data =>
                            if decide (q = p) then Some data else None
                        | _ => None
                        end) evs).

(** What one record does to the entry at [q], its output apart: nothing,
    or [q] is a missing directory of the output's chain, now created. *)
Definition created_or_same (val : ComponentRecord) (t t' : node) (q : path)
  : Prop :=
  entry_at q t' = entry_at q t
  \/ (q `prefix_of` dirname (outputFilePath val)
      /\ entry_at q t = Absent /\ entry_at q t' = IsDir).

(** The errors printed by [reporter.error], in the order of the calls. *)
Definition errors (evs : list event) : list reason :=
  omap (fun ev => match ev with LogError r => Some r | _ => None end) evs.

(** The statuses handed to [process.exit]. *)
Definition exits (evs : list event) : list Z :=
  omap (fun ev => match ev with Exit code => Some code | _ => None end) evs.

(** The acquisition events, in the order of the calls. *)
Definition acquired (evs : list event) : list event :=
  omap (fun ev => if is_acquisition ev then Some ev else None) evs.

(** The way the script acquires the source of a lane, lines 150-218: the
    copy of the directory named by the lane's flag, or the download of
    the lane's archive. *)
Definition acquisition_of (argv : Argv) (l : lane) : event :=
  match flag_given (lane_flag argv l) with
  | Some arg => CopyDir (resolve cwd [arg]) (working_dir l)
  | None => DownGit (lane_git l) (resolve TOOLS_PATH [lane_zip l])
  end.

Definition put_st (l : lane) (st : lane_state) (c e : lane_state)
  : lane_state * lane_state :=
  match l with Core => (st, e) | Extensions => (c, st) end.

(** The lane's source could not be acquired, or its processor was
    rejected. *)
Definition is_failed (st : lane_state) : bool :=
  match st with
  | Copied (Rejected _) | Settled (Failed _ _) => true
  | _ => false
  end.

(** [lane_step l w st st' w']: one reaction of lane [l], by [react] or by
    [advance], takes it from state [st] in world [w] to state [st'] in
    world [w']. *)
Inductive lane_step (l : lane) (w : world)
  : lane_state -> lane_state -> world -> Prop :=
| step_idle st :
    lane_step l w st st w
| step_copy_failed r :
    lane_step l w (Copied (Rejected r)) (Settled (Failed AcquireStage r))
      (World (fs w) (trace w ++ [Settle l (Failed AcquireStage r)]))
| step_remote_failed st r :
    is_pending st = true ->
    lane_step l w st (Settled (Failed AcquireStage r))
      (World (fs w) (trace w ++ [Settle l (Failed AcquireStage r)]))
| step_downloaded bytes t' :
    put_node (resolve TOOLS_PATH [lane_zip l]) (File bytes) (Some (fs w))
    = Some t' ->
    lane_step l w Downloading Unzipping
      (World t' (trace w ++ [Downloaded (resolve TOOLS_PATH [lane_zip l])]))
| step_copied out w' :
    processor l w = (inr out, w') ->
    lane_step l w (Copied Resolved) (Settled out)
      (World (fs w') (trace w' ++ [Settle l out]))
| step_unzipped tree t' out w' :
    put_node (working_dir l) tree (Some (fs w)) = Some t' ->
    processor l (World t' (trace w ++ [Unzipped (working_dir l)]))
    = (inr out, w') ->
    lane_step l w Unzipping (Settled out)
      (World (fs w') (trace w' ++ [Settle l out])).

(** The events of lane [l] processed to its end are in [evs]: the blocks
    of all its records, in manifest order, then its fulfilment. *)
Definition processed_in (l : lane) (evs : list event) : Prop :=
  exists datas before after,
    length datas = length (manifest l)
    /\ evs = before
             ++ concat (zip_with (record_block (working_dir l))
                          (manifest l) datas)
             ++ Settle l Fulfilled :: after.

(** Lane [l] in state [st] cannot be fulfilled any more, the regular
    file at [src] that one of its records needs being missing: the copy
    is done and [src] is not on the disk, or the copy failed, or the
    source is still to come from the network, or the lane is rejected. *)
Definition doomed_state (argv : Argv) (l : lane) (src : path)
    (st : lane_state) (w : world) : Prop :=
  match st with
  | Copied Resolved => file_at src (fs w) = false
  | Copied (Rejected _) => True
  | Downloading | Unzipping => flag_given (lane_flag argv l) = None
  | Settled out => out <> Fulfilled
  end.

Definition doomed (argv : Argv) (l : lane) (src : path)
    (c e : lane_state) (w : world) : Prop :=
  doomed_state argv l src (st_of l c e) w.

End Script.

(** ** A small installation, for running the model *)

Module Demo.

Definition util : Util :=
  {| parseMarkdown := fun text =>
       {| data_title := text;
          data_content := "<" +:+ text +:+ ">";
          data_deps := [text] |};
     toMarkdown := fun doc =>
       out_title doc +:+ "|" +:+ out_content doc +:+ "|"
       +:+ set_name (out_setting doc)
       +:+ (if set_preview (out_setting doc) then "|preview" else "|no preview");
     readPreset := fun t dir =>
       match lookup_path (dir ++ ["preset.json"]) t with
       | Some (File d) => Some d
       | _ => None
       end |}.

Definition mip_a : ComponentRecord :=
  {| name := "mip-a"; readme := "a/README.md";
     output := "components/a.md"; preview := JUndefined |}.

Definition mip_b : ComponentRecord :=
  {| name := "mip-b"; readme := "b/README.md";
     output := "components/b.md"; preview := JBool false |}.

Definition mip_c : ComponentRecord :=
  {| name := "mip-c"; readme := "c/README.md";
     output := "components/c.md"; preview := JBool false |}.

Definition mip_x : ComponentRecord :=
  {| name := "mip-x"; readme := "x/README.md";
     output := "extensions/x.md"; preview := JUndefined |}.

Definition components : Components :=
  {| getCore := [mip_a; mip_b; mip_c]; getExtensions := [mip_x] |}.

Definition process : Process :=
  {| __dirname := ["repo"; "tools"]; cwd := ["home"] |}.

(** A checkout of the core repository in which [b/README.md] is missing. *)
Definition local_core : node :=
  Dir {[ "a" := Dir {[ "README.md" := File "A" ]};
         "c" := Dir {[ "README.md" := File "C" ]};
         "node_modules" := Dir {[ "junk.js" := File "j" ]};
         "lib" := Dir {[ "node_modules" := Dir {[ "deep.js" := File "d" ]};
                         "index.js" := File "i" ]} ]}.

Definition disk : node :=
  Dir {[ "repo" := Dir {[ "tools" := Dir ∅;
                          "source" := Dir {[ "examples" := Dir ∅ ]} ]};
         "home" := Dir {[ "core" := local_core ]} ]}.

(** The same disk once the core tree sits in its working directory. *)
Definition disk_acquired : node :=
  Dir {[ "repo" := Dir {[ "tools" := Dir {[ "mip-master" :=
                            Dir {[ "a" := Dir {[ "README.md" := File "A" ]};
                                   "c" := Dir {[ "README.md" := File "C" ]} ]} ]};
                          "source" := Dir ∅ ]} ]}.

Definition remote_core : node :=
  Dir {[ "a" := Dir {[ "README.md" := File "A" ]};
         "b" := Dir {[ "README.md" := File "B" ]};
         "c" := Dir {[ "README.md" := File "C" ]} ]}.

Definition remote_extensions : node :=
  Dir {[ "x" := Dir {[ "README.md" := File "X" ]} ]}.

(** Both downloads succeed; the core lane completes its operations first. *)
Definition oracle : Oracle :=
  {| remote := fun l =>
       match l with
       | Core => {| fetched := inr "core.zip"; extracted := inr remote_core |}
       | Extensions =>
           {| fetched := inr "extensions.zip";
              extracted := inr remote_extensions |}
       end;
     sched := fun _ => Core |}.

Definition argv_none : Argv := {| core := None; extensions := None |}.

Definition argv_local_core : Argv :=
  {| core := Some "core"; extensions := None |}.

Definition argv_bad_extensions : Argv :=
  {| core := None; extensions := Some "none" |}.

Definition argv_bad_both : Argv :=
  {| core := Some "nope"; extensions := Some "none" |}.

(** A disk on which a regular file sits where the core working directory
    should go. *)
Definition disk_blocked : node :=
  Dir {[ "repo" := Dir {[ "tools" := Dir {[ "mip-master" := File "stale" ]};
                          "source" := Dir ∅ ]};
         "home" := Dir {[ "core" := local_core ]} ]}.

(** A disk on which the extensions tree sits in its working directory. *)
Definition disk_extensions : node :=
  Dir {[ "repo" := Dir {[ "tools" := Dir {[ "mip-extensions-master" :=
                                            remote_extensions ]};
                          "source" := Dir ∅ ]} ]}.

Definition argv_core_then_bad : Argv :=
  {| core := Some "core"; extensions := Some "none" |}.

(** Both groups from the same local checkout. *)
Definition argv_local_both : Argv :=
  {| core := Some "core"; extensions := Some "core" |}.

(** No network: both downloads fail. *)
Definition oracle_offline : Oracle :=
  {| remote := fun _ => {| fetched := inl (Message "offline");
                           extracted := inl (Message "offline") |};
     sched := fun _ => Extensions |}.

(** The acquired disk with a regular file where the directory of the
    core outputs should go. *)
Definition disk_conflict : node :=
  Dir {[ "repo" := Dir {[ "tools" := Dir {[ "mip-master" :=
                            Dir {[ "a" := Dir {[ "README.md" := File "A" ]};
                                   "c" := Dir {[ "README.md" := File "C" ]} ]} ]};
                          "source" := Dir {[ "components" := File "stale" ]} ]} ]}.

(** The acquired disk with a directory where the output of [mip-c]
    should go. *)
Definition disk_output_dir : node :=
  Dir {[ "repo" := Dir {[ "tools" := Dir {[ "mip-master" :=
                            Dir {[ "a" := Dir {[ "README.md" := File "A" ]};
                                   "c" := Dir {[ "README.md" := File "C" ]} ]} ]};
                          "source" :=
                            Dir {[ "components" :=
                                     Dir {[ "c.md" := Dir ∅ ]} ]} ]} ]}.

(** A record whose output path is the source path of [mip-b]. *)
Definition mip_link : ComponentRecord :=
  {| name := "mip-link"; readme := "a/README.md";
     output := "../tools/mip-master/b/README.md"; preview := JUndefined |}.

Definition components_chained : Components :=
  {| getCore := [mip_link; mip_b]; getExtensions := [] |}.

(** Both downloads succeed, but the core archive lacks [b/README.md]. *)
Definition oracle_stale : Oracle :=
  {| remote := fun l =>
       match l with
       | Core => {| fetched := inr "core.zip"; extracted := inr local_core |}
       | Extensions =>
           {| fetched := inr "extensions.zip";
              extracted := inr remote_extensions |}
       end;
     sched := fun _ => Core |}.

End Demo.

(** * Facts about the file system *)

Section FileSystem.

Lemma lookup_opt_cons s q cur :
  lookup_opt (s :: q) cur = lookup_opt q (entries_of cur !! s).
Proof.
  by destruct cur as [[d|es]|].
Qed.

Lemma remove_path_absent p t :
  p <> [] -> lookup_path p (remove_path p t) = None.
Proof.
  revert t. induction p as [|s p IH]; intros t Hp; [done|].
  destruct t as [d|es]; [reflexivity|].
  destruct p as [|s' p'].
  - simpl. by rewrite lookup_delete_eq.
  - change (remove_path (s :: s' :: p') (Dir es))
      with (Dir (alter (remove_path (s' :: p')) s es)).
    cbn [lookup_path]. rewrite lookup_alter_eq.
    destruct (es !! s) as [c|]; simpl; [|done].
    by apply IH.
Qed.

Lemma remove_path_keeps_absent p q t :
  lookup_path q t = None -> lookup_path q (remove_path p t) = None.
Proof.
  revert q t. induction p as [|s p IH]; intros q t Hq; [by destruct t|].
  destruct t as [d|es]; [exact Hq|].
  destruct q as [|s0 q]; [done|].
  cbn [lookup_path] in Hq.
  destruct p as [|s' p'].
  - simpl. destruct (decide (s = s0)) as [->|Hne].
    + by rewrite lookup_delete_eq.
    + by rewrite lookup_delete_ne.
  - change (remove_path (s :: s' :: p') (Dir es))
      with (Dir (alter (remove_path (s' :: p')) s es)).
    cbn [lookup_path]. destruct (decide (s = s0)) as [->|Hne].
    + rewrite lookup_alter_eq. destruct (es !! s0) as [c|]; simpl in *; [|done].
      by apply IH.
    + by rewrite lookup_alter_ne.
Qed.

Lemma put_node_lookup p new cur c :
  put_node p new cur = Some c -> lookup_path p c = Some new.
Proof.
  revert cur c. induction p as [|s p IH]; intros cur c Hput; simpl in *.
  - by injection Hput as <-.
  - destruct cur as [[d|es]|]; try done.
    destruct (put_node p new (es !! s)) as [c'|] eqn:Hc; simpl in Hput; [|done].
    injection Hput as <-. simpl. rewrite lookup_insert_eq. simpl. eauto.
Qed.

Lemma make_dirs_files p cur c :
  make_dirs p cur = Some c -> forall q, file_in q (Some c) = file_in q cur.
Proof.
  revert cur c. induction p as [|s p IH]; intros cur c Hmk q.
  - destruct cur as [[d|es]|]; simpl in Hmk; try done; injection Hmk as <-; [done|].
    unfold file_in. destruct q; simpl; [done|]. by rewrite lookup_empty.
  - assert (exists c', make_dirs p (entries_of cur !! s) = Some c'
                       /\ c = Dir (<[s := c']> (entries_of cur))) as (c' & Hc' & ->).
    { destruct cur as [[d|es]|]; simpl in *; try done.
      - destruct (make_dirs p (es !! s)) as [c'|]; simpl in Hmk; [|done].
        injection Hmk as <-. eauto.
      - destruct (make_dirs p (∅ !! s)) as [c'|]; simpl in Hmk; [|done].
        injection Hmk as <-. eauto. }
    destruct q as [|s0 q].
    + unfold file_in. destruct cur as [[d|es]|]; simpl in *; done.
    + unfold file_in. rewrite !lookup_opt_cons. cbn [entries_of].
      destruct (decide (s = s0)) as [->|Hne].
      * rewrite lookup_insert_eq. apply (IH _ _ Hc' q).
      * by rewrite lookup_insert_ne.
Qed.

Lemma put_file_files p d cur c :
  put_node p (File d) cur = Some c -> dir_in p cur = false ->
  forall q, q <> p -> file_in q (Some c) = file_in q cur.
Proof.
  revert cur c. induction p as [|s p IH]; intros cur c Hput Hnd q Hq; simpl in Hput.
  - injection Hput as <-. destruct q as [|s0 q]; [done|].
    unfold file_in, dir_in in *. destruct cur as [[d'|es]|]; simpl in *; done.
  - destruct cur as [[d'|es]|]; try done.
    destruct (put_node p (File d) (es !! s)) as [c'|] eqn:Hc; simpl in Hput; [|done].
    injection Hput as <-.
    destruct q as [|s0 q]; [done|].
    unfold file_in. rewrite !lookup_opt_cons. cbn [entries_of].
    destruct (decide (s = s0)) as [->|Hne].
    + rewrite lookup_insert_eq. apply (IH _ _ Hc).
      * unfold dir_in in *. by rewrite lookup_opt_cons in Hnd.
      * congruence.
    + by rewrite lookup_insert_ne.
Qed.

Lemma copy_fresh_lookup keep rel : forall src,
  lookup_path rel (copy_into keep src None)
  = (fun n => copy_into keep n None) <$> visible keep rel src.
Proof.
  induction rel as [|s rel IH]; intros src; [done|].
  destruct src as [d|es]; [done|].
  cbn [copy_into lookup_path visible entries_of].
  rewrite (right_id ∅ (∪)), map_lookup_imap.
  destruct (es !! s) as [c|]; [|done]. cbn [option_bind mbind].
  simpl. destruct (keep (is_dir c) s); [|done].
  simpl. rewrite lookup_empty. apply IH.
Qed.

Lemma dir_at_cons s q es :
  dir_at (s :: q) (Dir es) = dir_in q (es !! s).
Proof. reflexivity. Qed.

Lemma dir_in_nil_some c : dir_in [] (Some c) = is_dir c.
Proof. by destruct c. Qed.

Lemma visible_filter rel : forall src n,
  lookup_path rel src = Some n ->
  (node_modules_on_way rel src -> visible copy_filter rel src = None)
  /\ (~ node_modules_on_way rel src -> visible copy_filter rel src = Some n).
Proof.
  induction rel as [|s rel IH]; intros src n Hn.
  - split; [by intros (k & Hk & _)|]. intros _. exact Hn.
  - destruct src as [d|es]; [done|]. cbn [lookup_path visible] in *.
    destruct (es !! s) as [c|] eqn:Hc; [|done].
    cbn [mbind option_bind] in *.
    destruct (IH c n Hn) as [Hcut Hkeep].
    assert (node_modules_on_way rel c ->
            node_modules_on_way (s :: rel) (Dir es)) as Hdown.
    { intros (k & Hk & Hdk). exists (S k). split; [done|].
      cbn [take]. rewrite dir_at_cons, Hc. exact Hdk. }
    assert (node_modules_on_way (s :: rel) (Dir es) ->
            (is_dir c = true /\ s = "node_modules")
            \/ node_modules_on_way rel c) as Hup.
    { intros (k & Hk & Hdk). destruct k as [|k].
      - left. injection Hk as ->. cbn [take] in Hdk.
        rewrite dir_at_cons, Hc, dir_in_nil_some in Hdk. done.
      - right. exists k. split; [done|].
        cbn [take] in Hdk. by rewrite dir_at_cons, Hc in Hdk. }
    unfold copy_filter at 1 3.
    destruct (is_dir c) eqn:Hdir; cbn [andb].
    + destruct (String.eqb_spec s "node_modules") as [->|Hs]; cbn [negb].
      * split; [done|]. intros Hno. exfalso. apply Hno. exists 0.
        split; [done|]. cbn [take].
        by rewrite dir_at_cons, Hc, dir_in_nil_some.
      * split.
        -- intros Hway. apply Hcut. by destruct (Hup Hway) as [[_ ?]|?].
        -- intros Hno. apply Hkeep. intros Hway. apply Hno. by apply Hdown.
    + cbn [negb]. split.
      * intros Hway. apply Hcut. by destruct (Hup Hway) as [[? _]|?].
      * intros Hno. apply Hkeep. intros Hway. apply Hno. by apply Hdown.
Qed.

Lemma put_node_lookup_below p new cur c q :
  put_node p new cur = Some c -> lookup_path (p ++ q) c = lookup_path q new.
Proof.
  revert cur c. induction p as [|s p IH]; intros cur c Hput; simpl in *.
  - by injection Hput as <-.
  - destruct cur as [[d|es]|]; try done.
    destruct (put_node p new (es !! s)) as [c'|] eqn:Hc; simpl in Hput; [|done].
    injection Hput as <-. simpl. rewrite lookup_insert_eq. simpl. eauto.
Qed.

Lemma lookup_path_app p q t :
  lookup_path (p ++ q) t = lookup_path p t ≫= lookup_path q.
Proof.
  revert t. induction p as [|s p IH]; intros t; [done|].
  destruct t as [d|es]; [done|]. cbn [app lookup_path].
  destruct (es !! s) as [c|]; [|done]. apply IH.
Qed.

Lemma copy_into_visible keep rel : forall src dst n,
  visible keep rel src = Some n ->
  lookup_path rel (copy_into keep src dst)
  = Some (copy_into keep n (lookup_opt rel dst)).
Proof.
  induction rel as [|s rel IH]; intros src dst n Hv.
  - injection Hv as ->. by destruct dst.
  - destruct src as [d|es]; [done|].
    cbn [copy_into lookup_path visible] in *.
    rewrite lookup_union, map_lookup_imap.
    destruct (es !! s) as [c|]; [|done]. cbn [mbind option_bind] in *.
    destruct (keep (is_dir c) s); [|done].
    rewrite union_Some_l. cbn [mbind option_bind].
    rewrite (IH _ _ _ Hv). by rewrite lookup_opt_cons.
Qed.

Lemma copy_into_cut keep rel : forall src dst n,
  lookup_path rel src = Some n ->
  visible keep rel src = None ->
  lookup_path rel (copy_into keep src dst) = lookup_opt rel dst.
Proof.
  induction rel as [|s rel IH]; intros src dst n Hn Hv; [done|].
  destruct src as [d|es]; [done|].
  cbn [copy_into lookup_path visible] in *.
  rewrite lookup_union, map_lookup_imap, lookup_opt_cons.
  destruct (es !! s) as [c|]; [|done]. cbn [mbind option_bind] in *.
  destruct (keep (is_dir c) s).
  - rewrite union_Some_l. cbn [mbind option_bind]. by apply (IH _ _ n).
  - rewrite (left_id None _). done.
Qed.

Lemma file_in_cons s q cur :
  file_in (s :: q) cur = file_in q (entries_of cur !! s).
Proof. unfold file_in. by rewrite lookup_opt_cons. Qed.

Lemma dir_in_cons s q cur :
  dir_in (s :: q) cur = dir_in q (entries_of cur !! s).
Proof. unfold dir_in. by rewrite lookup_opt_cons. Qed.

Lemma make_dirs_succeeds p : forall cur,
  (forall q, q `prefix_of` p -> file_in q cur = false) ->
  exists c, make_dirs p cur = Some c.
Proof.
  induction p as [|s p IH]; intros cur Hfree.
  - pose proof (Hfree [] (prefix_nil _)) as Hroot.
    destruct cur as [[d|es]|]; [done|by eexists..].
  - pose proof (Hfree [] (prefix_nil _)) as Hroot.
    destruct (IH (entries_of cur !! s)) as [c Hc].
    { intros q Hq. rewrite <- file_in_cons. apply Hfree.
      by apply prefix_cons. }
    exists (Dir (<[s := c]> (entries_of cur))).
    destruct cur as [[d|es]|]; [done|..]; cbn [make_dirs entries_of] in *;
      by rewrite Hc.
Qed.

Lemma make_dirs_dirs p : forall cur c q,
  make_dirs p cur = Some c ->
  dir_in q (Some c) = true ->
  dir_in q cur = true \/ q `prefix_of` p.
Proof.
  induction p as [|s p IH]; intros cur c q Hmk Hq.
  - destruct q as [|s' q]; [right; apply prefix_nil|]. left.
    destruct cur as [[d|es]|]; cbn [make_dirs] in Hmk; [done|..];
      injection Hmk as <-; [done|].
    by rewrite dir_in_cons in Hq.
  - destruct q as [|s' q]; [right; apply prefix_nil|].
    assert (exists c', make_dirs p (entries_of cur !! s) = Some c'
                       /\ c = Dir (<[s := c']> (entries_of cur))) as (c' & Hc' & ->).
    { destruct cur as [[d|es]|]; simpl in *; try done.
      - destruct (make_dirs p (es !! s)) as [c'|]; simpl in Hmk; [|done].
        injection Hmk as <-. eauto.
      - destruct (make_dirs p (∅ !! s)) as [c'|]; simpl in Hmk; [|done].
        injection Hmk as <-. eauto. }
    rewrite dir_in_cons in Hq. cbn [entries_of] in Hq. rewrite dir_in_cons.
    destruct (decide (s = s')) as [->|Hne].
    + rewrite lookup_insert_eq in Hq.
      destruct (IH _ _ _ Hc' Hq) as [Hold|Hpre]; [by left|].
      right. by apply prefix_cons.
    + rewrite lookup_insert_ne in Hq by done. by left.
Qed.

Lemma make_dirs_target p : forall cur c,
  make_dirs p cur = Some c -> dir_in p (Some c) = true.
Proof.
  induction p as [|s p IH]; intros cur c Hmk.
  - destruct cur as [[d|es]|]; cbn [make_dirs] in Hmk; [done|..];
      by injection Hmk as <-.
  - assert (exists c', make_dirs p (entries_of cur !! s) = Some c'
                       /\ c = Dir (<[s := c']> (entries_of cur))) as (c' & Hc' & ->).
    { destruct cur as [[d|es]|]; simpl in *; try done.
      - destruct (make_dirs p (es !! s)) as [c'|]; simpl in Hmk; [|done].
        injection Hmk as <-. eauto.
      - destruct (make_dirs p (∅ !! s)) as [c'|]; simpl in Hmk; [|done].
        injection Hmk as <-. eauto. }
    rewrite dir_in_cons. cbn [entries_of]. rewrite lookup_insert_eq.
    by apply (IH _ _ Hc').
Qed.

Lemma put_node_succeeds p new : forall cur,
  p <> [] -> dir_in (removelast p) cur = true ->
  exists c, put_node p new cur = Some c.
Proof.
  induction p as [|s p IH]; intros cur Hne Hdir; [done|].
  destruct p as [|s' p].
  - cbn [removelast] in Hdir. unfold dir_in, lookup_opt in Hdir.
    destruct cur as [[d|es]|]; try done. by eexists.
  - change (removelast (s :: s' :: p)) with (s :: removelast (s' :: p)) in Hdir.
    rewrite dir_in_cons in Hdir.
    destruct (IH (entries_of cur !! s)) as [c Hc]; [done|done|].
    destruct cur as [[d|es]|]; cbn [entries_of] in *;
      [by rewrite lookup_empty in Hdir| |by rewrite lookup_empty in Hdir].
    exists (Dir (<[s := c]> es)). cbn [put_node] in *. by rewrite Hc.
Qed.

Lemma put_file_dirs p d : forall cur c q,
  put_node p (File d) cur = Some c ->
  dir_in q (Some c) = true -> dir_in q cur = true.
Proof.
  induction p as [|s p IH]; intros cur c q Hput Hq; simpl in Hput.
  - injection Hput as <-. by destruct q.
  - destruct cur as [[d'|es]|]; try done.
    destruct (put_node p (File d) (es !! s)) as [c'|] eqn:Hc; simpl in Hput; [|done].
    injection Hput as <-.
    destruct q as [|s0 q]; [done|].
    rewrite dir_in_cons in Hq |- *. cbn [entries_of] in *.
    destruct (decide (s = s0)) as [->|Hne].
    + rewrite lookup_insert_eq in Hq. by apply (IH _ _ _ Hc).
    + by rewrite lookup_insert_ne in Hq.
Qed.

Lemma nested_dirname (q out : path) :
  out <> [] -> q `prefix_of` removelast out -> nested q out.
Proof.
  intros Hne [k Hk].
  destruct (exists_last Hne) as (front & x & ->).
  rewrite removelast_last in Hk. subst front. split.
  - exists (k ++ [x]). by rewrite app_assoc.
  - intros Heq. apply (f_equal length) in Heq.
    rewrite !length_app in Heq. simpl in Heq. lia.
Qed.

Lemma not_prefix_of_dirname (out : path) :
  out <> [] -> ~ out `prefix_of` removelast out.
Proof.
  intros Hne Hpre. by destruct (nested_dirname out out Hne Hpre) as [_ ?].
Qed.

Lemma visible_lookup keep rel : forall src n,
  visible keep rel src = Some n -> lookup_path rel src = Some n.
Proof.
  induction rel as [|s rel IH]; intros src n Hv; [done|].
  destruct src as [d|es]; [done|]. cbn [visible lookup_path] in *.
  destruct (es !! s) as [c|]; [|done]. cbn [mbind option_bind] in *.
  destruct (keep (is_dir c) s); [|done]. by apply IH.
Qed.

(** Entries *)

Lemma entry_in_cons s q cur :
  entry_in (s :: q) cur = entry_in q (entries_of cur !! s).
Proof. unfold entry_in. by rewrite lookup_opt_cons. Qed.

Lemma entry_in_nil cur : entry_in [] cur = entry_of cur.
Proof. by destruct cur. Qed.

Lemma entry_at_lookup q t : entry_at q t = entry_of (lookup_path q t).
Proof. reflexivity. Qed.

Lemma file_at_entry q t :
  file_at q t = match entry_at q t with IsFile _ => true | _ => false end.
Proof.
  unfold file_at, file_in, entry_at, entry_in.
  by destruct (lookup_opt q (Some t)) as [[d|es]|].
Qed.

Lemma dir_at_entry q t :
  dir_at q t = match entry_at q t with IsDir => true | _ => false end.
Proof.
  unfold dir_at, dir_in, entry_at, entry_in.
  by destruct (lookup_opt q (Some t)) as [[d|es]|].
Qed.

Lemma file_in_entry q cur :
  file_in q cur = true <-> exists d, entry_in q cur = IsFile d.
Proof.
  unfold file_in, entry_in. destruct (lookup_opt q cur) as [[d|es]|]; simpl;
    split; try done; eauto; by intros [? ?].
Qed.

Lemma remove_path_entry p : forall q t,
  p <> [] -> ~ p `prefix_of` q ->
  entry_at q (remove_path p t) = entry_at q t.
Proof.
  induction p as [|s p IH]; intros q t Hp Hq; [done|].
  destruct t as [d|es]; [done|].
  destruct q as [|s0 q].
  { by destruct p. }
  assert (s = s0 -> p <> [] /\ ~ p `prefix_of` q) as Hsame.
  { intros ->. split.
    - intros ->. apply Hq. exists q. done.
    - intros Hpre. apply Hq. by apply prefix_cons. }
  unfold entry_at. destruct p as [|s' p'].
  - cbn [remove_path]. rewrite !entry_in_cons. cbn [entries_of].
    destruct (decide (s = s0)) as [->|Hne]; [by destruct Hsame|].
    by rewrite lookup_delete_ne.
  - change (remove_path (s :: s' :: p') (Dir es))
      with (Dir (alter (remove_path (s' :: p')) s es)).
    rewrite !entry_in_cons. cbn [entries_of].
    destruct (decide (s = s0)) as [->|Hne].
    + destruct Hsame as [Hp' Hq']; [done|].
      rewrite lookup_alter_eq. destruct (es !! s0) as [c|]; [|done].
      cbn [fmap option_fmap option_map]. apply (IH q c Hp' Hq').
    + by rewrite lookup_alter_ne.
Qed.

Lemma remove_path_id p : forall t,
  lookup_path p t = None -> remove_path p t = t.
Proof.
  induction p as [|s p IH]; intros t Hp; [done|].
  destruct t as [d|es]; [done|]. cbn [lookup_path] in Hp.
  destruct p as [|s' p'].
  - cbn [remove_path]. f_equal. apply delete_id.
    destruct (es !! s); [done|done].
  - change (remove_path (s :: s' :: p') (Dir es))
      with (Dir (alter (remove_path (s' :: p')) s es)).
    f_equal. apply alter_id. intros c Hc. rewrite Hc in Hp. by apply IH.
Qed.

Lemma make_dirs_step s p cur c :
  make_dirs (s :: p) cur = Some c ->
  exists c', make_dirs p (entries_of cur !! s) = Some c'
             /\ c = Dir (<[s := c']> (entries_of cur)).
Proof.
  intros Hmk. destruct cur as [[d|es]|]; simpl in *; try done.
  - destruct (make_dirs p (es !! s)) as [c'|]; simpl in Hmk; [|done].
    injection Hmk as <-. eauto.
  - destruct (make_dirs p (∅ !! s)) as [c'|]; simpl in Hmk; [|done].
    injection Hmk as <-. eauto.
Qed.

Lemma make_dirs_entry_chain p : forall cur c q,
  make_dirs p cur = Some c -> q `prefix_of` p -> entry_in q (Some c) = IsDir.
Proof.
  induction p as [|s p IH]; intros cur c q Hmk Hq.
  - apply prefix_nil_inv in Hq as ->.
    destruct cur as [[d|es]|]; cbn [make_dirs] in Hmk; [done|..];
      by injection Hmk as <-.
  - destruct (make_dirs_step _ _ _ _ Hmk) as (c' & Hc' & ->).
    destruct q as [|s0 q]; [done|].
    destruct Hq as [k Hk]. injection Hk as <- Hk.
    rewrite entry_in_cons. cbn [entries_of]. rewrite lookup_insert_eq.
    apply (IH _ _ _ Hc'). by exists k.
Qed.

Lemma make_dirs_entry_frame p : forall cur c q,
  make_dirs p cur = Some c -> ~ q `prefix_of` p ->
  entry_in q (Some c) = entry_in q cur.
Proof.
  induction p as [|s p IH]; intros cur c q Hmk Hq.
  - destruct q as [|s0 q]; [by destruct Hq|].
    destruct cur as [[d|es]|]; cbn [make_dirs] in Hmk; [done|..];
      by injection Hmk as <-.
  - destruct (make_dirs_step _ _ _ _ Hmk) as (c' & Hc' & ->).
    destruct q as [|s0 q]; [destruct Hq; apply prefix_nil|].
    rewrite !entry_in_cons. cbn [entries_of].
    destruct (decide (s = s0)) as [->|Hne].
    + rewrite lookup_insert_eq. apply (IH _ _ _ Hc').
      intros Hpre. apply Hq. by apply prefix_cons.
    + by rewrite lookup_insert_ne.
Qed.

Lemma put_node_entry_frame p new : forall cur c q,
  put_node p new cur = Some c -> ~ p `prefix_of` q ->
  entry_in q (Some c) = entry_in q cur.
Proof.
  induction p as [|s p IH]; intros cur c q Hput Hq.
  - destruct Hq. apply prefix_nil.
  - cbn [put_node] in Hput. destruct cur as [[d|es]|]; try done.
    destruct (put_node p new (es !! s)) as [c'|] eqn:Hc; simpl in Hput; [|done].
    injection Hput as <-.
    destruct q as [|s0 q]; [done|].
    rewrite !entry_in_cons. cbn [entries_of].
    destruct (decide (s = s0)) as [->|Hne].
    + rewrite lookup_insert_eq. apply (IH _ _ _ Hc).
      intros Hpre. apply Hq. by apply prefix_cons.
    + by rewrite lookup_insert_ne.
Qed.

Lemma put_node_frame p new t t' q :
  put_node p new (Some t) = Some t' -> ~ p `prefix_of` q ->
  entry_at q t' = entry_at q t.
Proof. apply put_node_entry_frame. Qed.

Lemma put_file_entry_frame p d : forall cur c q,
  put_node p (File d) cur = Some c -> entry_in p cur <> IsDir -> q <> p ->
  entry_in q (Some c) = entry_in q cur.
Proof.
  induction p as [|s p IH]; intros cur c q Hput Hnd Hq.
  - cbn [put_node] in Hput. injection Hput as <-.
    destruct q as [|s0 q]; [done|].
    rewrite entry_in_nil in Hnd. unfold entry_in.
    destruct cur as [[d'|es]|]; done.
  - cbn [put_node] in Hput. destruct cur as [[d'|es]|]; try done.
    destruct (put_node p (File d) (es !! s)) as [c'|] eqn:Hc; simpl in Hput; [|done].
    injection Hput as <-.
    destruct q as [|s0 q]; [done|].
    rewrite !entry_in_cons. cbn [entries_of].
    destruct (decide (s = s0)) as [->|Hne].
    + rewrite lookup_insert_eq. apply (IH _ _ _ Hc).
      * by rewrite entry_in_cons in Hnd.
      * congruence.
    + by rewrite lookup_insert_ne.
Qed.

Lemma put_node_entry p new cur c :
  put_node p new cur = Some c -> entry_in p (Some c) = entry_of (Some new).
Proof.
  intros Hput. unfold entry_in, lookup_opt. simpl.
  by rewrite (put_node_lookup _ _ _ _ Hput).
Qed.

Lemma make_dirs_blocked p : forall cur q,
  q `prefix_of` p -> file_in q cur = true -> make_dirs p cur = None.
Proof.
  induction p as [|s p IH]; intros cur q Hq Hf.
  - apply prefix_nil_inv in Hq as ->. by destruct cur as [[d|es]|].
  - destruct q as [|s' q]; [by destruct cur as [[d|es]|]|].
    pose proof (prefix_cons_inv_1 _ _ _ _ Hq) as ->.
    apply prefix_cons_inv_2 in Hq. rewrite file_in_cons in Hf.
    destruct cur as [[d|es]|]; [done| |]; cbn [make_dirs];
      by rewrite (IH _ q).
Qed.

Lemma make_dirs_none p : forall cur,
  make_dirs p cur = None ->
  exists q, q `prefix_of` p /\ file_in q cur = true.
Proof.
  induction p as [|s p IH]; intros cur Hmk.
  - exists []. split; [done|]. by destruct cur as [[d|es]|].
  - destruct cur as [[d|es]|] eqn:Hcur.
    + exists []. split; [apply prefix_nil|done].
    + cbn [make_dirs] in Hmk.
      destruct (make_dirs p (entries_of (Some (Dir es)) !! s)) as [c|] eqn:Hsub;
        [done|].
      destruct (IH _ Hsub) as (q & Hq & Hf). exists (s :: q).
      split; [by apply prefix_cons|]. by rewrite file_in_cons.
    + cbn [make_dirs] in Hmk.
      destruct (make_dirs p (entries_of None !! s)) as [c|] eqn:Hsub; [done|].
      destruct (IH _ Hsub) as (q & Hq & Hf). exists (s :: q).
      split; [by apply prefix_cons|]. by rewrite file_in_cons.
Qed.

Lemma make_dirs_contents p cur c q d :
  make_dirs p cur = Some c ->
  entry_in q (Some c) = IsFile d <-> entry_in q cur = IsFile d.
Proof.
  intros Hmk. destruct (decide (q `prefix_of` p)) as [Hpre|Hpre].
  - rewrite (make_dirs_entry_chain _ _ _ _ Hmk Hpre). split; [done|].
    intros Hfile. exfalso.
    assert (file_in q cur = true) as Hf by (apply file_in_entry; by exists d).
    by rewrite (make_dirs_blocked _ _ _ Hpre Hf) in Hmk.
  - by rewrite (make_dirs_entry_frame _ _ _ _ Hmk Hpre).
Qed.

Lemma nested_prefix_dirname (q out : path) :
  nested q out -> q `prefix_of` dirname out.
Proof.
  intros [[k ->] Hne]. unfold dirname.
  destruct k as [|s k]; [by rewrite app_nil_r in Hne|].
  rewrite removelast_app by done. by apply prefix_app_r.
Qed.

End FileSystem.

(** * Facts about the script *)

Section Facts.

Context {util : Util} {comps : Components} {proc : Process}.

(** ** Running the monad *)

Lemma bind_run {A B} (c : X A) (f : A -> X B) w :
  (c ≫= f) w =
  match c w with
  | (inr a, w') => f a w'
  | (inl stop, w') => (inl stop, w')
  end.
Proof. reflexivity. Qed.

Lemma ret_run {A} (a : A) w : (mret a : X A) w = (inr a, w).
Proof. reflexivity. Qed.

Lemma emit_run ev w : emit ev w = (inr tt, World (fs w) (trace w ++ [ev])).
Proof. reflexivity. Qed.

Lemma info_run msg w :
  info msg w = (inr tt, World (fs w) (trace w ++ [LogInfo msg])).
Proof. reflexivity. Qed.

Lemma error_run r w :
  error_ r w = (inr tt, World (fs w) (trace w ++ [LogError r])).
Proof. reflexivity. Qed.

Lemma exit_run code w :
  process_exit code w
  = (inl (ExitProcess code), World (fs w) (trace w ++ [Exit code])).
Proof. reflexivity. Qed.

Lemma isDirectory_run p w : isDirectory p w = (inr (dir_at p (fs w)), w).
Proof. reflexivity. Qed.

Lemma rimraf_run p w :
  rimraf_sync p w
  = (inr tt, World (remove_path p (fs w)) (trace w ++ [Rimraf p])).
Proof. reflexivity. Qed.

Lemma settle_run l o w :
  settle l o w = (inr (Settled o), World (fs w) (trace w ++ [Settle l o])).
Proof. reflexivity. Qed.

Lemma store_promise_run p new ev w :
  new_promise (store p new;; emit ev;; mret Resolved) w =
  match put_node p new (Some (fs w)) with
  | Some t' => (inr Resolved, World t' (trace w ++ [ev]))
  | None => (inr (Rejected (Thrown (StoreFailed p))), w)
  end.
Proof.
  unfold new_promise, store, emit, get_fs, set_fs, throw.
  unfold mbind, mret, X_mbind, X_mret, X_bind, X_ret. cbn [fs trace].
  by destruct (put_node p new (Some (fs w))).
Qed.

Lemma copy_promise_run from to w :
  (exists t',
      new_promise (copydir_sync from to copy_filter;; mret Resolved) w
      = (inr Resolved, World t' (trace w ++ [CopyDir from to])))
  \/ new_promise (copydir_sync from to copy_filter;; mret Resolved) w
     = (inr (Rejected (Thrown (CopyFailed from to))), w).
Proof.
  unfold new_promise, copydir_sync, emit, get_fs, set_fs, throw.
  unfold mbind, mret, X_mbind, X_mret, X_bind, X_ret. cbn [fs trace].
  destruct (lookup_path from (fs w)) as [[d|es]|]; [by right| |by right].
  destruct (lookup_path to (fs w)) as [[d|es']|]; [by right| |];
    destruct (put_node to _ (Some (fs w))) as [t'|]; eauto.
Qed.

Lemma copydir_sync_run from to keep w w' :
  copydir_sync from to keep w = (inr tt, w') ->
  exists es t',
    lookup_path from (fs w) = Some (Dir es)
    /\ put_node to (copy_into keep (Dir es) (lookup_path to (fs w)))
         (Some (fs w)) = Some t'
    /\ w' = World t' (trace w ++ [CopyDir from to]).
Proof.
  unfold copydir_sync, emit, get_fs, set_fs, throw.
  unfold mbind, mret, X_mbind, X_mret, X_bind, X_ret. cbn [fs trace].
  destruct (lookup_path from (fs w)) as [[d|es]|]; [done| |done].
  destruct (lookup_path to (fs w)) as [[d|es']|]; [done| |];
    destruct (put_node to _ (Some (fs w))) as [t'|] eqn:Hput; try done;
    intros [= <-]; eauto.
Qed.

(** ** The processors *)

Lemma record_promise_run dir val w :
  new_promise (record_executor dir val) w =
  let '(s, t', evs) := record_result dir val (fs w) in
  (inr s, World t' (trace w ++ evs)).
Proof.
  destruct w as [t tr].
  unfold record_result, new_promise, record_executor, fileExists, readFileSync,
    mkdirp_sync, writeFileSync, info, emit, get_fs, set_fs, throw,
    file_at, file_in, lookup_opt.
  unfold mbind, mret, X_mbind, X_mret, X_bind, X_ret. cbn [fs trace option_bind].
  simpl.
  destruct (lookup_path (markdownFile dir val) t) as [[text|es]|] eqn:Hsrc;
    cbn [negb fs trace]; rewrite ?app_nil_r; try reflexivity.
  rewrite Hsrc. cbn [fs trace].
  destruct (make_dirs (dirname (outputFilePath val)) (Some t)) as [t1|] eqn:Hmk;
    cbn [fs trace]; [|reflexivity].
  destruct (lookup_path (outputFilePath val) t1) as [[d|es]|] eqn:Hout;
    cbn [fs trace];
    try (destruct (put_node (outputFilePath val) _ (Some t1)) as [t2|] eqn:Hput);
    cbn [fs trace]; rewrite <- ?app_assoc; reflexivity.
Qed.

Lemma map_in_order_run dir l w :
  map_in_order (fun val => new_promise (record_executor dir val)) l w =
  let '(ss, t', evs) := records_result dir l (fs w) in
  (inr ss, World t' (trace w ++ evs)).
Proof.
  revert w. induction l as [|val l IH]; intros w.
  - destruct w as [t tr]. simpl. unfold mret, X_mret, X_ret.
    by rewrite app_nil_r.
  - cbn [map_in_order records_result].
    unfold mbind, X_mbind, X_bind at 1.
    rewrite record_promise_run.
    destruct (record_result dir val (fs w)) as [[s t1] ev1].
    unfold mbind, X_mbind, X_bind at 1. rewrite IH. cbn [fs trace].
    destruct (records_result dir l t1) as [[ss t2] ev2].
    unfold mret, X_mret, X_ret. by rewrite app_assoc.
Qed.

Lemma record_promises_run l w :
  record_promises l w =
  let '(ss, t', evs) := records_result (working_dir l) (manifest l) (fs w) in
  (inr ss, World t' (trace w ++ evs)).
Proof. apply map_in_order_run. Qed.

Lemma processor_run l w :
  processor l w =
  let '(o, t', evs) := processor_result l (fs w) in
  (inr o, World t' (trace w ++ evs)).
Proof.
  unfold processor, processor_result, isDirectory, get_fs.
  unfold mbind, X_mbind, X_bind at 1. cbn [fs].
  unfold mbind, X_mbind, X_bind at 1. unfold mret, X_mret, X_ret at 1.
  destruct (dir_at (working_dir l) (fs w)); cbn [negb].
  - unfold mbind, X_mbind, X_bind. rewrite record_promises_run.
    destruct (records_result (working_dir l) (manifest l) (fs w)) as [[ss t'] evs].
    reflexivity.
  - destruct w as [t tr]. unfold mret, X_mret, X_ret. cbn [fs trace].
    by rewrite app_nil_r.
Qed.

Lemma file_at_lookup p t :
  file_at p t = true <-> exists d, lookup_path p t = Some (File d).
Proof.
  unfold file_at, file_in, lookup_opt. simpl.
  destruct (lookup_path p t) as [[d|es]|]; split; try done; eauto.
  all: by intros [? ?].
Qed.

Lemma record_result_missing dir val t :
  file_at (markdownFile dir val) t = false ->
  record_result dir val t =
  (Rejected (Message (render (markdownFile dir val) +:+ " 不存在")), t, []).
Proof.
  unfold file_at, file_in, lookup_opt, record_result. simpl.
  by destruct (lookup_path (markdownFile dir val) t) as [[text|es]|].
Qed.

Lemma record_result_present dir val t text :
  lookup_path (markdownFile dir val) t = Some (File text) ->
  (exists t',
      record_result dir val t =
        (Resolved, t', record_block dir val (serialized dir val t text))
      /\ lookup_path (outputFilePath val) t'
         = Some (File (serialized dir val t text)))
  \/ (exists e t' n,
      record_result dir val t =
        (Rejected (Thrown e), t',
         take n (record_block dir val (serialized dir val t text)))
      /\ n <= 2).
Proof.
  intros Hsrc. unfold record_result. rewrite Hsrc.
  destruct (make_dirs (dirname (outputFilePath val)) (Some t)) as [t1|];
    [|right; eauto 10].
  destruct (put_node (outputFilePath val) _ (Some t1)) as [t2|] eqn:Hput.
  - destruct (lookup_path (outputFilePath val) t1) as [[d|es]|];
      [left|right; eauto 10|left];
      (eexists; split; [reflexivity|by eapply put_node_lookup]).
  - right. destruct (lookup_path (outputFilePath val) t1) as [[d|es]|]; eauto 10.
Qed.

Lemma record_result_status dir val t s t' evs :
  record_result dir val t = (s, t', evs) ->
  (file_at (markdownFile dir val) t = false
   /\ s = Rejected (Message (render (markdownFile dir val) +:+ " 不存在")))
  \/ (file_at (markdownFile dir val) t = true
      /\ ((s = Resolved
           /\ file_at (outputFilePath val) t' = true
           /\ exists data, evs = record_block dir val data)
          \/ exists e, s = Rejected (Thrown e))).
Proof.
  intros Hres. destruct (file_at (markdownFile dir val) t) eqn:Hsrc.
  - right. split; [done|]. apply file_at_lookup in Hsrc as [text Hsrc].
    destruct (record_result_present dir val t text Hsrc)
      as [(t1 & Hr & Hout)|(e & t1 & n & Hr & _)]; rewrite Hr in Hres;
      injection Hres as <- <- <-; [left|right; eauto].
    split; [done|]. split; [|eauto]. apply file_at_lookup. eauto.
  - left. rewrite (record_result_missing _ _ _ Hsrc) in Hres.
    by injection Hres as <- <- <-.
Qed.

Lemma record_result_files dir val t s t' evs :
  record_result dir val t = (s, t', evs) ->
  forall q,
    (file_at q t = true -> file_at q t' = true)
    /\ (q <> outputFilePath val -> file_at q t' = file_at q t).
Proof.
  unfold record_result. intros Hres q.
  destruct (lookup_path (markdownFile dir val) t) as [[text|es]|];
    try (injection Hres as <- <- <-; done).
  destruct (make_dirs (dirname (outputFilePath val)) (Some t)) as [t1|] eqn:Hmk;
    [|injection Hres as <- <- <-; done].
  pose proof (make_dirs_files _ _ _ Hmk q) as Hq1. fold (file_at q t1) in Hq1.
  fold (file_at q t) in Hq1.
  destruct (put_node (outputFilePath val) _ (Some t1)) as [t2|] eqn:Hput.
  - destruct (lookup_path (outputFilePath val) t1) as [[d|es]|] eqn:Hout;
      injection Hres as <- <- <-; try (rewrite Hq1; done).
    all: assert (dir_in (outputFilePath val) (Some t1) = false) as Hnd
        by (unfold dir_in, lookup_opt; simpl; by rewrite Hout).
    all: split; [intros Hq|intros Hne].
    all: try (unfold file_at; rewrite (put_file_files _ _ _ _ Hput Hnd q Hne);
              exact Hq1).
    all: destruct (decide (q = outputFilePath val)) as [->|Hne];
      [unfold file_at, file_in, lookup_opt; simpl;
       by rewrite (put_node_lookup _ _ _ _ Hput)
      |unfold file_at; rewrite (put_file_files _ _ _ _ Hput Hnd q Hne);
       fold (file_at q t1); by rewrite Hq1].
  - destruct (lookup_path (outputFilePath val) t1) as [[d|es]|];
      injection Hres as <- <- <-; rewrite Hq1; done.
Qed.

Lemma record_result_block_of dir val t s t' evs :
  record_result dir val t = (s, t', evs) -> block_of dir val evs.
Proof.
  unfold record_result. intros Hres.
  destruct (lookup_path (markdownFile dir val) t) as [[text|es]|];
    try (injection Hres as <- <- <-; exists t, ""; right; exists 0;
         split; [lia|reflexivity]).
  exists t, text.
  destruct (make_dirs (dirname (outputFilePath val)) (Some t)) as [t1|];
    [|injection Hres as <- <- <-; right; exists 1; split; [lia|reflexivity]].
  destruct (lookup_path (outputFilePath val) t1) as [[d|es]|];
    try match type of Hres with
        | context [put_node ?p ?n ?c] => destruct (put_node p n c) as [t2|]
        end;
    injection Hres as <- <- <-;
    first [ by left | right; exists 2; split; [lia|reflexivity] ].
Qed.

Lemma records_result_files dir l : forall t ss t' evs,
  records_result dir l t = (ss, t', evs) ->
  forall q,
    (file_at q t = true -> file_at q t' = true)
    /\ (q ∉ outputFilePath <$> l -> file_at q t' = file_at q t).
Proof.
  induction l as [|val l IH]; intros t ss t' evs Hres q; cbn [records_result] in Hres.
  - by injection Hres as <- <- <-.
  - destruct (record_result dir val t) as [[s t1] ev1] eqn:H1.
    destruct (records_result dir l t1) as [[ss' t2] ev2] eqn:H2.
    injection Hres as <- <- <-.
    destruct (record_result_files _ _ _ _ _ _ H1 q) as [Hm1 Hf1].
    destruct (IH _ _ _ _ H2 q) as [Hm2 Hf2].
    split; [auto|].
    intros Hq. rewrite fmap_cons in Hq. apply not_elem_of_cons in Hq as [Hne Hq].
    rewrite Hf2, Hf1; auto.
Qed.

Lemma records_result_block_of dir l : forall t ss t' evs,
  records_result dir l t = (ss, t', evs) ->
  exists blocks, evs = concat blocks /\ Forall2 (block_of dir) l blocks.
Proof.
  induction l as [|val l IH]; intros t ss t' evs Hres; cbn [records_result] in Hres.
  - injection Hres as <- <- <-. exists []. split; [done|constructor].
  - destruct (record_result dir val t) as [[s t1] ev1] eqn:Hr1.
    destruct (records_result dir l t1) as [[ss' t2] ev2] eqn:Hr2.
    injection Hres as <- <- <-.
    destruct (IH _ _ _ _ Hr2) as (blocks & -> & Hall).
    exists (ev1 :: blocks). split; [done|].
    constructor; [by eapply record_result_block_of|done].
Qed.

Lemma processor_result_events l t o t' evs :
  processor_result l t = (o, t', evs) ->
  Forall (fun e => is_doc_event e = true) evs.
Proof.
  unfold processor_result. destruct (dir_at (working_dir l) t).
  - destruct (records_result (working_dir l) (manifest l) t)
      as [[ss t1] evs1] eqn:Hres.
    intros [= <- <- <-].
    destruct (records_result_block_of _ _ _ _ _ _ Hres) as (blocks & -> & Hall).
    clear Hres.
    induction Hall as [|val b l' bs (t0 & text & Hb) _ IH]; [constructor|].
    cbn [concat]. apply Forall_app. split; [|exact IH].
    assert (Forall (fun e => is_doc_event e = true)
              (record_block (working_dir l) val
                 (serialized (working_dir l) val t0 text))) as Hblock
      by (repeat constructor).
    destruct Hb as [->|(n & _ & ->)]; [done|]. by apply Forall_take.
  - intros [= <- <- <-]. constructor.
Qed.

Lemma records_result_some_missing dir l : forall t ss t' evs k,
  records_result dir l t = (ss, t', evs) ->
  k ∈ l ->
  file_at (markdownFile dir k) t = false ->
  markdownFile dir k ∉ outputFilePath <$> l ->
  exists r,
    promise_all ss = Rejected r
    /\ ((exists k', k' ∈ l
                    /\ file_at (markdownFile dir k') t = false
                    /\ r = Message (render (markdownFile dir k') +:+ " 不存在"))
        \/ exists e, r = Thrown e).
Proof.
  induction l as [|v l IH]; intros t ss t' evs k Hres Hin Hk Hout;
    cbn [records_result] in Hres; [by apply elem_of_nil in Hin|].
  destruct (record_result dir v t) as [[s t1] ev1] eqn:Hr1.
  destruct (records_result dir l t1) as [[ss' t2] ev2] eqn:Hr2.
  injection Hres as <- <- <-.
  rewrite fmap_cons in Hout. apply not_elem_of_cons in Hout as [Hne Hout].
  pose proof (record_result_files _ _ _ _ _ _ Hr1) as Hfiles.
  destruct (record_result_status _ _ _ _ _ _ Hr1)
    as [[Hno ->]|[Hyes [(-> & _)|[e ->]]]].
  - eexists. split; [reflexivity|]. left. exists v.
    split; [left|]. done.
  - apply elem_of_cons in Hin as [->|Hin]; [congruence|].
    destruct (IH _ _ _ _ k Hr2 Hin) as (r & Hr & Hwhy).
    + destruct (Hfiles (markdownFile dir k)) as [_ Hf]. by rewrite Hf.
    + done.
    + exists r. split; [done|].
      destruct Hwhy as [(k' & Hin' & Hk' & ->)|[e ->]]; [left|right; eauto].
      exists k'. split; [by right|]. split; [|done].
      destruct (file_at (markdownFile dir k') t) eqn:Hold; [|done].
      apply Hfiles in Hold. congruence.
  - eexists. split; [reflexivity|]. right. eauto.
Qed.

(** ** Outputs that can be written *)

Lemma record_result_unblocked dir val t text :
  unblocked t (outputFilePath val) ->
  lookup_path (markdownFile dir val) t = Some (File text) ->
  exists t',
    record_result dir val t
    = (Resolved, t', record_block dir val (serialized dir val t text)).
Proof.
  intros (Hne & Hnd & Hfree) Hsrc. unfold record_result. rewrite Hsrc.
  destruct (make_dirs_succeeds (dirname (outputFilePath val)) (Some t))
    as [t1 Hmk].
  { intros q Hq. apply Hfree. by apply nested_dirname. }
  rewrite Hmk.
  assert (dir_in (outputFilePath val) (Some t1) = false) as Hnd1.
  { destruct (dir_in (outputFilePath val) (Some t1)) eqn:Hd; [|done].
    destruct (make_dirs_dirs _ _ _ _ Hmk Hd) as [Hold|Hpre].
    - unfold dir_at in Hnd. congruence.
    - by apply not_prefix_of_dirname in Hpre. }
  destruct (put_node_succeeds (outputFilePath val)
              (File (serialized dir val t text)) (Some t1) Hne)
    as [t2 Hput]; [by eapply make_dirs_target|].
  rewrite Hput. exists t2.
  unfold dir_in, lookup_opt in Hnd1. simpl in Hnd1.
  by destruct (lookup_path (outputFilePath val) t1) as [[d|es]|].
Qed.

Lemma record_result_dirs dir val t s t' evs q :
  record_result dir val t = (s, t', evs) ->
  dir_at q t' = true ->
  dir_at q t = true \/ q `prefix_of` dirname (outputFilePath val).
Proof.
  unfold record_result. intros Hres Hq.
  destruct (lookup_path (markdownFile dir val) t) as [[text|es]|];
    try (injection Hres as <- <- <-; by left).
  destruct (make_dirs (dirname (outputFilePath val)) (Some t)) as [t1|] eqn:Hmk;
    [|injection Hres as <- <- <-; by left].
  assert (dir_at q t1 = true ->
          dir_at q t = true \/ q `prefix_of` dirname (outputFilePath val))
    as Hstep by (intros Hq1; by eapply make_dirs_dirs).
  destruct (put_node (outputFilePath val) _ (Some t1)) as [t2|] eqn:Hput.
  - destruct (lookup_path (outputFilePath val) t1) as [[d|es]|];
      injection Hres as <- <- <-; auto.
    all: apply Hstep; by eapply put_file_dirs.
  - destruct (lookup_path (outputFilePath val) t1) as [[d|es]|];
      injection Hres as <- <- <-; auto.
Qed.

Lemma record_result_keeps_unblocked dir val t s t' evs out :
  record_result dir val t = (s, t', evs) ->
  unblocked t out ->
  ~ nested (outputFilePath val) out ->
  ~ nested out (outputFilePath val) ->
  unblocked t' out.
Proof.
  intros Hres (Hne & Hnd & Hfree) Hn1 Hn2. split; [done|]. split.
  - destruct (dir_at out t') eqn:Hd; [|done]. exfalso.
    destruct (record_result_dirs _ _ _ _ _ _ _ Hres Hd) as [Hold|Hpre];
      [congruence|].
    apply Hn2. destruct (decide (outputFilePath val = [])) as [Hnil|Hval].
    + rewrite Hnil in Hpre. cbn in Hpre. apply prefix_nil_inv in Hpre. done.
    + by apply nested_dirname.
  - intros q Hq.
    destruct (record_result_files _ _ _ _ _ _ Hres q) as [_ Hframe].
    rewrite Hframe; [by apply Hfree|]. by intros ->.
Qed.

Lemma records_result_fault_free dir l : forall t ss t' evs,
  records_result dir l t = (ss, t', evs) ->
  (forall v, v ∈ l -> unblocked t (outputFilePath v)) ->
  (forall v1 v2, v1 ∈ l -> v2 ∈ l ->
                 ~ nested (outputFilePath v1) (outputFilePath v2)) ->
  fault_free ss.
Proof.
  induction l as [|val l IH]; intros t ss t' evs Hres Hclear Hfree;
    cbn [records_result] in Hres.
  - injection Hres as <- <- <-. intros e He. by apply elem_of_nil in He.
  - destruct (record_result dir val t) as [[s t1] ev1] eqn:Hr1.
    destruct (records_result dir l t1) as [[ss' t2] ev2] eqn:Hr2.
    injection Hres as <- <- <-.
    assert (fault_free ss') as Hrest.
    { eapply IH; [exact Hr2| |].
      - intros v Hv.
        eapply record_result_keeps_unblocked; [exact Hr1| | |].
        + apply Hclear. by right.
        + apply Hfree; [left|by right].
        + apply Hfree; [by right|left].
      - intros v1 v2 Hv1 Hv2. apply Hfree; by right. }
    intros e He. apply elem_of_cons in He as [He|He]; [|by apply (Hrest e)].
    destruct (lookup_path (markdownFile dir val) t) as [[text|es]|] eqn:Hsrc.
    + destruct (record_result_unblocked dir val t text) as [t1' Hr];
        [apply Hclear; left|done|].
      rewrite Hr in Hr1. by injection Hr1 as <- <- <-.
    + unfold record_result in Hr1. rewrite Hsrc in Hr1.
      by injection Hr1 as <- <- <-.
    + unfold record_result in Hr1. rewrite Hsrc in Hr1.
      by injection Hr1 as <- <- <-.
Qed.

(** ** Cleanup *)

Lemma resolve_temporary base name :
  name ∈ temporary_names -> resolve base [name] = base ++ [name].
Proof.
  unfold temporary_names. rewrite !elem_of_cons, elem_of_nil.
  intros [->|[->|[->|[->|[]]]]]; reflexivity.
Qed.

Lemma clean_run w :
  clean w = (inr tt, World (cleaned (fs w)) (trace w ++ clean_events)).
Proof.
  destruct w as [t tr]. unfold clean, cleaned, clean_events, temporary_paths.
  unfold temporary_names. cbn [for_each fmap list_fmap foldl].
  unfold rimraf_sync, get_fs, set_fs, emit.
  unfold mbind, mret, X_mbind, X_mret, X_bind, X_ret. cbn [fs trace].
  by rewrite <- !app_assoc.
Qed.

Lemma removed_all_absent ps : forall t p,
  (forall q, q ∈ ps -> q <> []) -> p ∈ ps ->
  lookup_path p (foldl (fun t p => remove_path p t) t ps) = None.
Proof.
  induction ps as [|q qs IH] using rev_ind; intros t p Hne Hin;
    [by apply elem_of_nil in Hin|].
  rewrite foldl_app. cbn [foldl].
  apply elem_of_app in Hin as [Hin|Hin].
  - apply remove_path_keeps_absent. apply IH; [|done].
    intros q' Hq'. apply Hne. apply elem_of_app. by left.
  - apply list_elem_of_singleton in Hin as ->.
    apply remove_path_absent. apply Hne. apply elem_of_app. right. left.
Qed.

Lemma cleaned_absent t p :
  p ∈ temporary_paths -> lookup_path p (cleaned t) = None.
Proof.
  apply removed_all_absent. intros q Hq.
  unfold temporary_paths in Hq. apply list_elem_of_fmap in Hq as (name & -> & Hin).
  rewrite (resolve_temporary _ _ Hin). intros Heq.
  by apply app_eq_nil in Heq as [_ ?].
Qed.

Lemma on_fulfilled_run w :
  on_fulfilled w =
  (inr tt, World (cleaned (fs w))
             (trace w ++ clean_events ++ [LogInfo success_message])).
Proof.
  unfold on_fulfilled. rewrite bind_run, clean_run.
  unfold info, emit. cbn [fs trace]. by rewrite <- app_assoc.
Qed.

Lemma on_rejected_run r w :
  on_rejected r w =
  (inl (ExitProcess 1),
   World (cleaned (fs w))
     (trace w ++ [LogError r] ++ clean_events ++ [Exit 1])).
Proof.
  unfold on_rejected. rewrite bind_run. unfold error_, emit at 1.
  rewrite bind_run, clean_run. unfold process_exit. cbn [fs trace].
  by rewrite <- !app_assoc.
Qed.

Lemma removed_app evs1 evs2 : removed (evs1 ++ evs2) = removed evs1 ++ removed evs2.
Proof. apply omap_app. Qed.

Lemma removed_work evs :
  Forall (fun ev => is_work ev = true) evs -> removed evs = [].
Proof.
  induction 1 as [|ev evs Hev _ IH]; [done|].
  unfold removed in *. cbn [omap list_omap]. rewrite IH. by destruct ev.
Qed.

Lemma removed_launched l st evs : launched l st evs -> removed evs = [].
Proof. by intros [ | | ]. Qed.

Lemma removed_clean : removed clean_events = temporary_paths.
Proof. reflexivity. Qed.

(** ** Lanes and the event loop *)

Lemma doc_event_progress evs :
  Forall (fun e => is_doc_event e = true) evs ->
  Forall (fun e => is_progress e = true) evs.
Proof. intros Hall. eapply Forall_impl; [exact Hall|]. by intros [ ]. Qed.

Lemma progress_work evs :
  Forall (fun e => is_progress e = true) evs ->
  Forall (fun e => is_work e = true) evs.
Proof. intros Hall. eapply Forall_impl; [exact Hall|]. by intros [ ]. Qed.

Lemma progress_not_settle evs l o :
  Forall (fun e => is_progress e = true) evs -> Settle l o ∉ evs.
Proof.
  intros Hall Hin. rewrite Forall_forall in Hall. by apply Hall in Hin.
Qed.

Lemma step_ok_settle l o evs :
  Forall (fun e => is_progress e = true) evs ->
  step_ok l (Settled o) (evs ++ [Settle l o]).
Proof.
  intros Hevs. split.
  - apply Forall_app. split; [by apply progress_work|by repeat constructor].
  - intros l' o'. rewrite elem_of_app, list_elem_of_singleton. split.
    + intros [Hin|[= -> ->]]; [|done].
      by apply progress_not_settle in Hin.
    + intros [-> [= ->]]. by right.
Qed.

Lemma step_ok_quiet l st evs :
  Forall (fun e => is_progress e = true) evs ->
  (forall o, st <> Settled o) ->
  step_ok l st evs.
Proof.
  intros Hevs Hst. split; [by apply progress_work|].
  intros l' o. split.
  - intros Hin. by apply progress_not_settle in Hin.
  - intros [_ ->]. by destruct (Hst o).
Qed.

Lemma processor_settle_run l w :
  exists o t' docs,
    (out ← processor l; settle l out) w
    = (inr (Settled o), World t' (trace w ++ docs ++ [Settle l o]))
    /\ Forall (fun e => is_doc_event e = true) docs.
Proof.
  rewrite bind_run, processor_run.
  destruct (processor_result l (fs w)) as [[o t'] docs] eqn:Hres.
  exists o, t', docs. rewrite settle_run. cbn [fs trace].
  rewrite <- app_assoc. split; [done|]. by eapply processor_result_events.
Qed.

Lemma react_run l st evs0 w :
  launched l st evs0 ->
  exists st' t' evs,
    react l st w = (inr st', World t' (trace w ++ evs))
    /\ step_ok l st' evs
    /\ (st' = Downloading \/ exists o, st' = Settled o).
Proof.
  intros [ | d | d e ]; cbn [react].
  - exists Downloading, (fs w), []. destruct w as [t tr].
    unfold mret, X_mret, X_ret. cbn [fs trace]. rewrite app_nil_r.
    split; [reflexivity|]. split; [|by left]. by apply step_ok_quiet.
  - destruct (processor_settle_run l w) as (o & t' & docs & -> & Hdocs).
    exists (Settled o), t', (docs ++ [Settle l o]).
    split; [reflexivity|].
    split; [by apply step_ok_settle, doc_event_progress|eauto].
  - rewrite settle_run. eexists _, _, _. split; [reflexivity|].
    split; [|eauto]. by apply (step_ok_settle l _ []).
Qed.

Lemma advance_run o l st w :
  is_pending st = true ->
  exists st' t' evs,
    advance o l st w = (inr st', World t' (trace w ++ evs))
    /\ step_ok l st' evs
    /\ weight st' < weight st
    /\ (st' = Unzipping \/ exists out, st' = Settled out).
Proof.
  destruct st as [r| | |out]; try done; intros _; cbn [advance weight].
  - destruct (fetched (remote o l)) as [r|bytes].
    + rewrite settle_run. eexists _, _, _. split; [reflexivity|].
      split; [by apply (step_ok_settle l _ [])|]. split; [cbn [weight]; lia|eauto].
    + rewrite bind_run, store_promise_run.
      destruct (put_node _ _ _) as [t'|].
      * exists Unzipping, t', [Downloaded (resolve TOOLS_PATH [lane_zip l])].
        split; [reflexivity|]. split; [|split; [cbn [weight]; lia|by left]].
        apply step_ok_quiet; [by repeat constructor|done].
      * rewrite settle_run. eexists _, _, _. split; [reflexivity|].
        split; [by apply (step_ok_settle l _ [])|]. split; [cbn [weight]; lia|eauto].
  - destruct (extracted (remote o l)) as [r|tree].
    + rewrite settle_run. eexists _, _, _. split; [reflexivity|].
      split; [by apply (step_ok_settle l _ [])|]. split; [cbn [weight]; lia|eauto].
    + rewrite bind_run, store_promise_run.
      destruct (put_node _ _ _) as [t'|].
      * destruct (processor_settle_run l
                    (World t' (trace w ++ [Unzipped (working_dir l)])))
          as (out & t2 & docs & -> & Hdocs).
        cbn [trace]. exists (Settled out), t2,
          ((Unzipped (working_dir l) :: docs) ++ [Settle l out]).
        split; [by rewrite <- !app_assoc|].
        split; [|split; [cbn [weight]; lia|eauto]].
        apply step_ok_settle. constructor; [done|by apply doc_event_progress].
      * rewrite settle_run. eexists _, _, _. split; [reflexivity|].
        split; [by apply (step_ok_settle l _ [])|]. split; [cbn [weight]; lia|eauto].
Qed.

Lemma aggregate_resolved c e :
  aggregate c e = Some Resolved ->
  c = Settled Fulfilled /\ e = Settled Fulfilled.
Proof.
  destruct c as [?| | |[|??]], e as [?| | |[|??]]; simpl; try done.
Qed.

Lemma aggregate_rejected c e r :
  aggregate c e = Some (Rejected r) ->
  exists l st, st_of l c e = Settled (Failed st r).
Proof.
  destruct c as [?| | |[|sc rc]], e as [?| | |[|se re]]; simpl; try done;
    intros [= <-];
    try (by exists Core; eauto); try (by exists Extensions; eauto).
  destruct (Nat.leb (latency sc) (latency se));
    [by exists Core; eauto|by exists Extensions; eauto].
Qed.

Lemma aggregate_pending c e :
  aggregate c e = None -> ready c -> ready e ->
  is_pending c = true \/ is_pending e = true.
Proof.
  destruct c as [?| | |[|??]], e as [?| | |[|??]]; simpl; try done; auto.
Qed.

Lemma next_lane_pending choice c e :
  is_pending c = true \/ is_pending e = true ->
  is_pending (st_of (next_lane choice c e) c e) = true.
Proof.
  destruct choice; unfold next_lane;
    destruct (is_pending c) eqn:Hc, (is_pending e) eqn:He; cbn [st_of];
    intros [?|?]; congruence.
Qed.

Lemma pending_weight st : is_pending st = true -> 0 < weight st.
Proof. destruct st; simpl; try done; lia. Qed.

Lemma pending_not_settled st o : is_pending st = true -> st <> Settled o.
Proof. by destruct st. Qed.

Lemma event_loop_run o fuel : forall turn c e w work0,
  ready c -> ready e -> weight c + weight e <= fuel -> loop_inv c e work0 ->
  exists work t,
    Forall (fun ev => is_work ev = true) work
    /\ ((event_loop o fuel turn c e w
         = (inr tt, World (cleaned t)
                      (trace w ++ work ++ clean_events
                       ++ [LogInfo success_message]))
         /\ (forall l, Settle l Fulfilled ∈ work0 ++ work)
         /\ (forall l st r, Settle l (Failed st r) ∉ work0 ++ work))
        \/ (exists rsn,
              event_loop o fuel turn c e w
              = (inl (ExitProcess 1),
                 World (cleaned t)
                   (trace w ++ work ++ [LogError rsn] ++ clean_events
                    ++ [Exit 1]))
              /\ exists l st, Settle l (Failed st rsn) ∈ work0 ++ work)).
Proof.
  induction fuel as [|fuel IH]; intros turn c e w work0 Hc He Hfuel Hinv;
    unfold loop_inv in *.
  all: destruct (aggregate c e) as [[|rsn]|] eqn:Hagg.
  1,4: exists [], (fs w); (split; [constructor|]); rewrite app_nil_r;
       cbn [app]; left;
       (split; [cbn [event_loop]; rewrite Hagg; apply on_fulfilled_run|]);
       destruct (aggregate_resolved _ _ Hagg) as [-> ->];
       (split; [intros [ ]; by apply Hinv|]);
       intros l st r Hin; apply Hinv in Hin; by destruct l.
  1,3: exists [], (fs w); (split; [constructor|]); rewrite app_nil_r;
       cbn [app]; right; exists rsn;
       (split; [cbn [event_loop]; rewrite Hagg; apply on_rejected_run|]);
       destruct (aggregate_rejected _ _ _ Hagg) as (l & st & Hst);
       exists l, st; by apply Hinv.
  - exfalso. destruct (aggregate_pending _ _ Hagg Hc He) as [Hp|Hp];
      apply pending_weight in Hp; lia.
  - pose proof (next_lane_pending (sched o turn) c e
                  (aggregate_pending _ _ Hagg Hc He)) as Hp.
    cbn [event_loop]. rewrite Hagg.
    destruct (next_lane (sched o turn) c e) eqn:Hnext; cbn [st_of] in Hp.
    + destruct (advance_run o Core c w Hp)
        as (c' & t1 & evs & Hrun & [Hwork Hset] & Hlt & Hc').
      rewrite bind_run, Hrun.
      destruct (IH (S turn) c' e (World t1 (trace w ++ evs)) (work0 ++ evs))
        as (work & t & Hw & Hend).
      * destruct Hc' as [->|[out ->]]; done.
      * done.
      * lia.
      * intros l out. rewrite elem_of_app, Hinv, Hset.
        destruct l; cbn [st_of]; split.
        -- intros [Hold|[_ ?]]; [|done]. by apply pending_not_settled in Hold.
        -- auto.
        -- intros [Hold|[? _]]; done.
        -- auto.
      * exists (evs ++ work), t. split; [by apply Forall_app|].
        cbn [trace] in Hend. rewrite !(app_assoc work0 evs work).
        destruct Hend as [(-> & Hok & Hno)|(rsn & -> & Hbad)];
          [left|right; exists rsn]; rewrite <- !app_assoc;
          rewrite ?(app_assoc work0 evs work); auto.
    + destruct (advance_run o Extensions e w Hp)
        as (e' & t1 & evs & Hrun & [Hwork Hset] & Hlt & He').
      rewrite bind_run, Hrun.
      destruct (IH (S turn) c e' (World t1 (trace w ++ evs)) (work0 ++ evs))
        as (work & t & Hw & Hend).
      * done.
      * destruct He' as [->|[out ->]]; done.
      * lia.
      * intros l out. rewrite elem_of_app, Hinv, Hset.
        destruct l; cbn [st_of]; split.
        -- intros [Hold|[? _]]; done.
        -- auto.
        -- intros [Hold|[_ ?]]; [|done]. by apply pending_not_settled in Hold.
        -- auto.
      * exists (evs ++ work), t. split; [by apply Forall_app|].
        cbn [trace] in Hend. rewrite !(app_assoc work0 evs work).
        destruct Hend as [(-> & Hok & Hno)|(rsn & -> & Hbad)];
          [left|right; exists rsn]; rewrite <- !app_assoc;
          rewrite ?(app_assoc work0 evs work); auto.
Qed.

Lemma launch_run argv l w :
  (exists arg,
      flag_given (lane_flag argv l) = Some arg
      /\ dir_at (resolve cwd [arg]) (fs w) = false
      /\ launch argv l w
         = (inl (ExitProcess 1),
            World (fs w)
              (trace w
               ++ [LogError (Message (missing_message l (resolve cwd [arg])));
                   Exit 1])))
  \/ (exists st t' evs,
        launch argv l w = (inr st, World t' (trace w ++ evs))
        /\ launched l st evs
        /\ forall arg, flag_given (lane_flag argv l) = Some arg ->
                       dir_at (resolve cwd [arg]) (fs w) = true).
Proof.
  unfold launch. destruct (flag_given (lane_flag argv l)) as [arg|].
  - unfold acquire_local. cbv zeta. rewrite bind_run, isDirectory_run.
    destruct (dir_at (resolve cwd [arg]) (fs w)) eqn:Hdir; cbn [negb].
    + right. rewrite bind_run, ret_run, bind_run, info_run, bind_run.
      destruct (copy_promise_run (resolve cwd [arg]) (working_dir l)
                  (World (fs w)
                     (trace w ++ [LogInfo (load_message l (resolve cwd [arg]))])))
        as [[t' ->]| ->]; rewrite ret_run; cbn [fs trace].
      * eexists _, _, _. rewrite <- app_assoc. split; [reflexivity|].
        split; [constructor|]. by intros ? [= <-].
      * eexists _, _, _. split; [reflexivity|].
        split; [constructor|]. by intros ? [= <-].
    + left. exists arg. split; [done|]. split; [done|].
      rewrite bind_run, bind_run, error_run, exit_run. cbn [fs trace].
      by rewrite <- app_assoc.
  - right. unfold acquire_remote. rewrite bind_run, emit_run, ret_run.
    eexists _, _, _. split; [reflexivity|]. split; [constructor|done].
Qed.

Lemma main_run argv o w :
  (exists l arg pre t,
      main argv o w
      = (inl (ExitProcess 1),
         World t
           (trace w ++ pre
            ++ [LogError (Message (missing_message l (resolve cwd [arg])));
                Exit 1]))
      /\ flag_given (lane_flag argv l) = Some arg
      /\ dir_at (resolve cwd [arg]) t = false
      /\ ((l = Core /\ pre = [] /\ t = fs w)
          \/ (l = Extensions
              /\ exists c, launch argv Core w
                           = (inr c, World t (trace w ++ pre))
                           /\ launched Core c pre)))
  \/ (exists c e pre1 pre2 work t,
        launched Core c pre1 /\ launched Extensions e pre2
        /\ Forall (fun ev => is_work ev = true) work
        /\ ((main argv o w
             = (inr tt,
                World (cleaned t)
                  (trace w ++ pre1 ++ pre2
                   ++ [LogInfo start_message; Rimraf examples_path]
                   ++ work ++ clean_events ++ [LogInfo success_message]))
             /\ (forall l, Settle l Fulfilled ∈ work)
             /\ (forall l st r, Settle l (Failed st r) ∉ work))
            \/ (exists rsn,
                  main argv o w
                  = (inl (ExitProcess 1),
                     World (cleaned t)
                       (trace w ++ pre1 ++ pre2
                        ++ [LogInfo start_message; Rimraf examples_path]
                        ++ work ++ [LogError rsn] ++ clean_events
                        ++ [Exit 1]))
                  /\ exists l st, Settle l (Failed st rsn) ∈ work))).
Proof.
  unfold main. rewrite bind_run.
  destruct (launch_run argv Core w)
    as [(arg & Hflag & Hdir & ->)|(c & t1 & pre1 & Hlc & Hc & _)].
  { left. exists Core, arg, [], (fs w). cbn [app]. eauto 10. }
  rewrite Hlc, bind_run.
  destruct (launch_run argv Extensions (World t1 (trace w ++ pre1)))
    as [(arg & Hflag & Hdir & ->)|(e & t2 & pre2 & -> & He & _)].
  { left. exists Extensions, arg, pre1, t1. cbn [fs trace].
    rewrite <- app_assoc. split; [done|]. split; [done|]. split; [done|].
    right. eauto. }
  right. cbn [fs trace].
  rewrite bind_run, info_run, bind_run, rimraf_run, bind_run. cbn [fs trace].
  set (w3 := World _ _).
  destruct (react_run Core c pre1 w3 Hc) as (c' & t3 & ev1 & -> & [Hw1 Hs1] & Hc').
  rewrite bind_run.
  destruct (react_run Extensions e pre2 (World t3 (trace w3 ++ ev1)) He)
    as (e' & t4 & ev2 & -> & [Hw2 Hs2] & He').
  cbn [trace].
  destruct (event_loop_run o enough_turns 0 c' e'
              (World t4 ((trace w3 ++ ev1) ++ ev2)) (ev1 ++ ev2))
    as (work & t & Hw & Hend).
  - destruct Hc' as [->|[? ->]]; done.
  - destruct He' as [->|[? ->]]; done.
  - unfold enough_turns.
    destruct Hc' as [->|[? ->]], He' as [->|[? ->]]; cbn [weight]; lia.
  - intros l out. rewrite elem_of_app, Hs1, Hs2.
    destruct l; cbn [st_of]; split; try (intros [[? ?]|[? ?]]; done); auto.
  - exists c, e, pre1, pre2, ((ev1 ++ ev2) ++ work), t.
    split; [done|]. split; [done|].
    split; [apply Forall_app; split; [by apply Forall_app|done]|].
    subst w3. cbn [trace] in *.
    destruct Hend as [(-> & Hok & Hno)|(rsn & -> & Hbad)];
      [left|right; exists rsn]; (split; [|by auto]).
    all: f_equal; f_equal; rewrite <- !app_assoc; reflexivity.
Qed.

Lemma launched_quiet l st evs :
  launched l st evs ->
  Forall (fun ev => is_file_access ev = false /\ is_settle ev = false) evs.
Proof. intros [ | | ]; repeat constructor. Qed.

(** ** The promises of the records, one by one *)

(** The three courses of a record whose source is there, told apart on
    the disk it starts from. *)
Lemma record_result_cases dir val t text :
  lookup_path (markdownFile dir val) t = Some (File text) ->
  ((exists q, q `prefix_of` dirname (outputFilePath val) /\ file_at q t = true) ->
   record_result dir val t
   = (Rejected (Thrown (MkdirFailed (dirname (outputFilePath val)))), t,
      [ReadFile (markdownFile dir val)]))
  /\ ((forall q, q `prefix_of` dirname (outputFilePath val) -> file_at q t = false) ->
      exists t1,
        make_dirs (dirname (outputFilePath val)) (Some t) = Some t1
        /\ (dir_at (outputFilePath val) t = true ->
            record_result dir val t
            = (Rejected (Thrown (WriteFailed (outputFilePath val))), t1,
               [ReadFile (markdownFile dir val);
                Mkdirp (dirname (outputFilePath val))]))
        /\ (dir_at (outputFilePath val) t = false ->
            exists t2,
              put_node (outputFilePath val) (File (serialized dir val t text))
                (Some t1) = Some t2
              /\ record_result dir val t
                 = (Resolved, t2,
                    record_block dir val (serialized dir val t text)))).
Proof.
  intros Hsrc. unfold record_result. rewrite Hsrc. split.
  - intros (q & Hq & Hf). by rewrite (make_dirs_blocked _ _ q Hq Hf).
  - intros Hfree.
    destruct (make_dirs_succeeds (dirname (outputFilePath val)) (Some t) Hfree)
      as [t1 Hmk].
    rewrite Hmk. exists t1. split; [done|]. split.
    + intros Hd.
      assert (entry_at (outputFilePath val) t1 = IsDir) as Hd1.
      { destruct (decide (outputFilePath val `prefix_of` dirname (outputFilePath val)))
          as [Hpre|Hpre].
        - by apply (make_dirs_entry_chain _ _ _ _ Hmk).
        - unfold entry_at. rewrite (make_dirs_entry_frame _ _ _ _ Hmk Hpre).
          rewrite dir_at_entry in Hd. fold (entry_at (outputFilePath val) t).
          by destruct (entry_at (outputFilePath val) t). }
      rewrite entry_at_lookup in Hd1.
      by destruct (lookup_path (outputFilePath val) t1) as [[d|es]|].
    + intros Hnd.
      assert (outputFilePath val <> []) as Hne.
      { intros Hnil. rewrite Hnil in *. cbn in Hfree, Hnd.
        specialize (Hfree [] (prefix_nil _)). cbn in Hfree.
        unfold dir_at, dir_in, file_at, file_in in *. cbn in *.
        by destruct t. }
      assert (dir_in (outputFilePath val) (Some t1) = false) as Hnd1.
      { destruct (dir_in (outputFilePath val) (Some t1)) eqn:Hd; [|done].
        destruct (make_dirs_dirs _ _ _ _ Hmk Hd) as [Hold|Hpre].
        - unfold dir_at in Hnd. congruence.
        - by apply not_prefix_of_dirname in Hpre. }
      destruct (put_node_succeeds (outputFilePath val)
                  (File (serialized dir val t text)) (Some t1) Hne)
        as [t2 Hput]; [by eapply make_dirs_target|].
      rewrite Hput. exists t2. split; [done|].
      unfold dir_in, lookup_opt in Hnd1. simpl in Hnd1.
      by destruct (lookup_path (outputFilePath val) t1) as [[d|es]|].
Qed.

Lemma unblocked_dirname t out :
  unblocked t out ->
  (forall q, q `prefix_of` dirname out -> file_at q t = false)
  /\ dir_at out t = false.
Proof.
  intros (Hne & Hnd & Hfree). split; [|done].
  intros q Hq. apply Hfree. by apply nested_dirname.
Qed.

Lemma record_result_settled dir val t s t' evs :
  record_result dir val t = (s, t', evs) -> settled_block dir val s evs.
Proof.
  unfold record_result.
  destruct (lookup_path (markdownFile dir val) t) as [[text|es]|];
    try (intros [= <- <- <-]; by cbn).
  destruct (make_dirs _ _) as [t1|]; [|intros [= <- <- <-]; cbn; by left].
  destruct (lookup_path (outputFilePath val) t1) as [[d|es]|];
    try destruct (put_node _ _ _) as [t2|]; intros [= <- <- <-]; cbn; eauto.
Qed.

Lemma records_result_settled dir l : forall t ss t' evs,
  records_result dir l t = (ss, t', evs) ->
  exists blocks,
    evs = concat blocks /\ Forall3 (settled_block dir) l ss blocks.
Proof.
  induction l as [|val l IH]; intros t ss t' evs Hres;
    cbn [records_result] in Hres.
  - injection Hres as <- <- <-. exists []. split; [done|constructor].
  - destruct (record_result dir val t) as [[s t1] ev1] eqn:Hr1.
    destruct (records_result dir l t1) as [[ss' t2] ev2] eqn:Hr2.
    injection Hres as <- <- <-.
    destruct (IH _ _ _ _ Hr2) as (blocks & -> & Hall).
    exists (ev1 :: blocks). split; [done|].
    constructor; [by eapply record_result_settled|done].
Qed.

Lemma settled_block_written dir val s block :
  settled_block dir val s block ->
  written block = match s with Resolved => [outputFilePath val] | _ => [] end
  /\ logged block = match s with Resolved => [success_line val] | _ => [] end.
Proof.
  destruct s as [|[m|e]]; cbn [settled_block].
  - by intros (t & text & ->).
  - by intros [_ ->].
  - by intros [[_ ->]|[_ ->]].
Qed.

Lemma resolved_records_written dir l ss blocks :
  Forall3 (settled_block dir) l ss blocks ->
  written (concat blocks) = outputFilePath <$> resolved_records l ss
  /\ logged (concat blocks) = success_line <$> resolved_records l ss.
Proof.
  induction 1 as [|val s block l ss blocks Hb _ [IHw IHl]]; [done|].
  cbn [concat]. unfold written, logged in *. rewrite !omap_app.
  destruct (settled_block_written _ _ _ _ Hb) as [Hw Hl].
  unfold written, logged in Hw, Hl. rewrite Hw, Hl, IHw, IHl.
  by destruct s as [|r].
Qed.

Lemma resolved_records_all l ss :
  length ss = length l -> promise_all ss = Resolved ->
  resolved_records l ss = l.
Proof.
  revert ss. induction l as [|val l IH]; intros [|[|r] ss]; try done.
  cbn. intros [= Hlen] Hall. by rewrite IH.
Qed.

Lemma records_result_app dir l1 l2 : forall t ss t' evs,
  records_result dir (l1 ++ l2) t = (ss, t', evs) ->
  exists ss1 t1 ev1 ss2 ev2,
    records_result dir l1 t = (ss1, t1, ev1)
    /\ records_result dir l2 t1 = (ss2, t', ev2)
    /\ ss = ss1 ++ ss2 /\ evs = ev1 ++ ev2
    /\ length ss1 = length l1.
Proof.
  induction l1 as [|v l1 IH]; intros t ss t' evs Hres; cbn [app] in Hres.
  - exists [], t, [], ss, evs. done.
  - cbn [records_result] in *.
    destruct (record_result dir v t) as [[s t1] ev1] eqn:Hr1.
    destruct (records_result dir (l1 ++ l2) t1) as [[ss' t2] ev2] eqn:Hr2.
    injection Hres as <- <- <-.
    destruct (IH _ _ _ _ Hr2) as (ss1 & t1' & ev1' & ss2 & ev2' & -> & Hrest & -> & -> & Hlen).
    eexists _, _, _, _, _. split; [reflexivity|]. split; [exact Hrest|].
    split; [done|]. split; [by rewrite app_assoc|]. cbn. by rewrite Hlen.
Qed.

(** A record whose source is there at the start and whose output is
    clear is processed to its end, whatever the records before it and
    after it do. *)
Lemma records_result_processed dir l1 val l2 : forall t ss t' evs,
  records_result dir (l1 ++ val :: l2) t = (ss, t', evs) ->
  file_at (markdownFile dir val) t = true ->
  output_clear t l1 val ->
  ss !! length l1 = Some Resolved
  /\ file_at (outputFilePath val) t' = true
  /\ exists before data after,
       evs = before ++ record_block dir val data ++ after.
Proof.
  induction l1 as [|v l1 IH]; intros t ss t' evs Hres Hsrc [Hun Hnest];
    cbn [app records_result] in Hres.
  - apply file_at_lookup in Hsrc as [text Hsrc].
    destruct (record_result_unblocked dir val t text Hun Hsrc) as [t1 Hr1].
    pose proof (record_result_present dir val t text Hsrc) as Hp.
    rewrite Hr1 in Hres, Hp.
    destruct (records_result dir l2 t1) as [[ss' t2] ev2] eqn:Hr2.
    injection Hres as <- <- <-. split; [done|]. split.
    + apply (records_result_files _ _ _ _ _ _ Hr2).
      destruct Hp as [(t1' & [= <-] & Hout)|(e & ? & ? & [=] & _)].
      apply file_at_lookup. eauto.
    + exists [], (serialized dir val t text), ev2. done.
  - destruct (record_result dir v t) as [[s t1] ev1] eqn:Hr1.
    destruct (records_result dir (l1 ++ val :: l2) t1) as [[ss' t2] ev2] eqn:Hr2.
    injection Hres as <- <- <-.
    destruct (IH _ _ _ _ Hr2) as (Hres' & Hout & before & data & after & ->).
    + by apply (record_result_files _ _ _ _ _ _ Hr1).
    + split.
      * eapply record_result_keeps_unblocked; [exact Hr1|done|..];
          apply Hnest; left.
      * intros v' Hv'. apply Hnest. by right.
    + split; [done|]. split; [done|].
      exists (ev1 ++ before), data, after. by rewrite <- app_assoc.
Qed.

(** When the sources of the records of [l] are there and each output is
    clear in its turn, every record of [l] is resolved. *)
Lemma records_result_clear dir l : forall t ss t' evs,
  records_result dir l t = (ss, t', evs) ->
  (forall v, v ∈ l -> file_at (markdownFile dir v) t = true) ->
  (forall l1 v l2, l = l1 ++ v :: l2 -> output_clear t l1 v) ->
  Forall (fun s => s = Resolved) ss.
Proof.
  intros t ss t' evs Hres Hsrc Hclear.
  assert (length ss = length l) as Hlen.
  { destruct (records_result_settled _ _ _ _ _ _ Hres) as (blocks & _ & Hall).
    symmetry. by eapply Forall3_length_lm. }
  apply Forall_lookup. intros i s Hi.
  assert (i < length l) as Hlt by (rewrite <- Hlen; by eapply lookup_lt_Some).
  destruct (lookup_lt_is_Some_2 l i Hlt) as [v Hv].
  pose proof (take_drop_middle l i v Hv) as Hsplit. symmetry in Hsplit.
  rewrite Hsplit in Hres.
  destruct (records_result_processed _ _ _ _ _ _ _ _ Hres) as (Hr & _).
  - apply Hsrc. by eapply list_elem_of_lookup_2.
  - by apply (Hclear _ _ _ Hsplit).
  - rewrite length_take, Nat.min_l in Hr by lia. congruence.
Qed.

Lemma promise_all_app ss1 ss2 :
  Forall (fun s => s = Resolved) ss1 ->
  promise_all (ss1 ++ ss2) = promise_all ss2.
Proof. induction 1 as [|s ss -> _ IH]; done. Qed.

(** The first record whose source is missing decides, when every record
    before it is processed to its end. *)
Lemma records_result_first_missing_clear dir l1 k l2 t ss t' evs :
  records_result dir (l1 ++ k :: l2) t = (ss, t', evs) ->
  (forall v, v ∈ l1 -> file_at (markdownFile dir v) t = true) ->
  (forall l1' v l2', l1 = l1' ++ v :: l2' -> output_clear t l1' v) ->
  file_at (markdownFile dir k) t = false ->
  markdownFile dir k ∉ outputFilePath <$> l1 ->
  promise_all ss
  = Rejected (Message (render (markdownFile dir k) +:+ " 不存在")).
Proof.
  intros Hres Hsrc Hclear Hk Hout.
  destruct (records_result_app _ _ _ _ _ _ _ Hres)
    as (ss1 & t1 & ev1 & ss2 & ev2 & Hr1 & Hr2 & -> & -> & _).
  rewrite promise_all_app by (by eapply records_result_clear).
  cbn [records_result] in Hr2.
  rewrite record_result_missing in Hr2.
  - destruct (records_result dir l2 t1) as [[ss' t2] ev2'].
    by injection Hr2 as <- <- <-.
  - destruct (records_result_files _ _ _ _ _ _ Hr1 (markdownFile dir k))
      as [_ Hf]. by rewrite Hf.
Qed.

(** The reason of a rejected group is that of one of its records: the
    message naming its missing source, or the exception of its
    [mkdirp.sync] or [fs.writeFileSync]. *)
Lemma promise_all_reason dir l ss blocks r :
  Forall3 (settled_block dir) l ss blocks ->
  promise_all ss = Rejected r ->
  exists v, v ∈ l
    /\ (r = Message (render (markdownFile dir v) +:+ " 不存在")
        \/ r = Thrown (MkdirFailed (dirname (outputFilePath v)))
        \/ r = Thrown (WriteFailed (outputFilePath v))).
Proof.
  induction 1 as [|val s block l ss blocks Hb _ IH]; [done|].
  destruct s as [|r']; cbn [promise_all].
  - intros Hr. destruct (IH Hr) as (v & Hv & Hwhy). exists v.
    split; [by right|done].
  - intros [= ->]. exists val. split; [left|].
    destruct r as [m|e]; cbn [settled_block] in Hb.
    + destruct Hb as [-> _]. by left.
    + destruct Hb as [[-> _]|[-> _]]; auto.
Qed.

(** The disk a record starts from decides its course: nothing in the way
    of the output, a regular file on the way to its directory, or a
    directory where the output is to be. *)
Lemma output_cases t out :
  unblocked t out
  \/ (exists q, q `prefix_of` dirname out /\ file_at q t = true)
  \/ ((forall q, q `prefix_of` dirname out -> file_at q t = false)
      /\ dir_at out t = true).
Proof.
  destruct (make_dirs (dirname out) (Some t)) as [t1|] eqn:Hmk.
  - assert (forall q, q `prefix_of` dirname out -> file_at q t = false) as Hfree.
    { intros q Hq. destruct (file_at q t) eqn:Hf; [|done].
      by rewrite (make_dirs_blocked _ _ q Hq Hf) in Hmk. }
    destruct (dir_at out t) eqn:Hd; [by right; right|]. left.
    split; [|split; [done|]].
    + intros ->. specialize (Hfree [] (prefix_nil _)).
      unfold dir_at, dir_in, file_at, file_in in *. cbn in *. by destruct t.
    + intros q Hq. by apply Hfree, nested_prefix_dirname.
  - right. left. by apply make_dirs_none.
Qed.

Lemma processor_settled l w :
  dir_at (working_dir l) (fs w) = true ->
  exists ss blocks t',
    records_result (working_dir l) (manifest l) (fs w) = (ss, t', concat blocks)
    /\ record_promises l w = (inr ss, World t' (trace w ++ concat blocks))
    /\ processor l w
       = (inr (outcome_of (promise_all ss)), World t' (trace w ++ concat blocks))
    /\ Forall3 (settled_block (working_dir l)) (manifest l) ss blocks.
Proof.
  intros Hdir. rewrite processor_run, record_promises_run.
  unfold processor_result. rewrite Hdir.
  destruct (records_result (working_dir l) (manifest l) (fs w))
    as [[ss t'] evs] eqn:Hres.
  destruct (records_result_settled _ _ _ _ _ _ Hres) as (blocks & -> & Hall).
  by exists ss, blocks, t'.
Qed.

(** ** The processors and the disk *)

Lemma last_written_app p evs1 evs2 :
  last_written p (evs1 ++ evs2)
  = match last_written p evs2 with
    | Some data => Some data
    | None => last_written p evs1
    end.
Proof.
  unfold last_written. rewrite omap_app, last_app. done.
Qed.

Lemma last_written_block dir val data p :
  last_written p (record_block dir val data)
  = if decide (outputFilePath val = p) then Some data else None.
Proof.
  unfold last_written, record_block. cbn [omap list_omap].
  by destruct (decide (outputFilePath val = p)).
Qed.

Lemma make_dirs_created_or_same val t t1 q :
  make_dirs (dirname (outputFilePath val)) (Some t) = Some t1 ->
  created_or_same val t t1 q.
Proof.
  intros Hmk. unfold created_or_same, entry_at.
  destruct (decide (q `prefix_of` dirname (outputFilePath val))) as [Hpre|Hpre].
  - pose proof (make_dirs_entry_chain _ _ _ _ Hmk Hpre) as Hd. rewrite Hd.
    pose proof (make_dirs_files _ _ _ Hmk q) as Hf.
    unfold file_in, entry_in in *.
    destruct (lookup_opt q (Some t)) as [[d|es]|]; cbn [entry_of] in *.
    + by destruct (lookup_opt q (Some t1)) as [[d'|es']|].
    + by left.
    + right. done.
  - left. by apply (make_dirs_entry_frame _ _ _ _ Hmk).
Qed.

Lemma record_result_entries dir val t s t' evs :
  record_result dir val t = (s, t', evs) ->
  (s = Resolved
   /\ (exists data,
          evs = record_block dir val data
          /\ entry_at (outputFilePath val) t' = IsFile data)
   /\ entry_at (outputFilePath val) t <> IsDir
   /\ forall q, q <> outputFilePath val -> created_or_same val t t' q)
  \/ (s <> Resolved
      /\ (forall p, last_written p evs = None)
      /\ forall q, created_or_same val t t' q).
Proof.
  unfold record_result. intros Hres.
  destruct (lookup_path (markdownFile dir val) t) as [[text|es]|];
    try (injection Hres as <- <- <-; right; split; [done|];
         split; [done|]; intros q; by left).
  destruct (make_dirs (dirname (outputFilePath val)) (Some t)) as [t1|] eqn:Hmk;
    [|injection Hres as <- <- <-; right; split; [done|];
      split; [done|]; intros q; by left].
  pose proof (fun q => make_dirs_created_or_same val t t1 q Hmk) as Hstep1.
  assert (forall d, (Rejected (Thrown (WriteFailed (outputFilePath val))), t1,
             take 2 (record_block dir val d)) = (s, t', evs) ->
          s <> Resolved /\ (forall p, last_written p evs = None)
          /\ forall q, created_or_same val t t' q) as Hfail.
  { intros d [= <- <- <-]. split; [done|]. split; [|done].
    intros p. reflexivity. }
  destruct (put_node (outputFilePath val) _ (Some t1)) as [t2|] eqn:Hput.
  - assert (entry_at (outputFilePath val) t1 <> IsDir ->
            (Resolved, t2,
             record_block dir val (serialized dir val t text)) = (s, t', evs) ->
            s = Resolved
            /\ (exists data,
                   evs = record_block dir val data
                   /\ entry_at (outputFilePath val) t' = IsFile data)
            /\ entry_at (outputFilePath val) t <> IsDir
            /\ forall q, q <> outputFilePath val -> created_or_same val t t' q)
      as Hok.
    { intros Hnd [= <- <- <-]. split; [done|]. split.
      - eexists. split; [reflexivity|].
        unfold entry_at. by rewrite (put_node_entry _ _ _ _ Hput).
      - split.
        + intros Hd. apply Hnd.
          destruct (Hstep1 (outputFilePath val)) as [->|(_ & _ & ->)]; done.
        + intros q Hq. unfold created_or_same.
          pose proof (put_file_entry_frame _ _ _ _ q Hput Hnd Hq) as Hframe.
          fold (entry_at q t2) in Hframe. fold (entry_at q t1) in Hframe.
          rewrite Hframe. apply Hstep1. }
    destruct (lookup_path (outputFilePath val) t1) as [[d|es]|] eqn:Hout.
    + left. apply Hok; [|done]. unfold entry_at, entry_in, lookup_opt. simpl.
      by rewrite Hout.
    + right. by eapply Hfail.
    + left. apply Hok; [|done]. unfold entry_at, entry_in, lookup_opt. simpl.
      by rewrite Hout.
  - right. destruct (lookup_path (outputFilePath val) t1) as [[d|es]|];
      by eapply Hfail.
Qed.

Lemma record_result_footprint dir val t s t' evs q :
  record_result dir val t = (s, t', evs) ->
  (entry_at q t = IsDir -> entry_at q t' = IsDir)
  /\ (forall d, entry_at q t = IsFile d -> exists d', entry_at q t' = IsFile d')
  /\ (~ q `prefix_of` outputFilePath val -> entry_at q t' = entry_at q t).
Proof.
  intros Hres.
  assert (created_or_same val t t' q ->
          (entry_at q t = IsDir -> entry_at q t' = IsDir)
          /\ (forall d, entry_at q t = IsFile d ->
                        exists d', entry_at q t' = IsFile d')
          /\ (~ q `prefix_of` outputFilePath val ->
              entry_at q t' = entry_at q t)) as Hsame.
  { intros [Heq|(Hpre & Habs & Hdir)].
    - rewrite Heq. eauto.
    - rewrite Habs, Hdir. split; [done|]. split; [done|].
      intros Hq. destruct Hq. etrans; [exact Hpre|].
      unfold dirname. destruct (outputFilePath val) as [|x xs] using rev_ind.
      + done.
      + rewrite removelast_last. by apply prefix_app_r. }
  destruct (record_result_entries _ _ _ _ _ _ Hres)
    as [(_ & (data & _ & Hout) & Hnd & Hrest)|(_ & _ & Hrest)]; [|by apply Hsame].
  destruct (decide (q = outputFilePath val)) as [->|Hq]; [|by apply Hsame, Hrest].
  split; [done|]. split; [eauto|]. intros Hpre. by destruct Hpre.
Qed.

Lemma records_result_footprint dir l q : forall t ss t' evs,
  records_result dir l t = (ss, t', evs) ->
  (entry_at q t = IsDir -> entry_at q t' = IsDir)
  /\ (forall d, entry_at q t = IsFile d -> exists d', entry_at q t' = IsFile d')
  /\ ((forall val, val ∈ l -> ~ q `prefix_of` outputFilePath val) ->
      entry_at q t' = entry_at q t).
Proof.
  induction l as [|val l IH]; intros t ss t' evs Hres; cbn [records_result] in Hres.
  - injection Hres as <- <- <-. eauto.
  - destruct (record_result dir val t) as [[s t1] ev1] eqn:H1.
    destruct (records_result dir l t1) as [[ss' t2] ev2] eqn:H2.
    injection Hres as <- <- <-.
    destruct (record_result_footprint _ _ _ _ _ _ q H1) as (Hd1 & Hf1 & Hs1).
    destruct (IH _ _ _ _ H2) as (Hd2 & Hf2 & Hs2).
    split; [auto|]. split.
    + intros d Hd. destruct (Hf1 d Hd) as [d' Hd']. eauto.
    + intros Hq. rewrite Hs2, Hs1; [done|..].
      * apply Hq. left.
      * intros v Hv. apply Hq. by right.
Qed.

Lemma records_result_last_written dir l p : forall t ss t' evs,
  records_result dir l t = (ss, t', evs) ->
  match last_written p evs with
  | Some data => entry_at p t' = IsFile data
  | None => forall d, entry_at p t' = IsFile d <-> entry_at p t = IsFile d
  end.
Proof.
  induction l as [|val l IH]; intros t ss t' evs Hres; cbn [records_result] in Hres.
  - injection Hres as <- <- <-. done.
  - destruct (record_result dir val t) as [[s t1] ev1] eqn:H1.
    destruct (records_result dir l t1) as [[ss' t2] ev2] eqn:H2.
    injection Hres as <- <- <-.
    specialize (IH _ _ _ _ H2). rewrite last_written_app.
    destruct (last_written p ev2) as [data|]; [done|].
    assert (created_or_same val t t1 p ->
            forall d, entry_at p t1 = IsFile d <-> entry_at p t = IsFile d)
      as Hsame.
    { intros [->|(_ & Habs & Hdir)] d; [done|]. rewrite Habs, Hdir. done. }
    destruct (record_result_entries _ _ _ _ _ _ H1)
      as [(_ & (data & -> & Hout) & _ & Hrest)|(_ & Hnone & Hrest)].
    + rewrite last_written_block.
      destruct (decide (outputFilePath val = p)) as [<-|Hne].
      * apply IH. done.
      * intros d. rewrite IH. apply Hsame, Hrest. congruence.
    + rewrite Hnone. intros d. rewrite IH. by apply Hsame.
Qed.

Lemma records_result_complete dir l : forall t ss t' evs,
  records_result dir l t = (ss, t', evs) ->
  (promise_all ss = Resolved
   /\ (exists datas,
         length datas = length l
         /\ evs = concat (zip_with (record_block dir) l datas))
   /\ forall val, val ∈ l -> file_at (outputFilePath val) t' = true)
  \/ ((exists r, promise_all ss = Rejected r)
      /\ length (written evs) < length l).
Proof.
  induction l as [|val l IH]; intros t ss t' evs Hres; cbn [records_result] in Hres.
  - injection Hres as <- <- <-. left. split; [done|]. split; [by exists []|].
    intros val Hval. by apply elem_of_nil in Hval.
  - destruct (record_result dir val t) as [[s t1] ev1] eqn:H1.
    destruct (records_result dir l t1) as [[ss' t2] ev2] eqn:H2.
    injection Hres as <- <- <-.
    assert (length (written ev2) <= length l) as Hle.
    { destruct (IH _ _ _ _ H2) as [(_ & (datas & Hlen & ->) & _)|[_ Hlt]]; [|lia].
      clear -Hlen. revert datas Hlen.
      induction l as [|v l IHl]; intros [|d datas] Hlen; try done.
      cbn [zip_with concat]. unfold written in *. rewrite omap_app.
      cbn [length omap list_omap record_block app].
      apply le_n_S. apply IHl. by injection Hlen. }
    unfold written in *. rewrite omap_app, length_app.
    destruct (record_result_block_of _ _ _ _ _ _ H1) as (t0 & text & Hb).
    destruct (record_result_entries _ _ _ _ _ _ H1)
      as [(-> & (data & -> & Hout) & _)|(Hs & Hnone & _)].
    + cbn [promise_all].
      destruct (IH _ _ _ _ H2) as [(Hall & (datas & Hlen & ->) & Hfiles)|[Hrej Hlt]].
      * left. split; [done|]. split.
        -- exists (data :: datas). split; [simpl; lia|done].
        -- intros v Hv. apply elem_of_cons in Hv as [->|Hv]; [|by apply Hfiles].
           apply (records_result_files _ _ _ _ _ _ H2).
           apply file_in_entry. eauto.
      * right. split; [done|]. cbn [length omap list_omap record_block].
        simpl. lia.
    + right. split.
      * destruct s as [|r]; [done|]. cbn [promise_all]. eauto.
      * assert (omap (fun ev => match ev with
                                | WriteFile p _ => Some p
                                | _ => None
                                end) ev1 = []) as ->.
        { destruct Hb as [->|(n & Hn & ->)].
          - specialize (Hnone (outputFilePath val)).
            rewrite last_written_block in Hnone.
            by destruct (decide (outputFilePath val = outputFilePath val)).
          - destruct n as [|[|[|n]]]; [done..|lia]. }
        simpl. lia.
Qed.

Lemma records_result_all_resolved dir l : forall t ss t' evs,
  records_result dir l t = (ss, t', evs) ->
  fault_free ss ->
  (forall v, v ∈ l -> file_at (markdownFile dir v) t = true) ->
  promise_all ss = Resolved.
Proof.
  induction l as [|val l IH]; intros t ss t' evs Hres Hff Hsrc;
    cbn [records_result] in Hres.
  - by injection Hres as <- <- <-.
  - destruct (record_result dir val t) as [[s t1] ev1] eqn:H1.
    destruct (records_result dir l t1) as [[ss' t2] ev2] eqn:H2.
    injection Hres as <- <- <-.
    destruct (record_result_status _ _ _ _ _ _ H1)
      as [[Hno _]|[_ [(-> & _)|[e ->]]]].
    + rewrite Hsrc in Hno by left. done.
    + cbn [promise_all]. apply (IH _ _ _ _ H2).
      * intros e He. apply (Hff e). by right.
      * intros v Hv. apply (record_result_files _ _ _ _ _ _ H1).
        apply Hsrc. by right.
    + exfalso. apply (Hff e). left.
Qed.

Lemma processor_footprint l w q :
  (entry_at q (fs w) = IsDir -> entry_at q (fs (processor l w).2) = IsDir)
  /\ (forall d, entry_at q (fs w) = IsFile d ->
                exists d', entry_at q (fs (processor l w).2) = IsFile d')
  /\ ((forall val, val ∈ manifest l -> ~ q `prefix_of` outputFilePath val) ->
      entry_at q (fs (processor l w).2) = entry_at q (fs w)).
Proof.
  rewrite processor_run. unfold processor_result.
  destruct (dir_at (working_dir l) (fs w)); [|cbn [snd fs]; eauto].
  destruct (records_result (working_dir l) (manifest l) (fs w))
    as [[ss t'] evs] eqn:Hres.
  cbn [snd fs]. by eapply records_result_footprint.
Qed.

Lemma processor_fulfilled l w w' :
  processor l w = (inr Fulfilled, w') ->
  (exists datas,
      length datas = length (manifest l)
      /\ trace w'
         = trace w ++ concat (zip_with (record_block (working_dir l))
                                (manifest l) datas))
  /\ fs w' = fs (processor l w).2
  /\ forall val, val ∈ manifest l -> file_at (outputFilePath val) (fs w') = true.
Proof.
  rewrite processor_run. unfold processor_result.
  destruct (dir_at (working_dir l) (fs w)); [|done].
  destruct (records_result (working_dir l) (manifest l) (fs w))
    as [[ss t'] evs] eqn:Hres.
  destruct (records_result_complete _ _ _ _ _ _ Hres)
    as [(Hall & (datas & Hd & ->) & Hfiles)|[[r Hrej] _]].
  - intros [= _ <-]. cbn [fs trace snd]. split; [by exists datas|]. done.
  - rewrite Hrej. done.
Qed.

Lemma processor_returns l w :
  exists out t' docs,
    processor l w = (inr out, World t' (trace w ++ docs))
    /\ Forall (fun e => is_doc_event e = true) docs.
Proof.
  rewrite processor_run.
  destruct (processor_result l (fs w)) as [[out t'] docs] eqn:Hres.
  exists out, t', docs. split; [done|]. by eapply processor_result_events.
Qed.

Lemma processor_last_written l w p :
  exists out t' evs,
    processor l w = (inr out, World t' (trace w ++ evs))
    /\ match last_written p evs with
       | Some data => entry_at p t' = IsFile data
       | None => forall d, entry_at p t' = IsFile d <-> entry_at p (fs w) = IsFile d
       end.
Proof.
  rewrite processor_run. unfold processor_result.
  destruct (dir_at (working_dir l) (fs w)).
  - destruct (records_result (working_dir l) (manifest l) (fs w))
      as [[ss t'] evs] eqn:Hres.
    eexists _, t', evs. split; [reflexivity|].
    by eapply records_result_last_written.
  - eexists _, (fs w), []. split; [reflexivity|]. done.
Qed.

Lemma last_written_snoc p evs ev :
  (forall q data, ev <> WriteFile q data) ->
  last_written p (evs ++ [ev]) = last_written p evs.
Proof.
  intros Hev. rewrite last_written_app.
  destruct ev; try done. by destruct (Hev p0 data).
Qed.

(** ** The paths of the script *)

Lemma tools_path_app : TOOLS_PATH = BASE_URL ++ ["tools"].
Proof. reflexivity. Qed.

Lemma working_dir_app l : working_dir l = TOOLS_PATH ++ [lane_dir l].
Proof. by destruct l. Qed.

Lemma zip_path_app l :
  resolve TOOLS_PATH [lane_zip l] = TOOLS_PATH ++ [lane_zip l].
Proof. by destruct l. Qed.

Lemma examples_path_app : examples_path = BASE_URL ++ ["source"; "examples"].
Proof.
  change examples_path with ((BASE_URL ++ ["source"]) ++ ["examples"]).
  by rewrite <- app_assoc.
Qed.

Lemma working_dir_temporary l : working_dir l ∈ temporary_paths.
Proof.
  unfold temporary_paths, temporary_names. rewrite !fmap_cons.
  destruct l; rewrite !elem_of_cons; auto.
Qed.

Lemma zip_path_temporary l : resolve TOOLS_PATH [lane_zip l] ∈ temporary_paths.
Proof.
  unfold temporary_paths, temporary_names. rewrite !fmap_cons.
  destruct l; rewrite !elem_of_cons; auto.
Qed.

Lemma temporary_not_above_examples p :
  p ∈ temporary_paths -> ~ p `prefix_of` examples_path.
Proof.
  intros Hp. unfold temporary_paths in Hp.
  apply list_elem_of_fmap in Hp as (name & -> & Hin).
  rewrite (resolve_temporary _ _ Hin), tools_path_app, examples_path_app.
  rewrite <- app_assoc. intros Hpre. apply prefix_app_inv in Hpre.
  cbn in Hpre. by apply prefix_cons_inv_1 in Hpre.
Qed.

Lemma temporary_nonempty p : p ∈ temporary_paths -> p <> [].
Proof.
  intros Hp. unfold temporary_paths in Hp.
  apply list_elem_of_fmap in Hp as (name & -> & Hin).
  rewrite (resolve_temporary _ _ Hin). intros Heq.
  by apply app_eq_nil in Heq as [_ ?].
Qed.

Lemma cleaned_entry t q :
  (forall p, p ∈ temporary_paths -> ~ p `prefix_of` q) ->
  entry_at q (cleaned t) = entry_at q t.
Proof.
  intros Hq. unfold cleaned.
  pose proof temporary_nonempty as Hne.
  revert Hq Hne. generalize temporary_paths. intros ps.
  induction ps as [|p ps IH] using rev_ind; intros Hq Hne; [done|].
  rewrite foldl_app. cbn [foldl].
  rewrite remove_path_entry.
  - apply IH; intros p' Hp'; [apply Hq|apply Hne]; apply elem_of_app; by left.
  - apply Hne. apply elem_of_app. right. left.
  - apply Hq. apply elem_of_app. right. left.
Qed.

(** ** Launching a lane *)

Lemma copy_promise_cases from to w :
  new_promise (copydir_sync from to copy_filter;; mret Resolved) w =
  match lookup_path from (fs w), lookup_path to (fs w) with
  | Some (Dir es), Some (File _) =>
      (inr (Rejected (Thrown (CopyFailed from to))), w)
  | Some (Dir es), dst =>
      match put_node to (copy_into copy_filter (Dir es) dst) (Some (fs w)) with
      | Some t' => (inr Resolved, World t' (trace w ++ [CopyDir from to]))
      | None => (inr (Rejected (Thrown (CopyFailed from to))), w)
      end
  | _, _ => (inr (Rejected (Thrown (CopyFailed from to))), w)
  end.
Proof.
  unfold new_promise, copydir_sync, emit, get_fs, set_fs, throw.
  unfold mbind, mret, X_mbind, X_mret, X_bind, X_ret. cbn [fs trace].
  destruct (lookup_path from (fs w)) as [[d|es]|]; [done| |done].
  destruct (lookup_path to (fs w)) as [[d|es']|]; [done| |];
    by destruct (put_node to _ (Some (fs w))) as [t'|].
Qed.

Lemma launch_remote argv l w :
  flag_given (lane_flag argv l) = None ->
  launch argv l w
  = (inr Downloading, World (fs w) (trace w ++ [acquisition_of argv l])).
Proof.
  intros Hflag. unfold launch, acquisition_of. rewrite Hflag.
  unfold acquire_remote. by rewrite bind_run, emit_run, ret_run.
Qed.

Lemma launch_local argv l w arg :
  flag_given (lane_flag argv l) = Some arg ->
  launch argv l w =
  if dir_at (resolve cwd [arg]) (fs w)
  then
    match new_promise
            (copydir_sync (resolve cwd [arg]) (working_dir l) copy_filter;;
             mret Resolved)
            (World (fs w)
               (trace w ++ [LogInfo (load_message l (resolve cwd [arg]))]))
    with
    | (inr r, w2) => (inr (Copied r), w2)
    | (inl a, w2) => (inl a, w2)
    end
  else
    (inl (ExitProcess 1),
     World (fs w)
       (trace w ++ [LogError (Message (missing_message l (resolve cwd [arg])));
                    Exit 1])).
Proof.
  intros Hflag. unfold launch. rewrite Hflag.
  unfold acquire_local. cbv zeta. rewrite bind_run, isDirectory_run.
  destruct (dir_at (resolve cwd [arg]) (fs w)); cbn [negb].
  - rewrite bind_run, ret_run, bind_run, info_run, bind_run.
    by destruct (new_promise _ _) as [[a|r] w2].
  - rewrite bind_run, bind_run, error_run, exit_run. cbn [fs trace].
    by rewrite <- app_assoc.
Qed.

Lemma launch_ok argv l w st w' :
  launch argv l w = (inr st, w') ->
  (flag_given (lane_flag argv l) = None
   /\ st = Downloading
   /\ w' = World (fs w) (trace w ++ [acquisition_of argv l]))
  \/ (exists arg,
        flag_given (lane_flag argv l) = Some arg
        /\ dir_at (resolve cwd [arg]) (fs w) = true
        /\ ((exists es t',
                lookup_path (resolve cwd [arg]) (fs w) = Some (Dir es)
                /\ file_at (working_dir l) (fs w) = false
                /\ put_node (working_dir l)
                     (copy_into copy_filter (Dir es)
                        (lookup_path (working_dir l) (fs w)))
                     (Some (fs w)) = Some t'
                /\ st = Copied Resolved
                /\ w' = World t'
                          (trace w
                           ++ [LogInfo (load_message l (resolve cwd [arg]));
                               acquisition_of argv l]))
            \/ (st = Copied (Rejected (Thrown (CopyFailed (resolve cwd [arg])
                                                 (working_dir l))))
                /\ w' = World (fs w)
                          (trace w
                           ++ [LogInfo (load_message l (resolve cwd [arg]))])))).
Proof.
  destruct (flag_given (lane_flag argv l)) as [arg|] eqn:Hflag.
  - rewrite (launch_local _ _ _ _ Hflag).
    destruct (dir_at (resolve cwd [arg]) (fs w)) eqn:Hdir; [|done].
    rewrite copy_promise_cases. cbn [fs trace].
    intros Hrun. right. exists arg. split; [done|]. split; [done|].
    unfold acquisition_of. rewrite Hflag.
    rewrite file_at_entry, entry_at_lookup.
    destruct (lookup_path (resolve cwd [arg]) (fs w)) as [[d|es]|];
      [injection Hrun as <- <-; by right| |injection Hrun as <- <-; by right].
    destruct (lookup_path (working_dir l) (fs w)) as [[d|es']|] eqn:Hto;
      [injection Hrun as <- <-; by right|..];
      destruct (put_node _ _ _) as [t'|] eqn:Hput;
      injection Hrun as <- <-; [left|by right|left|by right];
      exists es, t'; rewrite <- app_assoc; done.
  - rewrite (launch_remote _ _ _ Hflag). intros [= <- <-]. by left.
Qed.

Lemma launch_stop argv l w a w' :
  launch argv l w = (inl a, w') ->
  exists arg,
    flag_given (lane_flag argv l) = Some arg
    /\ dir_at (resolve cwd [arg]) (fs w) = false
    /\ a = ExitProcess 1
    /\ w' = World (fs w)
              (trace w
               ++ [LogError (Message (missing_message l (resolve cwd [arg])));
                   Exit 1]).
Proof.
  destruct (flag_given (lane_flag argv l)) as [arg|] eqn:Hflag.
  - rewrite (launch_local _ _ _ _ Hflag).
    destruct (dir_at (resolve cwd [arg]) (fs w)) eqn:Hdir.
    + rewrite copy_promise_cases. cbn [fs trace].
      destruct (lookup_path (resolve cwd [arg]) (fs w)) as [[d|es]|];
        cbv beta iota; [done| |done].
      destruct (lookup_path (working_dir l) (fs w)) as [[d|es']|];
        cbv beta iota; [done|..];
        by destruct (put_node _ _ _).
    + intros [= <- <-]. by exists arg.
  - by rewrite (launch_remote _ _ _ Hflag).
Qed.

Lemma launch_state argv l w st w' :
  launch argv l w = (inr st, w') ->
  (exists r, st = Copied r) \/ st = Downloading.
Proof.
  intros Hrun.
  destruct (launch_ok _ _ _ _ _ Hrun)
    as [(_ & -> & _)|(arg & _ & _ & [(es & t' & _ & _ & _ & -> & _)|[-> _]])];
    eauto.
Qed.

Lemma launch_local_state argv l w arg st w' :
  flag_given (lane_flag argv l) = Some arg ->
  launch argv l w = (inr st, w') -> exists r, st = Copied r.
Proof.
  intros Hflag Hrun.
  destruct (launch_ok _ _ _ _ _ Hrun)
    as [(Hnone & _)|(arg' & _ & _ & [(es & t' & _ & _ & _ & -> & _)|[-> _]])];
    [congruence|eauto..].
Qed.

Lemma launch_frame argv l w st w' q :
  launch argv l w = (inr st, w') ->
  ~ working_dir l `prefix_of` q ->
  entry_at q (fs w') = entry_at q (fs w).
Proof.
  intros Hrun Hq.
  destruct (launch_ok _ _ _ _ _ Hrun)
    as [(_ & _ & ->)
       |(arg & _ & _ & [(es & t' & _ & _ & Hput & _ & ->)|[_ ->]])];
    cbn [fs]; [done| |done].
  by apply (put_node_frame _ _ _ _ _ Hput).
Qed.

Lemma launch_writes_nothing argv l w st w' q :
  launch argv l w = (inr st, w') ->
  last_written q (trace w') = last_written q (trace w).
Proof.
  intros Hrun.
  destruct (launch_ok _ _ _ _ _ Hrun)
    as [(_ & _ & ->)
       |(arg & _ & _ & [(es & t' & _ & _ & _ & _ & ->)|[_ ->]])];
    cbn [trace]; rewrite last_written_app; unfold acquisition_of;
    try destruct (flag_given _); done.
Qed.

(** ** Steps of a lane *)

Lemma react_step l st w :
  (exists r, st = Copied r) \/ st = Downloading ->
  exists st' w',
    react l st w = (inr st', w')
    /\ lane_step l w st st' w'
    /\ ready st' /\ weight st' <= 2.
Proof.
  intros [[[|r] ->]| ->]; cbn [react].
  - destruct (processor_returns l w) as (out & t' & docs & Hrun & _).
    rewrite bind_run, Hrun, settle_run. eexists _, _.
    split; [reflexivity|]. split; [|split; [done|cbn [weight]; lia]].
    by apply (step_copied l w out _ Hrun).
  - rewrite settle_run. eexists _, _. split; [reflexivity|].
    split; [constructor|]. split; [done|cbn [weight]; lia].
  - exists Downloading, w. split; [reflexivity|].
    split; [constructor|]. split; [done|cbn [weight]; lia].
Qed.

Lemma advance_step o l st w :
  is_pending st = true ->
  exists st' w',
    advance o l st w = (inr st', w')
    /\ lane_step l w st st' w'
    /\ ready st' /\ weight st' < weight st.
Proof.
  destruct st as [r| | |out]; try done; intros _; cbn [advance weight].
  - destruct (fetched (remote o l)) as [r|bytes].
    + rewrite settle_run. eexists _, _. split; [reflexivity|].
      split; [by constructor|]. split; [done|cbn [weight]; lia].
    + rewrite bind_run, store_promise_run.
      destruct (put_node _ _ _) as [t'|] eqn:Hput.
      * eexists _, _. split; [reflexivity|].
        split; [by econstructor|]. split; [done|cbn [weight]; lia].
      * rewrite settle_run. eexists _, _. split; [reflexivity|].
        split; [by constructor|]. split; [done|cbn [weight]; lia].
  - destruct (extracted (remote o l)) as [r|tree].
    + rewrite settle_run. eexists _, _. split; [reflexivity|].
      split; [by constructor|]. split; [done|cbn [weight]; lia].
    + rewrite bind_run, store_promise_run.
      destruct (put_node _ _ _) as [t'|] eqn:Hput.
      * destruct (processor_returns l
                    (World t' (trace w ++ [Unzipped (working_dir l)])))
          as (out & t2 & docs & Hrun & _).
        rewrite bind_run, Hrun, settle_run. eexists _, _.
        split; [reflexivity|]. split; [|split; [done|cbn [weight]; lia]].
        by apply (step_unzipped l w tree t' out _ Hput Hrun).
      * rewrite settle_run. eexists _, _. split; [reflexivity|].
        split; [by constructor|]. split; [done|cbn [weight]; lia].
Qed.

Lemma lane_step_trace l w st st' w' :
  lane_step l w st st' w' ->
  exists evs,
    trace w' = trace w ++ evs
    /\ Forall (fun ev => is_work ev = true) evs.
Proof.
  intros [st0|r|st0 r Hp|bytes t' Hput|out w1 Hrun|tree t' out w1 Hput Hrun].
  - exists []. by rewrite app_nil_r.
  - eexists. split; [reflexivity|]. by repeat constructor.
  - eexists. split; [reflexivity|]. by repeat constructor.
  - eexists. split; [reflexivity|]. by repeat constructor.
  - destruct (processor_returns l w) as (out' & t' & docs & Hrun' & Hdocs).
    rewrite Hrun' in Hrun. injection Hrun as <- <-. cbn [trace].
    exists (docs ++ [Settle l out']). rewrite app_assoc. split; [done|].
    apply Forall_app. split; [|by repeat constructor].
    by apply progress_work, doc_event_progress.
  - destruct (processor_returns l (World t' (trace w ++ [Unzipped (working_dir l)])))
      as (out' & t2 & docs & Hrun' & Hdocs).
    rewrite Hrun' in Hrun. injection Hrun as <- <-. cbn [trace].
    exists (Unzipped (working_dir l) :: docs ++ [Settle l out']).
    split; [by rewrite <- !app_assoc|].
    constructor; [done|]. apply Forall_app. split; [|by repeat constructor].
    by apply progress_work, doc_event_progress.
Qed.

Lemma lane_step_unfailed l w st st' w' :
  lane_step l w st st' w' -> is_failed st' = false -> is_failed st = false.
Proof. by intros [ | | | | | ]. Qed.

Lemma lane_step_settled l w st st' w' o :
  lane_step l w st st' w' -> st = Settled o -> st' = st /\ w' = w.
Proof. by intros [ | | | | | ]; try done; intros ->. Qed.

Lemma lane_step_frame l w st st' w' q :
  lane_step l w st st' w' ->
  (forall p, p ∈ temporary_paths -> ~ p `prefix_of` q) ->
  (forall val, val ∈ manifest l -> ~ q `prefix_of` outputFilePath val) ->
  entry_at q (fs w') = entry_at q (fs w).
Proof.
  intros Hstep Htmp Hout.
  destruct Hstep as [st0|r|st0 r Hp|bytes t' Hput|out w1 Hrun|tree t' out w1 Hput Hrun];
    cbn [fs]; try done.
  - apply (put_node_entry_frame _ _ _ _ q Hput).
    apply Htmp, zip_path_temporary.
  - destruct (processor_footprint l w q) as (_ & _ & Hsame).
    rewrite Hrun in Hsame. by apply Hsame.
  - destruct (processor_footprint l
                (World t' (trace w ++ [Unzipped (working_dir l)])) q)
      as (_ & _ & Hsame).
    rewrite Hrun in Hsame. cbn [snd fs] in Hsame. rewrite Hsame by done.
    apply (put_node_entry_frame _ _ _ _ q Hput).
    apply Htmp, working_dir_temporary.
Qed.

Lemma lane_step_last_written l w st st' w' q data :
  lane_step l w st st' w' ->
  (forall p, p ∈ temporary_paths -> ~ p `prefix_of` q) ->
  (forall d, last_written q (trace w) = Some d -> entry_at q (fs w) = IsFile d) ->
  last_written q (trace w') = Some data ->
  entry_at q (fs w') = IsFile data.
Proof.
  intros Hstep Hq Hold.
  assert (forall w0 out w1,
            (forall d, last_written q (trace w0) = Some d ->
                       entry_at q (fs w0) = IsFile d) ->
            processor l w0 = (inr out, w1) ->
            last_written q (trace w1 ++ [Settle l out]) = Some data ->
            entry_at q (fs w1) = IsFile data) as Hproc.
  { intros w0 out w1 Hold0 Hrun.
    destruct (processor_last_written l w0 q) as (out' & t' & evs & Hrun' & Hlast).
    rewrite Hrun' in Hrun. injection Hrun as <- <-. cbn [fs trace].
    rewrite last_written_snoc by done. rewrite last_written_app.
    destruct (last_written q evs) as [d|]; [by intros [= <-]|].
    intros Hw0. apply Hlast. by apply Hold0. }
  destruct Hstep as [st0|r|st0 r Hp|bytes t' Hput|out w1 Hrun
                    |tree t' out w1 Hput Hrun]; cbn [fs trace].
  - apply Hold.
  - rewrite last_written_snoc by done. apply Hold.
  - rewrite last_written_snoc by done. apply Hold.
  - rewrite last_written_snoc by done. intros Hw.
    rewrite (put_node_frame _ _ _ _ q Hput); [by apply Hold|].
    apply Hq, zip_path_temporary.
  - by apply (Hproc w).
  - apply (Hproc (World t' (trace w ++ [Unzipped (working_dir l)]))); [|done].
    cbn [fs trace]. intros d. rewrite last_written_snoc by done. intros Hw.
    rewrite (put_node_frame _ _ _ _ q Hput); [by apply Hold|].
    apply Hq, working_dir_temporary.
Qed.

Lemma processed_in_app l evs more :
  processed_in l evs -> processed_in l (evs ++ more).
Proof.
  intros (datas & before & after & Hlen & ->).
  exists datas, before, (after ++ more). split; [done|].
  by rewrite <- !app_assoc.
Qed.

Lemma lane_step_processed l w st st' w' :
  lane_step l w st st' w' -> st' = Settled Fulfilled ->
  st = Settled Fulfilled \/ processed_in l (trace w').
Proof.
  intros [st0|r|st0 r Hp|bytes t' Hput|out w1 Hrun|tree t' out w1 Hput Hrun];
    try done; [by left|..]; intros [= ->]; right.
  - destruct (processor_fulfilled _ _ _ Hrun) as ((datas & Hlen & ->) & _).
    exists datas, (trace w), []. cbn [trace]. split; [done|].
    by rewrite <- !app_assoc.
  - destruct (processor_fulfilled _ _ _ Hrun) as ((datas & Hlen & ->) & _).
    exists datas, (trace w ++ [Unzipped (working_dir l)]), [].
    cbn [trace]. split; [done|]. by rewrite <- !app_assoc.
Qed.

Lemma react_copied l r w :
  exists out w',
    react l (Copied r) w = (inr (Settled out), w')
    /\ Settle l out ∈ trace w'
    /\ exists evs, trace w' = trace w ++ evs.
Proof.
  destruct r as [|r]; cbn [react].
  - destruct (processor_returns l w) as (out & t' & docs & Hrun & _).
    rewrite bind_run, Hrun, settle_run. cbn [fs trace].
    eexists _, _. split; [reflexivity|]. cbn [trace]. split.
    + apply elem_of_app. right. left.
    + exists (docs ++ [Settle l out]). by rewrite app_assoc.
  - rewrite settle_run. eexists _, _. split; [reflexivity|]. cbn [trace].
    split; [apply elem_of_app; right; left|by eexists].
Qed.

Lemma aggregate_acquire_failed r e :
  aggregate (Settled (Failed AcquireStage r)) e = Some (Rejected r).
Proof. by destruct e as [?| | |[|[ | | ] ?]]. Qed.

Lemma event_loop_settled o fuel turn oc oe w :
  event_loop o fuel turn (Settled oc) (Settled oe) w
  = match aggregate (Settled oc) (Settled oe) with
    | Some Resolved => on_fulfilled w
    | Some (Rejected r) => on_rejected r w
    | None => (inr tt, w)
    end
  /\ aggregate (Settled oc) (Settled oe) <> None.
Proof.
  split; [|by destruct oc, oe].
  destruct fuel; cbn [event_loop]; by destruct oc as [|??], oe as [|??].
Qed.

(** ** Invariants of a run

    A property of the two lane states and of the world that every step of
    a lane keeps, and that holds once both lanes are launched and the
    examples directory is removed, holds when the aggregate's reaction
    runs. *)

Section Invariant.

Variable J : lane_state -> lane_state -> world -> Prop.

Hypothesis J_step : forall l c e w st' w',
  J c e w -> lane_step l w (st_of l c e) st' w' ->
  J (put_st l st' c e).1 (put_st l st' c e).2 w'.

Lemma event_loop_ends o fuel : forall turn c e w,
  ready c -> ready e -> weight c + weight e <= fuel -> J c e w ->
  exists c' e' w',
    J c' e' w' /\ ready c' /\ ready e'
    /\ ((aggregate c' e' = Some Resolved
         /\ event_loop o fuel turn c e w = on_fulfilled w')
        \/ exists r, aggregate c' e' = Some (Rejected r)
                     /\ event_loop o fuel turn c e w = on_rejected r w').
Proof.
  induction fuel as [|fuel IH]; intros turn c e w Hc He Hfuel HJ.
  all: destruct (aggregate c e) as [[|rsn]|] eqn:Hagg.
  1,4: exists c, e, w; split; [done|]; split; [done|]; split; [done|];
       left; split; [done|]; cbn [event_loop]; by rewrite Hagg.
  1,3: exists c, e, w; split; [done|]; split; [done|]; split; [done|];
       right; exists rsn; split; [done|]; cbn [event_loop]; by rewrite Hagg.
  - exfalso. destruct (aggregate_pending _ _ Hagg Hc He) as [Hp|Hp];
      apply pending_weight in Hp; lia.
  - pose proof (next_lane_pending (sched o turn) c e
                  (aggregate_pending _ _ Hagg Hc He)) as Hp.
    cbn [event_loop]. rewrite Hagg.
    destruct (next_lane (sched o turn) c e) eqn:Hnext; cbn [st_of] in Hp.
    + destruct (advance_step o Core c w Hp) as (c' & w' & Hrun & Hstep & Hc' & Hlt).
      rewrite bind_run, Hrun.
      apply (IH (S turn) c' e w'); [done|done|lia|].
      exact (J_step Core c e w c' w' HJ Hstep).
    + destruct (advance_step o Extensions e w Hp)
        as (e' & w' & Hrun & Hstep & He' & Hlt).
      rewrite bind_run, Hrun.
      apply (IH (S turn) c e' w'); [done|done|lia|].
      exact (J_step Extensions c e w e' w' HJ Hstep).
Qed.

Lemma main_ends argv o w :
  (forall c e w1 w2,
      launch argv Core w = (inr c, w1) ->
      launch argv Extensions w1 = (inr e, w2) ->
      J c e (World (remove_path examples_path (fs w2))
               (trace w2 ++ [LogInfo start_message; Rimraf examples_path]))) ->
  (exists a w1, launch argv Core w = (inl a, w1) /\ main argv o w = (inl a, w1))
  \/ (exists c w1 a w2,
        launch argv Core w = (inr c, w1)
        /\ launch argv Extensions w1 = (inl a, w2)
        /\ main argv o w = (inl a, w2))
  \/ (exists c' e' w',
        J c' e' w' /\ ready c' /\ ready e'
        /\ ((aggregate c' e' = Some Resolved /\ main argv o w = on_fulfilled w')
            \/ exists r, aggregate c' e' = Some (Rejected r)
                         /\ main argv o w = on_rejected r w')).
Proof.
  intros Hinit. unfold main. rewrite bind_run.
  destruct (launch argv Core w) as [[a|c] w1] eqn:Hc; [left; eauto|].
  rewrite bind_run.
  destruct (launch argv Extensions w1) as [[a|e] w2] eqn:He;
    [right; left; eauto 10|].
  right. right.
  rewrite bind_run, info_run, bind_run, rimraf_run, bind_run. cbn [fs trace].
  rewrite <- app_assoc. cbn [app].
  specialize (Hinit c e w1 w2 eq_refl He).
  set (w3 := World _ _) in *.
  destruct (react_step Core c w3 (launch_state _ _ _ _ _ Hc))
    as (c' & w4 & -> & Hstep1 & Hc' & Hwc).
  pose proof (J_step Core c e w3 c' w4 Hinit Hstep1) as HJ1. cbn in HJ1.
  rewrite bind_run.
  destruct (react_step Extensions e w4 (launch_state _ _ _ _ _ He))
    as (e' & w5 & -> & Hstep2 & He' & Hwe).
  pose proof (J_step Extensions c' e w4 e' w5 HJ1 Hstep2) as HJ2. cbn in HJ2.
  apply event_loop_ends; [done|done|unfold enough_turns; lia|done].
Qed.

End Invariant.

(** ** What the events of a run show *)

Lemma errors_app evs1 evs2 : errors (evs1 ++ evs2) = errors evs1 ++ errors evs2.
Proof. apply omap_app. Qed.

Lemma exits_app evs1 evs2 : exits (evs1 ++ evs2) = exits evs1 ++ exits evs2.
Proof. apply omap_app. Qed.

Lemma acquired_app evs1 evs2 :
  acquired (evs1 ++ evs2) = acquired evs1 ++ acquired evs2.
Proof. apply omap_app. Qed.

Lemma work_quiet evs :
  Forall (fun ev => is_work ev = true) evs ->
  errors evs = [] /\ exits evs = [] /\ acquired evs = [].
Proof.
  induction 1 as [|ev evs Hev _ (IH1 & IH2 & IH3)]; [done|].
  unfold errors, exits, acquired in *. cbn [omap list_omap].
  rewrite IH1, IH2, IH3. by destruct ev.
Qed.

Lemma launched_silent l st evs :
  launched l st evs -> errors evs = [] /\ exits evs = [].
Proof. by intros [ | | ]. Qed.

Lemma clean_events_silent :
  errors clean_events = [] /\ exits clean_events = []
  /\ acquired clean_events = [].
Proof. done. Qed.

Lemma lane_step_quiet l w st st' w' :
  lane_step l w st st' w' ->
  errors (trace w') = errors (trace w)
  /\ acquired (trace w') = acquired (trace w).
Proof.
  intros Hstep. destruct (lane_step_trace _ _ _ _ _ Hstep) as (evs & -> & Hevs).
  destruct (work_quiet _ Hevs) as (He & _ & Ha).
  by rewrite errors_app, acquired_app, He, Ha, !app_nil_r.
Qed.

Lemma acquisition_is_acquisition argv l :
  is_acquisition (acquisition_of argv l) = true.
Proof. unfold acquisition_of. by destruct (flag_given (lane_flag argv l)). Qed.

Lemma launch_acquired argv l w st w' :
  launch argv l w = (inr st, w') ->
  exists pre,
    trace w' = trace w ++ pre
    /\ acquired pre
       = (if is_failed st then [] else [acquisition_of argv l]).
Proof.
  intros Hrun. pose proof (acquisition_is_acquisition argv l) as Hacq.
  destruct (launch_ok _ _ _ _ _ Hrun)
    as [(_ & -> & ->)
       |(arg & _ & _ & [(es & t' & _ & _ & _ & -> & ->)|[-> ->]])];
    cbn [trace is_failed]; eexists; (split; [reflexivity|]);
    unfold acquired; cbn [omap list_omap is_acquisition]; by rewrite ?Hacq.
Qed.

Lemma launch_errors argv l w st w' :
  launch argv l w = (inr st, w') -> errors (trace w') = errors (trace w).
Proof.
  intros Hrun.
  destruct (launch_ok _ _ _ _ _ Hrun)
    as [(_ & _ & ->)
       |(arg & _ & _ & [(es & t' & _ & _ & _ & _ & ->)|[_ ->]])];
    cbn [trace]; rewrite errors_app; unfold acquisition_of;
    try destruct (flag_given _); cbn; by rewrite app_nil_r.
Qed.

(** ** The files a step leaves alone *)

Lemma react_lane_step l st w st' w' :
  react l st w = (inr st', w') -> lane_step l w st st' w'.
Proof.
  intros Hrun. destruct st as [r| | |out].
  - destruct (react_step l (Copied r) w) as (st2 & w2 & Hrun2 & Hstep & _);
      [left; by eexists|].
    rewrite Hrun in Hrun2. by injection Hrun2 as <- <-.
  - injection Hrun as <- <-. constructor.
  - injection Hrun as <- <-. constructor.
  - injection Hrun as <- <-. constructor.
Qed.

Lemma advance_lane_step o l st w st' w' :
  advance o l st w = (inr st', w') -> lane_step l w st st' w'.
Proof.
  intros Hrun. destruct (is_pending st) eqn:Hp.
  - destruct (advance_step o l st w Hp) as (st2 & w2 & Hrun2 & Hstep & _).
    rewrite Hrun in Hrun2. by injection Hrun2 as <- <-.
  - destruct st as [r| | |out]; try done; injection Hrun as <- <-; constructor.
Qed.

Lemma processor_files l w q :
  q ∉ outputFilePath <$> manifest l ->
  file_at q (fs (processor l w).2) = file_at q (fs w).
Proof.
  intros Hq. rewrite processor_run. unfold processor_result.
  destruct (dir_at (working_dir l) (fs w)); [|done].
  destruct (records_result (working_dir l) (manifest l) (fs w))
    as [[ss t'] evs] eqn:Hres.
  cbn [snd fs]. by apply (records_result_files _ _ _ _ _ _ Hres).
Qed.

(** A step of a lane leaves the regular files alone, those at or below
    its archive and its working directory and at its output paths
    apart. *)
Lemma lane_step_files l w st st' w' q :
  lane_step l w st st' w' ->
  ~ resolve TOOLS_PATH [lane_zip l] `prefix_of` q ->
  ~ working_dir l `prefix_of` q ->
  q ∉ outputFilePath <$> manifest l ->
  file_at q (fs w') = file_at q (fs w).
Proof.
  intros Hstep Hzip Hdir Hout.
  destruct Hstep as [st0|r|st0 r Hp|bytes t' Hput|out w1 Hrun
                    |tree t' out w1 Hput Hrun]; cbn [fs]; try done.
  - by rewrite !file_at_entry, (put_node_frame _ _ _ _ q Hput).
  - pose proof (processor_files l w q Hout) as Hsame. by rewrite Hrun in Hsame.
  - pose proof (processor_files l
                  (World t' (trace w ++ [Unzipped (working_dir l)])) q Hout)
      as Hsame.
    rewrite Hrun in Hsame. cbn [snd fs] in Hsame. rewrite Hsame.
    by rewrite !file_at_entry, (put_node_frame _ _ _ _ q Hput).
Qed.

(** A group with a record whose source is missing is rejected. *)
Lemma processor_rejects_missing l w k :
  k ∈ manifest l ->
  file_at (markdownFile (working_dir l) k) (fs w) = false ->
  markdownFile (working_dir l) k ∉ outputFilePath <$> manifest l ->
  exists st r w', processor l w = (inr (Failed st r), w').
Proof.
  intros Hin Hk Hout. rewrite processor_run. unfold processor_result.
  destruct (dir_at (working_dir l) (fs w)); [|by eexists _, _, _].
  destruct (records_result (working_dir l) (manifest l) (fs w))
    as [[ss t'] evs] eqn:Hres.
  destruct (records_result_some_missing _ _ _ _ _ _ _ Hres Hin Hk Hout)
    as (r & -> & _).
  by eexists _, _, _.
Qed.

Lemma zip_not_above_working l l' rel :
  ~ resolve TOOLS_PATH [lane_zip l'] `prefix_of` working_dir l ++ rel.
Proof.
  rewrite zip_path_app, working_dir_app, <- app_assoc. intros Hpre.
  apply prefix_app_inv in Hpre. cbn [app] in Hpre.
  apply prefix_cons_inv_1 in Hpre. by destruct l, l'.
Qed.

Lemma other_working_not_above l l' rel :
  l' <> l -> ~ working_dir l' `prefix_of` working_dir l ++ rel.
Proof.
  rewrite !working_dir_app, <- app_assoc. intros Hne Hpre.
  apply prefix_app_inv in Hpre. cbn [app] in Hpre.
  apply prefix_cons_inv_1 in Hpre. by destruct l, l'.
Qed.

Lemma examples_not_above_working l rel :
  ~ examples_path `prefix_of` working_dir l ++ rel.
Proof.
  rewrite examples_path_app, working_dir_app, tools_path_app, <- !app_assoc.
  intros Hpre. apply prefix_app_inv in Hpre. cbn [app] in Hpre.
  by apply prefix_cons_inv_1 in Hpre.
Qed.

Lemma other_lane_files l l' w st st' w' rel :
  l' <> l ->
  lane_step l' w st st' w' ->
  working_dir l ++ rel ∉ outputFilePath <$> manifest l' ->
  file_at (working_dir l ++ rel) (fs w') = file_at (working_dir l ++ rel) (fs w).
Proof.
  intros Hne Hstep Hout.
  apply (lane_step_files _ _ _ _ _ _ Hstep); [|by apply other_working_not_above|done].
  apply zip_not_above_working.
Qed.

(** ** Invariants of a run, by the reactions themselves

    The same as above, for a property whose preservation depends on what
    the oracle answers. *)

Section InvariantBy.

Variable o : Oracle.
Variable J : lane_state -> lane_state -> world -> Prop.

Hypothesis J_react : forall l c e w st' w',
  J c e w -> react l (st_of l c e) w = (inr st', w') ->
  J (put_st l st' c e).1 (put_st l st' c e).2 w'.

Hypothesis J_advance : forall l c e w st' w',
  J c e w -> advance o l (st_of l c e) w = (inr st', w') ->
  J (put_st l st' c e).1 (put_st l st' c e).2 w'.

Lemma event_loop_ends_by fuel : forall turn c e w,
  ready c -> ready e -> weight c + weight e <= fuel -> J c e w ->
  exists c' e' w',
    J c' e' w' /\ ready c' /\ ready e'
    /\ ((aggregate c' e' = Some Resolved
         /\ event_loop o fuel turn c e w = on_fulfilled w')
        \/ exists r, aggregate c' e' = Some (Rejected r)
                     /\ event_loop o fuel turn c e w = on_rejected r w').
Proof.
  induction fuel as [|fuel IH]; intros turn c e w Hc He Hfuel HJ.
  all: destruct (aggregate c e) as [[|rsn]|] eqn:Hagg.
  1,4: exists c, e, w; split; [done|]; split; [done|]; split; [done|];
       left; split; [done|]; cbn [event_loop]; by rewrite Hagg.
  1,3: exists c, e, w; split; [done|]; split; [done|]; split; [done|];
       right; exists rsn; split; [done|]; cbn [event_loop]; by rewrite Hagg.
  - exfalso. destruct (aggregate_pending _ _ Hagg Hc He) as [Hp|Hp];
      apply pending_weight in Hp; lia.
  - pose proof (next_lane_pending (sched o turn) c e
                  (aggregate_pending _ _ Hagg Hc He)) as Hp.
    cbn [event_loop]. rewrite Hagg.
    destruct (next_lane (sched o turn) c e) eqn:Hnext; cbn [st_of] in Hp.
    + destruct (advance_step o Core c w Hp) as (c' & w' & Hrun & Hstep & Hc' & Hlt).
      rewrite bind_run, Hrun.
      apply (IH (S turn) c' e w'); [done|done|lia|].
      exact (J_advance Core c e w c' w' HJ Hrun).
    + destruct (advance_step o Extensions e w Hp)
        as (e' & w' & Hrun & Hstep & He' & Hlt).
      rewrite bind_run, Hrun.
      apply (IH (S turn) c e' w'); [done|done|lia|].
      exact (J_advance Extensions c e w e' w' HJ Hrun).
Qed.

Lemma main_ends_by argv w :
  (forall c e w1 w2,
      launch argv Core w = (inr c, w1) ->
      launch argv Extensions w1 = (inr e, w2) ->
      J c e (World (remove_path examples_path (fs w2))
               (trace w2 ++ [LogInfo start_message; Rimraf examples_path]))) ->
  (exists a w1, launch argv Core w = (inl a, w1) /\ main argv o w = (inl a, w1))
  \/ (exists c w1 a w2,
        launch argv Core w = (inr c, w1)
        /\ launch argv Extensions w1 = (inl a, w2)
        /\ main argv o w = (inl a, w2))
  \/ (exists c' e' w',
        J c' e' w' /\ ready c' /\ ready e'
        /\ ((aggregate c' e' = Some Resolved /\ main argv o w = on_fulfilled w')
            \/ exists r, aggregate c' e' = Some (Rejected r)
                         /\ main argv o w = on_rejected r w')).
Proof.
  intros Hinit. unfold main. rewrite bind_run.
  destruct (launch argv Core w) as [[a|c] w1] eqn:Hc; [left; eauto|].
  rewrite bind_run.
  destruct (launch argv Extensions w1) as [[a|e] w2] eqn:He;
    [right; left; eauto 10|].
  right. right.
  rewrite bind_run, info_run, bind_run, rimraf_run, bind_run. cbn [fs trace].
  rewrite <- app_assoc. cbn [app].
  specialize (Hinit c e w1 w2 eq_refl He).
  set (w3 := World _ _) in *.
  destruct (react_step Core c w3 (launch_state _ _ _ _ _ Hc))
    as (c' & w4 & Hrun1 & Hstep1 & Hc' & Hwc).
  pose proof (J_react Core c e w3 c' w4 Hinit Hrun1) as HJ1. cbn in HJ1.
  rewrite Hrun1, bind_run.
  destruct (react_step Extensions e w4 (launch_state _ _ _ _ _ He))
    as (e' & w5 & Hrun2 & Hstep2 & He' & Hwe).
  pose proof (J_react Extensions c' e w4 e' w5 HJ1 Hrun2) as HJ2. cbn in HJ2.
  rewrite Hrun2.
  apply event_loop_ends_by; [done|done|unfold enough_turns; lia|done].
Qed.

End InvariantBy.

(** ** The removal of the examples directory *)

(** A run that ends before the removal of the examples directory. *)
Lemma removed_elem p evs : Rimraf p ∈ evs <-> p ∈ removed evs.
Proof.
  unfold removed. rewrite list_elem_of_omap. split.
  - intros Hin. by exists (Rimraf p).
  - intros (ev & Hin & Hev). destruct ev; try done. by injection Hev as ->.
Qed.

Lemma launch_removes_nothing argv l w st w' :
  launch argv l w = (inr st, w') -> removed (trace w') = removed (trace w).
Proof.
  intros Hrun.
  destruct (launch_ok _ _ _ _ _ Hrun)
    as [(_ & _ & ->)
       |(arg & _ & _ & [(es & t' & _ & _ & _ & _ & ->)|[_ ->]])];
    cbn [trace]; rewrite removed_app; unfold acquisition_of;
    try destruct (flag_given _); cbn; by rewrite app_nil_r.
Qed.

Lemma launch_stop_removes_nothing argv l0 w a w' :
  launch argv l0 w = (inl a, w') -> removed (trace w') = removed (trace w).
Proof.
  intros Hrun. destruct (launch_stop _ _ _ _ _ Hrun) as (arg & _ & _ & _ & ->).
  cbn [trace]. rewrite removed_app. cbn. by rewrite app_nil_r.
Qed.

(** The two ways of a run: it stops at a flag check, having removed
    nothing, or it goes on to the removal of the examples directory. *)
Lemma main_stops_or_removes argv o t :
  let r := main argv o (World t []) in
  (r.1 = inl (ExitProcess 1)
   /\ removed (trace r.2) = []
   /\ errors (trace r.2) <> []
   /\ exists l arg before,
       flag_given (lane_flag argv l) = Some arg
       /\ errors before = [] /\ exits before = []
       /\ trace r.2
          = before
            ++ [LogError (Message (missing_message l (resolve cwd [arg])));
                Exit 1])
  \/ (Rimraf examples_path ∈ trace r.2
      /\ exists c e pre1 pre2 work t',
          launched Core c pre1 /\ launched Extensions e pre2
          /\ Forall (fun ev => is_work ev = true) work
          /\ ((r = (inr tt,
                    World (cleaned t')
                      (pre1 ++ pre2
                       ++ [LogInfo start_message; Rimraf examples_path]
                       ++ work ++ clean_events ++ [LogInfo success_message]))
               /\ (forall l, Settle l Fulfilled ∈ work))
              \/ (exists rsn,
                    r = (inl (ExitProcess 1),
                         World (cleaned t')
                           (pre1 ++ pre2
                            ++ [LogInfo start_message; Rimraf examples_path]
                            ++ work ++ [LogError rsn] ++ clean_events
                            ++ [Exit 1]))
                    /\ exists l st, Settle l (Failed st rsn) ∈ work))).
Proof.
  intros r. subst r.
  destruct (main_run argv o (World t []))
    as [(l0 & arg & pre & t' & -> & Hflag & _ & Hpre)
       |(c & e & pre1 & pre2 & work & t' & Hc & He & Hwork
         & [(-> & Hok & _)|(rsn & -> & Hbad)])];
    cbn [fst snd fs trace]; rewrite app_nil_l.
  - left. split; [done|].
    assert (removed pre = [] /\ errors pre = [] /\ exits pre = [])
      as (Hr & He1 & He2).
    { destruct Hpre as [(_ & -> & _)|(_ & c & _ & Hc)]; [done|].
      split; [by eapply removed_launched|by eapply launched_silent]. }
    split; [by rewrite removed_app, Hr|].
    split; [by rewrite errors_app, He1|].
    by exists l0, arg, pre.
  - right. split.
    + rewrite !elem_of_app. right. right. left. right. left.
    + exists c, e, pre1, pre2, work, t'. split; [done|]. split; [done|].
      split; [done|]. by left.
  - right. split.
    + rewrite !elem_of_app. right. right. left. right. left.
    + exists c, e, pre1, pre2, work, t'. split; [done|]. split; [done|].
      split; [done|]. right. by exists rsn.
Qed.

Lemma errors_elem rsn evs : LogError rsn ∈ evs <-> rsn ∈ errors evs.
Proof.
  unfold errors. rewrite list_elem_of_omap. split.
  - intros Hin. by exists (LogError rsn).
  - intros (ev & Hin & Hev). destruct ev; try done. by injection Hev as ->.
Qed.

Lemma exits_elem code evs : Exit code ∈ evs <-> code ∈ exits evs.
Proof.
  unfold exits. rewrite list_elem_of_omap. split.
  - intros Hin. by exists (Exit code).
  - intros (ev & Hin & Hev). destruct ev; try done. by injection Hev as ->.
Qed.

(** What a run reports: nothing, and it ends by the success message; or
    one error, and it ends by the only call of [process.exit], with
    status 1. *)
Lemma main_reports argv o t :
  let r := main argv o (World t []) in
  (r.1 = inr tt
   /\ errors (trace r.2) = []
   /\ exits (trace r.2) = []
   /\ last (trace r.2) = Some (LogInfo success_message))
  \/ (r.1 = inl (ExitProcess 1)
      /\ (exists rsn, errors (trace r.2) = [rsn])
      /\ exits (trace r.2) = [1%Z]
      /\ last (trace r.2) = Some (Exit 1)).
Proof.
  intros r. subst r.
  destruct (main_run argv o (World t []))
    as [(l0 & arg & pre & t' & -> & _ & _ & Hpre)
       |(c & e & pre1 & pre2 & work & t' & Hc & He & Hwork
         & [(-> & _)|(rsn & -> & _)])];
    cbn [fst snd fs trace]; rewrite app_nil_l.
  - right. split; [done|].
    assert (errors pre = [] /\ exits pre = []) as [He1 He2].
    { destruct Hpre as [(_ & -> & _)|(_ & c & _ & Hc)]; [done|].
      by eapply launched_silent. }
    rewrite errors_app, exits_app, He1, He2. split; [by eexists|].
    split; [done|]. by rewrite last_app.
  - left. split; [done|].
    destruct (launched_silent _ _ _ Hc) as [Ec1 Ec2].
    destruct (launched_silent _ _ _ He) as [Ee1 Ee2].
    destruct (work_quiet _ Hwork) as (Ew1 & Ew2 & _).
    rewrite !errors_app, !exits_app, Ec1, Ec2, Ee1, Ee2, Ew1, Ew2.
    split; [done|]. split; [done|].
    rewrite !app_assoc. by rewrite last_snoc.
  - right. split; [done|].
    destruct (launched_silent _ _ _ Hc) as [Ec1 Ec2].
    destruct (launched_silent _ _ _ He) as [Ee1 Ee2].
    destruct (work_quiet _ Hwork) as (Ew1 & Ew2 & _).
    rewrite !errors_app, !exits_app, Ec1, Ec2, Ee1, Ee2, Ew1, Ew2.
    split; [by eexists|]. split; [done|].
    rewrite !app_assoc. by rewrite last_snoc.
Qed.

Lemma local_run_shape argv t arg_c arg_e :
  flag_given (core argv) = Some arg_c ->
  flag_given (extensions argv) = Some arg_e ->
  exists res,
    (forall o, main argv o (World t []) = res)
    /\ (Rimraf examples_path ∈ trace res.2 ->
        exists before ending,
          trace res.2 = before ++ ending
          /\ (ending = clean_events ++ [LogInfo success_message]
              \/ exists rsn, ending = [LogError rsn] ++ clean_events ++ [Exit 1])
          /\ forall l, exists out, Settle l out ∈ before).
Proof.
  intros Hfc Hfe. unfold main.
  destruct (launch argv Core (World t [])) as [[a|c] w1] eqn:Hc.
  { exists (inl a, w1). split; [by intros o; rewrite bind_run, Hc|].
    cbn [snd]. intros Hrm. exfalso. apply removed_elem in Hrm.
    rewrite (launch_stop_removes_nothing _ _ _ _ _ Hc) in Hrm.
    by apply elem_of_nil in Hrm. }
  destruct (launch argv Extensions w1) as [[a|e] w2] eqn:He.
  { exists (inl a, w2). split; [by intros o; rewrite bind_run, Hc, bind_run, He|].
    cbn [snd]. intros Hrm. exfalso. apply removed_elem in Hrm.
    rewrite (launch_stop_removes_nothing _ _ _ _ _ He),
      (launch_removes_nothing _ _ _ _ _ Hc) in Hrm.
    by apply elem_of_nil in Hrm. }
  destruct (launch_local_state argv Core _ _ _ _ Hfc Hc) as [rc ->].
  destruct (launch_local_state argv Extensions _ _ _ _ Hfe He) as [re ->].
  set (w3 := World (remove_path examples_path (fs w2))
                   (trace w2 ++ [LogInfo start_message; Rimraf examples_path])).
  destruct (react_copied Core rc w3) as (oc & w4 & Hr1 & Hin1 & evs1 & Ht1).
  destruct (react_copied Extensions re w4) as (oe & w5 & Hr2 & Hin2 & evs2 & Ht2).
  assert (forall l, exists out, Settle l out ∈ trace w5) as Hboth.
  { intros [ ]; eexists; [|exact Hin2].
    rewrite Ht2. apply elem_of_app. left. exact Hin1. }
  assert (forall o, (c ← launch argv Core;
                     e ← launch argv Extensions;
                     info start_message;;
                     rimraf_sync examples_path;;
                     c' ← react Core c;
                     e' ← react Extensions e;
                     event_loop o enough_turns 0 c' e') (World t [])
                    = match aggregate (Settled oc) (Settled oe) with
                      | Some Resolved => on_fulfilled w5
                      | Some (Rejected r) => on_rejected r w5
                      | None => (inr tt, w5)
                      end) as Hrun.
  { intros o. rewrite bind_run, Hc, bind_run, He.
    rewrite bind_run, info_run, bind_run, rimraf_run, bind_run. cbn [fs trace].
    rewrite <- app_assoc. cbn [app]. fold w3.
    rewrite Hr1, bind_run, Hr2.
    by destruct (event_loop_settled o enough_turns 0 oc oe w5) as [-> _]. }
  eexists. split; [exact Hrun|].
  intros _. exists (trace w5).
  assert (aggregate (Settled oc) (Settled oe) <> None) as Hsome
    by (by destruct oc as [|[ | | ] ?], oe as [|[ | | ] ?]).
  destruct (aggregate (Settled oc) (Settled oe)) as [[|r]|]; [..|done].
  - rewrite on_fulfilled_run. cbn [snd trace]. eexists. split; [done|].
    split; [by left|done].
  - rewrite on_rejected_run. cbn [snd trace]. eexists. split; [done|].
    split; [right; by eexists|done].
Qed.

(** ** A lane that cannot be fulfilled *)

Lemma st_of_put_same l st c e :
  st_of l (put_st l st c e).1 (put_st l st c e).2 = st.
Proof. by destruct l. Qed.

Lemma st_of_put_other l l0 st c e :
  l0 <> l -> st_of l (put_st l0 st c e).1 (put_st l0 st c e).2 = st_of l c e.
Proof. by destruct l, l0. Qed.

Lemma st_of_same l st : st_of l st st = st.
Proof. by destruct l. Qed.

Lemma lane_eq_or_not (l l0 : lane) : l0 = l \/ l0 <> l.
Proof. destruct l, l0; auto. Qed.

(** The state of lane [l] when both lanes are launched. *)
Lemma launched_state argv l w c w1 e w2 :
  launch argv Core w = (inr c, w1) ->
  launch argv Extensions w1 = (inr e, w2) ->
  (flag_given (lane_flag argv l) = None /\ st_of l c e = Downloading)
  \/ (exists arg r,
        flag_given (lane_flag argv l) = Some arg /\ st_of l c e = Copied r).
Proof.
  intros Hc He.
  destruct l; cbn [st_of];
    [destruct (launch_ok _ _ _ _ _ Hc)
       as [(Hnone & -> & _)
          |(arg & Hflag & _ & [(es & t' & _ & _ & _ & -> & _)|[-> _]])]
    |destruct (launch_ok _ _ _ _ _ He)
       as [(Hnone & -> & _)
          |(arg & Hflag & _ & [(es & t' & _ & _ & _ & -> & _)|[-> _]])]];
    eauto.
Qed.

Section Doomed.

Variables (argv : Argv) (o : Oracle) (l : lane) (k : ComponentRecord)
          (rel : path).

Hypothesis k_in : k ∈ manifest l.
Hypothesis k_source : markdownFile (working_dir l) k = working_dir l ++ rel.
Hypothesis k_not_output : forall l' v,
  v ∈ manifest l' -> outputFilePath v <> working_dir l ++ rel.
Hypothesis k_not_extracted :
  flag_given (lane_flag argv l) = None ->
  forall tree, extracted (remote o l) = inr tree ->
               file_in rel (Some tree) = false.

Lemma source_not_output l' :
  working_dir l ++ rel ∉ outputFilePath <$> manifest l'.
Proof.
  intros Hin. apply list_elem_of_fmap in Hin as (v & Heq & Hv).
  by apply (k_not_output l' v).
Qed.

Lemma doomed_processor w :
  file_at (working_dir l ++ rel) (fs w) = false ->
  exists st r w',
    (out ← processor l; settle l out) w = (inr (Settled (Failed st r)), w').
Proof.
  intros Hmiss.
  destruct (processor_rejects_missing l w k k_in) as (st & r & w' & Hrun).
  - by rewrite k_source.
  - rewrite k_source. apply source_not_output.
  - rewrite bind_run, Hrun, settle_run. by eexists _, _, _.
Qed.

Lemma doomed_own_react st w st' w' :
  doomed_state argv l (working_dir l ++ rel) st w ->
  react l st w = (inr st', w') ->
  doomed_state argv l (working_dir l ++ rel) st' w'.
Proof.
  destruct st as [[|r]| | |out]; cbn [doomed_state react].
  - intros Hmiss Hrun.
    destruct (doomed_processor w Hmiss) as (st & r & w1 & Hrun').
    rewrite Hrun' in Hrun. by injection Hrun as <- <-.
  - intros _. rewrite settle_run. by intros [= <- <-].
  - by intros ? [= <- <-].
  - by intros ? [= <- <-].
  - by intros ? [= <- <-].
Qed.

Lemma doomed_own_advance st w st' w' :
  doomed_state argv l (working_dir l ++ rel) st w ->
  advance o l st w = (inr st', w') ->
  doomed_state argv l (working_dir l ++ rel) st' w'.
Proof.
  destruct st as [[|r]| | |out]; cbn [doomed_state advance];
    try (by intros ? [= <- <-]).
  - intros Hflag. destruct (fetched (remote o l)) as [r|bytes].
    + rewrite settle_run. by intros [= <- <-].
    + rewrite bind_run, store_promise_run.
      destruct (put_node _ _ _) as [t'|]; [by intros [= <- <-]|].
      rewrite settle_run. by intros [= <- <-].
  - intros Hflag. destruct (extracted (remote o l)) as [r|tree] eqn:Htree.
    + rewrite settle_run. by intros [= <- <-].
    + rewrite bind_run, store_promise_run.
      destruct (put_node _ _ _) as [t'|] eqn:Hput.
      * intros Hrun.
        destruct (doomed_processor
                    (World t' (trace w ++ [Unzipped (working_dir l)])))
          as (st & r & w1 & Hrun').
        { cbn [fs]. unfold file_at, file_in, lookup_opt. cbn [mbind option_bind].
          rewrite (put_node_lookup_below _ _ _ _ rel Hput).
          by apply (k_not_extracted Hflag tree). }
        rewrite Hrun' in Hrun. by injection Hrun as <- <-.
      * rewrite settle_run. by intros [= <- <-].
Qed.

Lemma doomed_other_step l' st w st0 st0' w' :
  l' <> l ->
  lane_step l' w st0 st0' w' ->
  doomed_state argv l (working_dir l ++ rel) st w ->
  doomed_state argv l (working_dir l ++ rel) st w'.
Proof.
  intros Hne Hstep. destruct st as [[|r]| | |out]; cbn [doomed_state]; try done.
  by rewrite (other_lane_files l l' _ _ _ _ rel Hne Hstep (source_not_output l')).
Qed.

Lemma doomed_react l0 c e w st' w' :
  doomed argv l (working_dir l ++ rel) c e w ->
  react l0 (st_of l0 c e) w = (inr st', w') ->
  doomed argv l (working_dir l ++ rel)
    (put_st l0 st' c e).1 (put_st l0 st' c e).2 w'.
Proof.
  unfold doomed. intros HJ Hrun.
  destruct (lane_eq_or_not l l0) as [->|Hne].
  - rewrite st_of_put_same. by eapply doomed_own_react.
  - rewrite st_of_put_other by done.
    eapply doomed_other_step; [done|by eapply react_lane_step|done].
Qed.

Lemma doomed_advance l0 c e w st' w' :
  doomed argv l (working_dir l ++ rel) c e w ->
  advance o l0 (st_of l0 c e) w = (inr st', w') ->
  doomed argv l (working_dir l ++ rel)
    (put_st l0 st' c e).1 (put_st l0 st' c e).2 w'.
Proof.
  unfold doomed. intros HJ Hrun.
  destruct (lane_eq_or_not l l0) as [->|Hne].
  - rewrite st_of_put_same. by eapply doomed_own_advance.
  - rewrite st_of_put_other by done.
    eapply doomed_other_step; [done|by eapply advance_lane_step|done].
Qed.

(** A run in which lane [l] cannot be fulfilled once the lanes are
    launched ends, when it gets as far as the removal of the examples
    directory, by the failure handler. *)
Lemma doomed_run t :
  (forall arg, flag_given (lane_flag argv l) = Some arg ->
     file_at (working_dir l ++ rel)
       (fs (launch argv Extensions (launch argv Core (World t [])).2).2)
     = false) ->
  Rimraf examples_path ∈ trace (main argv o (World t [])).2 ->
  exists w' r, main argv o (World t []) = on_rejected r w'.
Proof.
  intros Hlocal Hrm.
  destruct (main_ends_by o (doomed argv l (working_dir l ++ rel))
              doomed_react doomed_advance argv (World t []))
    as [(a & w1 & Hc & Hmain)
       |[(c & w1 & a & w2 & Hc & He & Hmain)
        |(c' & e' & w' & HJ & _ & _ & Hend)]].
  - intros c e w1 w2 Hc He. unfold doomed.
    rewrite Hc in Hlocal. cbn [snd] in Hlocal. rewrite He in Hlocal.
    cbn [snd] in Hlocal.
    destruct (launched_state argv l _ _ _ _ _ Hc He)
      as [[Hnone ->]|(arg & r & Hflag & ->)]; cbn [doomed_state fs]; [done|].
    destruct r as [|r]; [|done].
    rewrite file_at_entry, remove_path_entry.
    + rewrite <- file_at_entry. by apply (Hlocal arg).
    + rewrite examples_path_app. intros Heq.
      by apply app_eq_nil in Heq as [_ ?].
    + apply examples_not_above_working.
  - exfalso. rewrite Hmain in Hrm. cbn [snd] in Hrm.
    apply removed_elem in Hrm.
    rewrite (launch_stop_removes_nothing _ _ _ _ _ Hc) in Hrm.
    by apply elem_of_nil in Hrm.
  - exfalso. rewrite Hmain in Hrm. cbn [snd] in Hrm.
    apply removed_elem in Hrm.
    rewrite (launch_stop_removes_nothing _ _ _ _ _ He),
      (launch_removes_nothing _ _ _ _ _ Hc) in Hrm.
    by apply elem_of_nil in Hrm.
  - destruct Hend as [[Hagg _]|(r & _ & Hmain)]; [|by exists w', r].
    exfalso. apply aggregate_resolved in Hagg as [-> ->].
    unfold doomed in HJ. by rewrite st_of_same in HJ.
Qed.

End Doomed.

(** ** The claims *)

(** Claim C1.  The promises of the records of a group and the events of
    its processor correspond one to one, in manifest order.  A record
    that is processed, its promise resolved, has its document written:
    its block is its read, the creation of its directory, the write of
    the serialization of a document and its success line.  Every write of
    a block is at the output path of its record, by a record that is
    processed, and of the serialization of a document whose [preview]
    setting is [true] when the record's [preview] is [undefined] and
    [false] when it is [false].  And a record is processed whenever its
    source is there and nothing stands in the way of its output. *)
Theorem preview_setting_of_written_documents (l : lane) (w : world) :
  dir_at (working_dir l) (fs w) = true ->
  exists ss blocks,
    record_promises l w = (inr ss, (processor l w).2)
    /\ trace (processor l w).2 = trace w ++ concat blocks
    /\ Forall3
         (fun val s block =>
            (s = Resolved ->
             exists parsed preset,
               block = record_block (working_dir l) val
                         (toMarkdown (output_document parsed preset val)))
            /\ forall p data, WriteFile p data ∈ block ->
                 s = Resolved
                 /\ exists parsed preset,
                     p = outputFilePath val
                     /\ data = toMarkdown (output_document parsed preset val)
                     /\ (preview val = JUndefined ->
                         set_preview
                           (out_setting (output_document parsed preset val))
                         = true)
                     /\ (preview val = JBool false ->
                         set_preview
                           (out_setting (output_document parsed preset val))
                         = false))
         (manifest l) ss blocks
    /\ forall l1 val l2,
         manifest l = l1 ++ val :: l2 ->
         file_at (markdownFile (working_dir l) val) (fs w) = true ->
         output_clear (fs w) l1 val ->
         ss !! length l1 = Some Resolved.
Proof.
  intros Hdir.
  destruct (processor_settled l w Hdir) as (ss & blocks & t' & Hres & Hps & Hp & Hall).
  exists ss, blocks. rewrite Hp. cbn [snd trace].
  split; [done|]. split; [done|]. split.
  - eapply Forall3_impl; [exact Hall|].
    intros val s block Hb. split.
    + intros ->. destruct Hb as (t & text & ->). by eexists _, _.
    + intros p data Hin.
      destruct s as [|[m|e]]; cbn [settled_block] in Hb.
      * destruct Hb as (t & text & ->). split; [done|].
        unfold record_block in Hin.
        rewrite !elem_of_cons, elem_of_nil in Hin.
        destruct Hin as [Hin|[Hin|[Hin|[Hin|Hin]]]]; try done.
        injection Hin as -> ->.
        eexists _, _. split; [reflexivity|]. split; [reflexivity|].
        cbn [output_document out_setting set_preview]. unfold preview_setting.
        split; intros ->; reflexivity.
      * destruct Hb as [_ ->]. by apply elem_of_nil in Hin.
      * destruct Hb as [[_ ->]|[_ ->]];
          repeat (apply elem_of_cons in Hin as [[=]|Hin]);
          by apply elem_of_nil in Hin.
  - intros l1 val l2 Hman Hsrc Hclear. rewrite Hman in Hres.
    by destruct (records_result_processed _ _ _ _ _ _ _ _ Hres Hsrc Hclear).
Qed.

(** Claim C2.  For a record whose source holds [text], parsed into
    title [T], content [B] and dependencies [D]: when nothing stands in
    the way of the output, the promise is resolved and the document
    written to the output path is the serialization of exactly [T], [B]
    and, in the setting, [D] with the record's name, the preset and the
    preview flag.  When a regular file is on the way to the directory of
    the output, [mkdirp.sync] throws and the disk stays as it was; when a
    directory is where the output is to be, [fs.writeFileSync] throws
    and the regular files of the disk, with their contents, are those it
    had.  There is no other course. *)
Theorem written_document_is_serialization
    (l : lane) (val : ComponentRecord) (w : world)
    (text T B : string) (D : list string) :
  lookup_path (markdownFile (working_dir l) val) (fs w) = Some (File text) ->
  parseMarkdown text
  = {| data_title := T; data_content := B; data_deps := D |} ->
  let doc :=
    {| out_title := T;
       out_content := B;
       out_setting :=
         {| set_deps := D;
            set_name := name val;
            set_preset :=
              readPreset (fs w) (dirname (markdownFile (working_dir l) val));
            set_preview := preview_setting val |} |} in
  let out := outputFilePath val in
  let r := new_promise (record_executor (working_dir l) val) w in
  (unblocked (fs w) out ->
   r.1 = inr Resolved
   /\ trace r.2 = trace w ++ record_block (working_dir l) val (toMarkdown doc)
   /\ lookup_path out (fs r.2) = Some (File (toMarkdown doc)))
  /\ ((exists q, q `prefix_of` dirname out /\ file_at q (fs w) = true) ->
      r = (inr (Rejected (Thrown (MkdirFailed (dirname out)))),
           World (fs w)
             (trace w ++ [ReadFile (markdownFile (working_dir l) val)])))
  /\ ((forall q, q `prefix_of` dirname out -> file_at q (fs w) = false) ->
      dir_at out (fs w) = true ->
      r.1 = inr (Rejected (Thrown (WriteFailed out)))
      /\ trace r.2
         = trace w ++ [ReadFile (markdownFile (working_dir l) val);
                       Mkdirp (dirname out)]
      /\ forall q d,
           entry_at q (fs r.2) = IsFile d <-> entry_at q (fs w) = IsFile d)
  /\ (unblocked (fs w) out
      \/ (exists q, q `prefix_of` dirname out /\ file_at q (fs w) = true)
      \/ ((forall q, q `prefix_of` dirname out -> file_at q (fs w) = false)
          /\ dir_at out (fs w) = true)).
Proof.
  intros Hsrc Hparse doc out r. subst r out. rewrite record_promise_run.
  assert (serialized (working_dir l) val (fs w) text = toMarkdown doc) as Hdoc.
  { unfold serialized, output_document. by rewrite Hparse. }
  destruct (record_result_cases _ _ _ _ Hsrc) as [Hfile Hfree].
  rewrite Hdoc in Hfree.
  split; [|split; [|split; [|apply output_cases]]].
  - intros Hun. destruct (unblocked_dirname _ _ Hun) as [Hq Hnd].
    destruct (Hfree Hq) as (t1 & _ & _ & Hok).
    destruct (Hok Hnd) as (t2 & Hput & ->). cbn [fst snd fs trace].
    split; [done|]. split; [done|]. by apply (put_node_lookup _ _ _ _ Hput).
  - intros Hq. by rewrite (Hfile Hq).
  - intros Hq Hd. destruct (Hfree Hq) as (t1 & Hmk & Hbad & _).
    rewrite (Hbad Hd). cbn [fst snd fs trace]. split; [done|]. split; [done|].
    intros q d. apply (make_dirs_contents _ _ _ _ _ Hmk).
Qed.


(** Claim C4, as amended.  A path given with [--core] that is not a
    directory stops the run at once: the error message with the resolved
    path and [Exit 1] are the only events.  A path given with
    [--extensions] that is not a directory when its check runs, the core
    check having passed, stops the run after the launch of the core lane
    alone: no document is read or written and no download of the
    extensions archive is started. *)
Theorem bad_local_flag_stops_the_run (argv : Argv) (o : Oracle) (w : world) :
  (forall arg,
      flag_given (core argv) = Some arg ->
      dir_at (resolve cwd [arg]) (fs w) = false ->
      main argv o w
      = (inl (ExitProcess 1),
         World (fs w)
           (trace w
            ++ [LogError (Message (missing_message Core (resolve cwd [arg])));
                Exit 1])))
  /\ (forall arg c w1,
        launch argv Core w = (inr c, w1) ->
        flag_given (extensions argv) = Some arg ->
        dir_at (resolve cwd [arg]) (fs w1) = false ->
        exists pre,
          main argv o w
          = (inl (ExitProcess 1),
             World (fs w1)
               (trace w ++ pre
                ++ [LogError
                      (Message (missing_message Extensions (resolve cwd [arg])));
                    Exit 1]))
          /\ launched Core c pre
          /\ Forall (fun ev => is_file_access ev = false) pre
          /\ forall file, DownGit (lane_git Extensions) file ∉ pre).
Proof.
  split.
  - intros arg Hflag Hdir. unfold main. rewrite bind_run.
    destruct (launch_run argv Core w)
      as [(arg' & Hflag' & _ & ->)|(c & t1 & pre & _ & _ & Hok)].
    + cbn [lane_flag] in Hflag'. by replace arg' with arg by congruence.
    + specialize (Hok arg Hflag). congruence.
  - intros arg c w1 Hlc Hflag Hdir. unfold main. rewrite bind_run.
    destruct (launch_run argv Core w)
      as [(arg' & _ & _ & Hstop)|(c' & t1 & pre & Hgo & Hc & _)];
      [congruence|].
    rewrite Hgo in Hlc. injection Hlc as <- <-. rewrite Hgo, bind_run.
    destruct (launch_run argv Extensions (World t1 (trace w ++ pre)))
      as [(arg' & Hflag' & _ & ->)|(e & t2 & pre2 & _ & _ & Hok)].
    + cbn [lane_flag] in Hflag'. replace arg' with arg by congruence.
      exists pre. cbn [fs trace]. rewrite <- app_assoc.
      split; [done|]. split; [done|]. split.
      * eapply Forall_impl; [exact (launched_quiet _ _ _ Hc)|]. by intros ? [? _].
      * intros file Hin.
        destruct Hc; repeat (apply elem_of_cons in Hin as [Hin|Hin]);
          solve [by apply elem_of_nil in Hin | discriminate Hin].
    + specialize (Hok arg Hflag). cbn [fs] in *. congruence.
Qed.



(** Claim C7.  When the working directory of the group is not a
    directory, the processor rejects at once with a message naming that
    directory; it emits no event and leaves the file system as it was, so
    no output file is written for any record. *)
Theorem processor_rejects_without_directory (l : lane) (w : world) :
  dir_at (working_dir l) (fs w) = false ->
  processor l w
  = (inr (Failed DirCheckStage (Message (render (working_dir l) +:+ " 不存在"))),
     w).
Proof.
  intros Hdir. rewrite processor_run. unfold processor_result. rewrite Hdir.
  destruct w as [t tr]. cbn [fs trace]. by rewrite app_nil_r.
Qed.


(** Claim C9.  Within a group the records are processed one after the
    other in manifest order.  The promises of the records and the events
    of the processor correspond one to one, in manifest order: the events
    are the concatenation of one block per record, and the block of a
    record is its read, the creation of its output directory, its write
    and its success line when its promise is resolved, empty when its
    source is missing, and the read, or the read and the creation of the
    directory, when [mkdirp.sync] or [fs.writeFileSync] threw.  Hence the
    files written and the lines logged are those of the resolved records,
    in the order of the manifest; they are those of the whole manifest
    when the group is fulfilled.  A record is resolved whenever its
    source is there and nothing stands in the way of its output. *)
Theorem records_processed_in_manifest_order (l : lane) (w : world) :
  dir_at (working_dir l) (fs w) = true ->
  exists ss blocks,
    record_promises l w = (inr ss, (processor l w).2)
    /\ (processor l w).1 = inr (outcome_of (promise_all ss))
    /\ trace (processor l w).2 = trace w ++ concat blocks
    /\ Forall3 (settled_block (working_dir l)) (manifest l) ss blocks
    /\ written (concat blocks) = outputFilePath <$> resolved_records (manifest l) ss
    /\ logged (concat blocks) = success_line <$> resolved_records (manifest l) ss
    /\ ((processor l w).1 = inr Fulfilled ->
        resolved_records (manifest l) ss = manifest l)
    /\ forall l1 val l2,
         manifest l = l1 ++ val :: l2 ->
         file_at (markdownFile (working_dir l) val) (fs w) = true ->
         output_clear (fs w) l1 val ->
         ss !! length l1 = Some Resolved.
Proof.
  intros Hdir.
  destruct (processor_settled l w Hdir) as (ss & blocks & t' & Hres & Hps & Hp & Hall).
  exists ss, blocks. rewrite Hp. cbn [fst snd trace].
  destruct (resolved_records_written _ _ _ _ Hall) as [Hw Hl].
  split; [done|]. split; [done|]. split; [done|]. split; [done|].
  split; [done|]. split; [done|]. split.
  - intros [= Hok]. apply resolved_records_all.
    + symmetry. by eapply Forall3_length_lm.
    + by destruct (promise_all ss).
  - intros l1 val l2 Hman Hsrc Hclear. rewrite Hman in Hres.
    by destruct (records_result_processed _ _ _ _ _ _ _ _ Hres Hsrc Hclear).
Qed.


End Facts.

(** * Further properties of the script

    What the processors, the cleanup and a whole run do to the disk, and
    what the events of a run show. *)

Section Further.

Context {util : Util} {comps : Components} {proc : Process}.

(** ** Cleanup *)

(** Property X1.  [clean] leaves alone whatever does not lie at or below
    one of the four temporary paths: such a path is absent, a directory
    or a regular file with the same content, after [clean] as before. *)
Theorem clean_leaves_the_rest (w : world) (q : path) :
  (forall p, p ∈ temporary_paths -> ~ p `prefix_of` q) ->
  entry_at q (fs (clean w).2) = entry_at q (fs w).
Proof.
  intros Hq. rewrite clean_run. cbn [snd fs]. by apply cleaned_entry.
Qed.

(** Property X2.  [clean] always returns.  Afterwards none of the four
    temporary paths exists, whether it existed before or not, and a
    second [clean] changes nothing on the disk. *)
Theorem clean_twice_is_clean_once (w : world) :
  (clean w).1 = inr tt
  /\ (forall p, p ∈ temporary_paths -> entry_at p (fs (clean w).2) = Absent)
  /\ fs (clean (clean w).2).2 = fs (clean w).2.
Proof.
  rewrite !clean_run. cbn [fst snd fs]. split; [done|]. split.
  - intros p Hp. by rewrite entry_at_lookup, (cleaned_absent _ _ Hp).
  - unfold cleaned at 1.
    assert (forall ps t, (forall p, p ∈ ps -> lookup_path p t = None) ->
              foldl (fun t p => remove_path p t) t ps = t) as Hid.
    { induction ps as [|p ps IH] using rev_ind; intros t Hps; [done|].
      rewrite foldl_app. cbn [foldl]. rewrite IH.
      - apply remove_path_id. apply Hps. apply elem_of_app. right. left.
      - intros p' Hp'. apply Hps. apply elem_of_app. by left. }
    apply Hid. intros p Hp. by apply cleaned_absent.
Qed.

(** ** The processors *)

(** Property X3.  A processor removes nothing and writes only where its
    manifest says.  A directory stays a directory and a regular file
    stays a regular file; a path that is neither the output path of a
    record of the group nor an ancestor of one is left exactly as it
    was. *)
Theorem processor_touches_only_outputs (l : lane) (w : world) (q : path) :
  let t' := fs (processor l w).2 in
  (entry_at q (fs w) = IsDir -> entry_at q t' = IsDir)
  /\ (forall d, entry_at q (fs w) = IsFile d ->
                exists d', entry_at q t' = IsFile d')
  /\ ((forall val, val ∈ manifest l -> ~ q `prefix_of` outputFilePath val) ->
      entry_at q t' = entry_at q (fs w)).
Proof.
  intros t'. subst t'. apply processor_footprint.
Qed.

(** Property X4.  The last write wins.  After a processor has run, a
    path that it wrote holds the data of its last [fs.writeFileSync]
    there, so of two records with the same output path the later in the
    manifest prevails; a path that it did not write is a regular file
    with some content exactly when it was one, with that content,
    before. *)
Theorem last_write_wins (l : lane) (w : world) (p : path) :
  exists evs,
    trace (processor l w).2 = trace w ++ evs
    /\ match last_written p evs with
       | Some data => entry_at p (fs (processor l w).2) = IsFile data
       | None => forall d, entry_at p (fs (processor l w).2) = IsFile d
                           <-> entry_at p (fs w) = IsFile d
       end.
Proof.
  rewrite processor_run. unfold processor_result.
  destruct (dir_at (working_dir l) (fs w)).
  - destruct (records_result (working_dir l) (manifest l) (fs w))
      as [[ss t'] evs] eqn:Hres.
    exists evs. cbn [snd fs trace]. split; [done|].
    by eapply records_result_last_written.
  - exists []. cbn [snd fs trace]. done.
Qed.

(** Property X5.  The promise of a processor is fulfilled exactly when
    the working directory exists and one file was written per record of
    the manifest.  When it is fulfilled, the events of the processor are
    the full blocks of all the records, in manifest order, and every
    output path is a regular file afterwards. *)
Theorem fulfilled_iff_every_record_written (l : lane) (w : world) :
  ((processor l w).1 = inr Fulfilled
   <-> dir_at (working_dir l) (fs w) = true
       /\ exists evs,
            trace (processor l w).2 = trace w ++ evs
            /\ length (written evs) = length (manifest l))
  /\ ((processor l w).1 = inr Fulfilled ->
      (exists datas,
          length datas = length (manifest l)
          /\ trace (processor l w).2
             = trace w ++ concat (zip_with (record_block (working_dir l))
                                    (manifest l) datas))
      /\ forall val, val ∈ manifest l ->
                     file_at (outputFilePath val) (fs (processor l w).2) = true).
Proof.
  rewrite processor_run. unfold processor_result.
  destruct (dir_at (working_dir l) (fs w)).
  - destruct (records_result (working_dir l) (manifest l) (fs w))
      as [[ss t'] evs] eqn:Hres.
    cbn [fst snd fs trace].
    assert (forall datas, length datas = length (manifest l) ->
              length (written (concat (zip_with (record_block (working_dir l))
                                         (manifest l) datas)))
              = length (manifest l)) as Hlen.
    { generalize (manifest l). intros m.
      induction m as [|v m IH]; intros [|d datas] Hlen; try done.
      cbn [zip_with concat]. unfold written in *. rewrite omap_app.
      cbn [length omap list_omap record_block app].
      f_equal. apply IH. by injection Hlen. }
    destruct (records_result_complete _ _ _ _ _ _ Hres)
      as [(Hall & (datas & Hd & ->) & Hfiles)|[[r Hrej] Hlt]].
    + rewrite Hall. cbn [outcome_of]. split.
      * split; [|done]. intros _. split; [done|].
        eexists. split; [reflexivity|]. by apply Hlen.
      * intros _. split; [|done]. by exists datas.
    + rewrite Hrej. cbn [outcome_of]. split; [|done]. split; [done|].
      intros [_ (evs' & Heq & Hn)]. apply app_inv_head in Heq as <-. lia.
  - cbn [fst snd]. split; [|done]. split; [done|]. by intros [? _].
Qed.

(** Property X6.  A sufficient condition for a group to succeed: when the
    working directory exists, every source of the manifest is a regular
    file, nothing on the disk stands in the way of an output and no
    output path lies inside another, the processor's promise is
    fulfilled. *)
Theorem processor_fulfils_on_a_clear_disk (l : lane) (w : world) :
  dir_at (working_dir l) (fs w) = true ->
  (forall val, val ∈ manifest l ->
               file_at (markdownFile (working_dir l) val) (fs w) = true) ->
  (forall val, val ∈ manifest l -> unblocked (fs w) (outputFilePath val)) ->
  (forall v1 v2, v1 ∈ manifest l -> v2 ∈ manifest l ->
                 ~ nested (outputFilePath v1) (outputFilePath v2)) ->
  (processor l w).1 = inr Fulfilled.
Proof.
  intros Hdir Hsrc Hclear Hfree. rewrite processor_run.
  unfold processor_result. rewrite Hdir.
  destruct (records_result (working_dir l) (manifest l) (fs w))
    as [[ss t'] evs] eqn:Hres.
  cbn [fst].
  rewrite (records_result_all_resolved _ _ _ _ _ _ Hres); [done| |done].
  by eapply records_result_fault_free.
Qed.

(** ** Runs of the script *)

(** Property X7.  What a run reports.  A run that returns normally has
    called neither [reporter.error] nor [process.exit], and its last
    event is the success message.  In any run, an error that is reported
    is the only one: [process.exit(1)] is then called, once, and that
    call is the last event.  And [process.exit] is called with no other
    status than 1, and never without an error having been reported. *)
Theorem run_reports_one_error_or_none (argv : Argv) (o : Oracle) (t : node) :
  let r := main argv o (World t []) in
  (r.1 = inr tt ->
   errors (trace r.2) = []
   /\ exits (trace r.2) = []
   /\ last (trace r.2) = Some (LogInfo success_message))
  /\ (forall rsn,
        LogError rsn ∈ trace r.2 ->
        errors (trace r.2) = [rsn]
        /\ exits (trace r.2) = [1%Z]
        /\ last (trace r.2) = Some (Exit 1))
  /\ (forall code,
        Exit code ∈ trace r.2 ->
        code = 1%Z /\ exists rsn, errors (trace r.2) = [rsn]).
Proof.
  intros r. subst r.
  destruct (main_reports argv o t)
    as [(Hret & Herr & Hex & Hlast)|(Hret & [rsn0 Herr] & Hex & Hlast)].
  - split; [done|]. split.
    + intros rsn Hin. apply errors_elem in Hin. rewrite Herr in Hin.
      by apply elem_of_nil in Hin.
    + intros code Hin. apply exits_elem in Hin. rewrite Hex in Hin.
      by apply elem_of_nil in Hin.
  - split; [by rewrite Hret|]. split.
    + intros rsn Hin. apply errors_elem in Hin. rewrite Herr in Hin.
      apply list_elem_of_singleton in Hin as ->. by rewrite Herr.
    + intros code Hin. apply exits_elem in Hin. rewrite Hex in Hin.
      apply list_elem_of_singleton in Hin as ->. split; [done|]. by exists rsn0.
Qed.

(** Property X8.  Each lane is acquired at most once and in the way its
    flag selects: the acquisition events of a run are, in this order, at
    most the one of the core lane and the one of the extensions lane,
    where the acquisition of a lane is the copy of the directory named by
    its flag when the flag is given and the download of its archive
    otherwise.  A lane with a local flag is never downloaded and a lane
    without one is never copied.  In a run that returns normally both
    acquisitions took place. *)
Theorem each_lane_is_acquired_as_its_flag_says
    (argv : Argv) (o : Oracle) (t : node) :
  let r := main argv o (World t []) in
  acquired (trace r.2)
    `sublist_of` [acquisition_of argv Core; acquisition_of argv Extensions]
  /\ (r.1 = inr tt ->
      acquired (trace r.2)
      = [acquisition_of argv Core; acquisition_of argv Extensions]).
Proof.
  intros r. subst r.
  set (full := [acquisition_of argv Core; acquisition_of argv Extensions]).
  set (J := fun (c e : lane_state) (w : world) =>
              acquired (trace w) `sublist_of` full
              /\ (is_failed c = false -> is_failed e = false ->
                  acquired (trace w) = full)).
  assert (forall l c e w st' w',
            J c e w -> lane_step l w (st_of l c e) st' w' ->
            J (put_st l st' c e).1 (put_st l st' c e).2 w') as J_step.
  { intros l c e w st' w' [Hsub Hfull] Hstep.
    destruct (lane_step_quiet _ _ _ _ _ Hstep) as [_ Hsame].
    pose proof (lane_step_unfailed _ _ _ _ _ Hstep) as Hun.
    split; rewrite Hsame; [done|].
    destruct l; cbn [put_st st_of fst snd] in *; auto. }
  destruct (main_ends J J_step argv o (World t []))
    as [(a & w1 & Hc & ->)
       |[(c & w1 & a & w2 & Hc & He & ->)
        |(c' & e' & w' & [Hsub Hfull] & _ & _ & Hend)]].
  - intros c e w1 w2 Hc He. unfold J. cbn [trace].
    destruct (launch_acquired _ _ _ _ _ Hc) as (pre1 & Ht1 & Ha1).
    destruct (launch_acquired _ _ _ _ _ He) as (pre2 & Ht2 & Ha2).
    rewrite Ht2, Ht1. cbn [trace]. rewrite app_nil_l.
    rewrite !acquired_app, Ha1, Ha2. cbn [acquired omap list_omap is_acquisition].
    rewrite app_nil_r. subst full.
    destruct (is_failed c), (is_failed e); cbn [app]; split; try done.
    + apply sublist_nil_l.
    + apply sublist_cons. reflexivity.
    + apply sublist_skip. apply sublist_nil_l.
  - destruct (launch_stop _ _ _ _ _ Hc) as (arg & _ & _ & -> & ->).
    cbn [fst snd trace]. split; [|done]. apply sublist_nil_l.
  - destruct (launch_acquired _ _ _ _ _ Hc) as (pre1 & Ht1 & Ha1).
    destruct (launch_stop _ _ _ _ _ He) as (arg & _ & _ & -> & ->).
    cbn [fst snd trace]. split; [|done].
    rewrite Ht1. cbn [trace]. rewrite app_nil_l, acquired_app, Ha1.
    cbn [acquired omap list_omap is_acquisition]. rewrite app_nil_r.
    destruct (is_failed c); [apply sublist_nil_l|].
    apply sublist_skip. apply sublist_nil_l.
  - destruct clean_events_silent as (_ & _ & Hcl).
    destruct Hend as [[Hagg ->]|(rsn & Hagg & ->)].
    + rewrite on_fulfilled_run. cbn [fst snd trace].
      rewrite !acquired_app, Hcl. cbn [acquired omap list_omap is_acquisition].
      rewrite !app_nil_r. split; [done|]. intros _.
      destruct (aggregate_resolved _ _ Hagg) as [-> ->]. by apply Hfull.
    + rewrite on_rejected_run. cbn [fst snd trace].
      rewrite !acquired_app, Hcl. cbn [acquired omap list_omap is_acquisition].
      rewrite !app_nil_r. done.
Qed.

(** Property X9.  A bad [--extensions] after a good [--core] leaves the
    copy behind.  When the copy of the core directory has returned and
    the path given with [--extensions] is not a directory then, the run
    consists of the load message, the copy, the error message and
    [process.exit(1)]: [clean] is not called, the disk is as the copy
    left it and the core working directory is still there when the
    process exits. *)
Theorem bad_extensions_flag_leaves_the_core_copy
    (argv : Argv) (o : Oracle) (t : node) (arg_c arg_e : string) (w1 : world) :
  flag_given (core argv) = Some arg_c ->
  launch argv Core (World t []) = (inr (Copied Resolved), w1) ->
  flag_given (extensions argv) = Some arg_e ->
  dir_at (resolve cwd [arg_e]) (fs w1) = false ->
  let r := main argv o (World t []) in
  r.1 = inl (ExitProcess 1)
  /\ trace r.2
     = [LogInfo (load_message Core (resolve cwd [arg_c]));
        CopyDir (resolve cwd [arg_c]) (working_dir Core);
        LogError (Message (missing_message Extensions (resolve cwd [arg_e])));
        Exit 1]
  /\ removed (trace r.2) = []
  /\ fs r.2 = fs w1
  /\ dir_at (working_dir Core) (fs r.2) = true.
Proof.
  intros Hfc Hc Hfe Hde r. subst r.
  unfold main. rewrite bind_run, Hc, bind_run.
  rewrite (launch_local argv Extensions _ arg_e Hfe), Hde.
  cbn [fst snd fs trace]. split; [done|].
  destruct (launch_ok _ _ _ _ _ Hc)
    as [(_ & [=] & _)
       |(arg & Hflag & _ & [(es & t' & _ & _ & Hput & _ & ->)|[[=] _]])].
  cbn [lane_flag] in Hflag. replace arg with arg_c in * by congruence.
  cbn [fs trace]. unfold acquisition_of. cbn [lane_flag]. rewrite Hfc.
  split; [done|]. split; [done|]. split; [done|].
  by rewrite dir_at_entry, entry_at_lookup, (put_node_lookup _ _ _ _ Hput).
Qed.

(** Property X10.  An exception of [copydir.sync] is caught, not
    propagated (lines 159-168).  When the copy of the core directory has
    thrown, then in every run in which the removal of the examples
    directory has returned the core lane is rejected with the exception
    at the acquisition stage, this exception is the one error that is
    reported, and the process exits with status 1. *)
Theorem failed_core_copy_is_reported
    (argv : Argv) (o : Oracle) (t : node) (err : error) (w1 : world) :
  launch argv Core (World t []) = (inr (Copied (Rejected (Thrown err))), w1) ->
  let r := main argv o (World t []) in
  Rimraf examples_path ∈ trace r.2 ->
  r.1 = inl (ExitProcess 1)
  /\ errors (trace r.2) = [Thrown err]
  /\ Settle Core (Failed AcquireStage (Thrown err)) ∈ trace r.2.
Proof.
  intros Hcopy r. subst r. intros Hrm.
  set (J := fun (c e : lane_state) (w : world) =>
              (c = Copied (Rejected (Thrown err))
               \/ (c = Settled (Failed AcquireStage (Thrown err))
                   /\ Settle Core (Failed AcquireStage (Thrown err)) ∈ trace w))
              /\ errors (trace w) = []).
  assert (forall l c e w st' w',
            J c e w -> lane_step l w (st_of l c e) st' w' ->
            J (put_st l st' c e).1 (put_st l st' c e).2 w') as J_step.
  { intros l c e w st' w' [Hc Herr] Hstep.
    destruct (lane_step_quiet _ _ _ _ _ Hstep) as [Hq _].
    destruct (lane_step_trace _ _ _ _ _ Hstep) as (evs & Hevs & _).
    split; [|by rewrite Hq].
    destruct l; cbn [put_st st_of fst snd] in *.
    - destruct Hc as [->|[-> Hin]].
      + inversion Hstep; subst; try done; [by left|].
        right. split; [done|]. cbn [trace]. apply elem_of_app. right. left.
      + destruct (lane_step_settled _ _ _ _ _ _ Hstep eq_refl) as [-> ->].
        by right.
    - destruct Hc as [->|[-> Hin]]; [by left|]. right. split; [done|].
      rewrite Hevs. apply elem_of_app. by left. }
  destruct (main_ends J J_step argv o (World t []))
    as [(a & w2 & Hc & Hmain)
       |[(c & w2 & a & w3 & Hc & He & Hmain)
        |(c' & e' & w' & [HJ Herr] & Hready & _ & Hend)]].
  - intros c e w2 w3 Hc He. rewrite Hcopy in Hc. injection Hc as <- <-. split.
    + by left.
    + cbn [trace]. rewrite errors_app, (launch_errors _ _ _ _ _ He),
        (launch_errors _ _ _ _ _ Hcopy). done.
  - congruence.
  - exfalso. rewrite Hmain in Hrm. cbn [snd] in Hrm.
    apply removed_elem in Hrm.
    rewrite (launch_stop_removes_nothing _ _ _ _ _ He),
      (launch_removes_nothing _ _ _ _ _ Hc) in Hrm.
    by apply elem_of_nil in Hrm.
  - destruct HJ as [->|[-> Hin]]; [done|].
    rewrite aggregate_acquire_failed in Hend.
    destruct Hend as [[? _]|(rsn & [= <-] & ->)]; [done|].
    rewrite on_rejected_run. cbn [fst snd trace]. split; [done|].
    destruct clean_events_silent as (Hcl & _).
    rewrite !errors_app, Herr, Hcl. split; [done|].
    apply elem_of_app. by left.
Qed.

(** Property X11.  The examples directory stays removed.  When no output
    path of either manifest lies at or below [source/examples], then in
    every run that reaches the removal of line 223 the examples directory
    does not exist when the run ends, whatever the outcome of the
    lanes. *)
Theorem examples_stay_removed (argv : Argv) (o : Oracle) (t : node) :
  (forall l val, val ∈ manifest l ->
                 ~ examples_path `prefix_of` outputFilePath val) ->
  let r := main argv o (World t []) in
  Rimraf examples_path ∈ trace r.2 ->
  entry_at examples_path (fs r.2) = Absent.
Proof.
  intros Hout r. subst r.
  set (J := fun (c e : lane_state) (w : world) =>
              entry_at examples_path (fs w) = Absent).
  assert (forall l c e w st' w',
            J c e w -> lane_step l w (st_of l c e) st' w' ->
            J (put_st l st' c e).1 (put_st l st' c e).2 w') as J_step.
  { intros l c e w st' w' HJ Hstep. unfold J in *.
    rewrite (lane_step_frame _ _ _ _ _ examples_path Hstep);
      [|apply temporary_not_above_examples|apply Hout].
    by destruct l. }
  destruct (main_ends J J_step argv o (World t []))
    as [(a & w1 & Hc & ->)
       |[(c & w1 & a & w2 & Hc & He & ->)
        |(c' & e' & w' & HJ & _ & _ & Hend)]].
  - intros c e w1 w2 _ _. unfold J. cbn [fs].
    rewrite entry_at_lookup, remove_path_absent; [done|].
    rewrite examples_path_app. intros Heq. by apply app_eq_nil in Heq as [_ ?].
  - destruct (launch_stop _ _ _ _ _ Hc) as (arg & _ & _ & -> & ->).
    cbn [snd trace]. rewrite app_nil_l, !elem_of_cons, elem_of_nil.
    by intros [|[|]].
  - destruct (launch_ok _ _ _ _ _ Hc)
      as [(_ & _ & ->)
         |(arg & _ & _ & [(es & t' & _ & _ & _ & _ & ->)|[_ ->]])];
      destruct (launch_stop _ _ _ _ _ He) as (arg' & _ & _ & -> & ->);
      cbn [snd trace]; rewrite app_nil_l, !elem_of_app, !elem_of_cons, !elem_of_nil.
    + unfold acquisition_of. destruct (flag_given _); intros [[|]|[|[|]]]; done.
    + unfold acquisition_of. destruct (flag_given _); intros [[|[|]]|[|[|]]]; done.
    + intros [[|]|[|[|]]]; done.
  - intros _. unfold J in HJ.
    assert (entry_at examples_path (cleaned (fs w')) = Absent) as Hfinal.
    { rewrite cleaned_entry; [done|]. apply temporary_not_above_examples. }
    destruct Hend as [[_ ->]|(rsn & _ & ->)].
    + by rewrite on_fulfilled_run.
    + by rewrite on_rejected_run.
Qed.

(** Property X12.  No temporary path survives the removal of the
    examples directory.  In every run in which the removal of line 223
    has returned, successful or not, none of the four temporary paths
    exists at the end; a run that returns normally is such a run. *)
Theorem no_temporary_path_survives (argv : Argv) (o : Oracle) (t : node) :
  let r := main argv o (World t []) in
  (r.1 = inr tt -> Rimraf examples_path ∈ trace r.2)
  /\ (Rimraf examples_path ∈ trace r.2 ->
      forall p, p ∈ temporary_paths -> entry_at p (fs r.2) = Absent).
Proof.
  intros r. subst r.
  destruct (main_stops_or_removes argv o t)
    as [(Hexit & Hnone & _)
       |(Hrm & c & e & pre1 & pre2 & work & t' & Hc & He & Hwork & Hend)].
  - split; [by rewrite Hexit|].
    intros Hrm. apply removed_elem in Hrm. rewrite Hnone in Hrm.
    by apply elem_of_nil in Hrm.
  - split; [done|]. intros _ p Hp. rewrite entry_at_lookup.
    destruct Hend as [(-> & _)|(rsn & -> & _)]; cbn [snd fs];
      by rewrite cleaned_absent.
Qed.

(** Property X13.  A run that returns normally has processed every
    record of both manifests: for each lane the trace holds, contiguous
    and in manifest order, the full block of events (read, mkdirp, write,
    success line) of every record of the lane's manifest, followed by the
    lane's fulfilment. *)
Theorem successful_run_processes_every_record
    (argv : Argv) (o : Oracle) (t : node) (l : lane) :
  let r := main argv o (World t []) in
  r.1 = inr tt ->
  exists datas before after,
    length datas = length (manifest l)
    /\ trace r.2
       = before
         ++ concat (zip_with (record_block (working_dir l)) (manifest l) datas)
         ++ Settle l Fulfilled :: after.
Proof.
  intros r. subst r.
  set (J := fun (c e : lane_state) (w : world) =>
              forall l, st_of l c e = Settled Fulfilled ->
                        processed_in l (trace w)).
  assert (forall l c e w st' w',
            J c e w -> lane_step l w (st_of l c e) st' w' ->
            J (put_st l st' c e).1 (put_st l st' c e).2 w') as J_step.
  { intros l0 c e w st' w' HJ Hstep l1 Hl1.
    destruct (lane_step_trace _ _ _ _ _ Hstep) as (evs & Hevs & _).
    pose proof (lane_step_processed _ _ _ _ _ Hstep) as Hnew.
    destruct l0, l1; cbn [put_st st_of fst snd] in *.
    - destruct (Hnew Hl1) as [Hold|Hdone]; [|done].
      rewrite Hevs. apply processed_in_app. by apply (HJ Core).
    - rewrite Hevs. apply processed_in_app. by apply (HJ Extensions).
    - rewrite Hevs. apply processed_in_app. by apply (HJ Core).
    - destruct (Hnew Hl1) as [Hold|Hdone]; [|done].
      rewrite Hevs. apply processed_in_app. by apply (HJ Extensions). }
  destruct (main_ends J J_step argv o (World t []))
    as [(a & w1 & Hc & ->)
       |[(c & w1 & a & w2 & Hc & He & ->)
        |(c' & e' & w' & HJ & _ & _ & Hend)]].
  - intros c e w1 w2 Hc He l0 Hl0. exfalso.
    destruct l0; cbn [st_of] in Hl0; subst.
    + by destruct (launch_state _ _ _ _ _ Hc) as [[? ?]|?].
    + by destruct (launch_state _ _ _ _ _ He) as [[? ?]|?].
  - by destruct (launch_stop _ _ _ _ _ Hc) as (arg & _ & _ & -> & _).
  - by destruct (launch_stop _ _ _ _ _ He) as (arg & _ & _ & -> & _).
  - destruct Hend as [[Hagg ->]|(rsn & _ & ->)];
      [|by rewrite on_rejected_run].
    rewrite on_fulfilled_run. cbn [fst snd trace]. intros _.
    destruct (aggregate_resolved _ _ Hagg) as [-> ->].
    apply (processed_in_app l). apply HJ. by destruct l.
Qed.

(** Property X14.  When no output path lies at or below a temporary
    path, a run that returns normally leaves every output path of both
    manifests as a regular file. *)
Theorem successful_run_leaves_every_output
    (argv : Argv) (o : Oracle) (t : node) :
  (forall l val p, val ∈ manifest l -> p ∈ temporary_paths ->
                   ~ p `prefix_of` outputFilePath val) ->
  let r := main argv o (World t []) in
  r.1 = inr tt ->
  forall l val, val ∈ manifest l ->
                file_at (outputFilePath val) (fs r.2) = true.
Proof.
  intros Hout r. subst r.
  assert (forall l0 w st st' w' q,
            lane_step l0 w st st' w' ->
            (forall p, p ∈ temporary_paths -> ~ p `prefix_of` q) ->
            file_at q (fs w) = true -> file_at q (fs w') = true) as Hkeep.
  { intros l0 w st st' w' q Hstep Hq.
    assert (forall t1 w1, file_at q t1 = true ->
              file_at q (fs (processor l0 (World t1 w1)).2) = true) as Hproc.
    { intros t1 w1. rewrite !file_at_entry.
      destruct (entry_at q t1) as [| |d] eqn:Hd; try done. intros _.
      destruct (processor_footprint l0 (World t1 w1) q) as (_ & Hf & _).
      destruct (Hf d Hd) as [d' ->]. done. }
    destruct Hstep as [st0|r|st0 r Hp|bytes t' Hput|out w1 Hrun
                      |tree t' out w1 Hput Hrun]; cbn [fs]; try done.
    - rewrite !file_at_entry.
      rewrite (put_node_frame _ _ _ _ q Hput); [done|].
      apply Hq, zip_path_temporary.
    - intros Hfile. destruct w as [t0 tr0].
      specialize (Hproc t0 tr0 Hfile). by rewrite Hrun in Hproc.
    - intros Hfile.
      specialize (Hproc t' (trace w ++ [Unzipped (working_dir l0)])).
      rewrite Hrun in Hproc. apply Hproc.
      rewrite file_at_entry in Hfile |- *.
      rewrite (put_node_frame _ _ _ _ q Hput); [done|].
      apply Hq, working_dir_temporary. }
  assert (forall l0 w st w',
            lane_step l0 w st (Settled Fulfilled) w' ->
            st = Settled Fulfilled
            \/ forall val, val ∈ manifest l0 ->
                           file_at (outputFilePath val) (fs w') = true) as Hnew.
  { intros l0 w st w' Hstep. inversion Hstep; subst; try done; [by left|..];
      right; cbn [fs].
    - by apply (processor_fulfilled l0 w).
    - by eapply processor_fulfilled. }
  set (J := fun c e w =>
              forall l val, st_of l c e = Settled Fulfilled ->
                            val ∈ manifest l ->
                            file_at (outputFilePath val) (fs w) = true).
  assert (forall l c e w st' w',
            J c e w -> lane_step l w (st_of l c e) st' w' ->
            J (put_st l st' c e).1 (put_st l st' c e).2 w') as J_step.
  { intros l0 c e w st' w' HJ Hstep l1 val Hl1 Hval.
    pose proof (fun p => Hout l1 val p Hval) as Hq.
    pose proof (Hkeep _ _ _ _ _ (outputFilePath val) Hstep Hq) as Hk.
    destruct l0, l1; cbn [put_st st_of fst snd] in *.
    - rewrite Hl1 in Hstep.
      destruct (Hnew _ _ _ _ Hstep) as [Hold|Hdone]; [|by apply Hdone].
      apply Hk. by apply (HJ Core val).
    - apply Hk. by apply (HJ Extensions val).
    - apply Hk. by apply (HJ Core val).
    - rewrite Hl1 in Hstep.
      destruct (Hnew _ _ _ _ Hstep) as [Hold|Hdone]; [|by apply Hdone].
      apply Hk. by apply (HJ Extensions val). }
  destruct (main_ends J J_step argv o (World t []))
    as [(a & w1 & Hc & ->)
       |[(c & w1 & a & w2 & Hc & He & ->)
        |(c' & e' & w' & HJ & _ & _ & Hend)]].
  - intros c e w1 w2 Hc He l0 val Hl0. exfalso.
    destruct l0; cbn in Hl0; subst.
    + by destruct (launch_state _ _ _ _ _ Hc) as [[? ?]|?].
    + by destruct (launch_state _ _ _ _ _ He) as [[? ?]|?].
  - by destruct (launch_stop _ _ _ _ _ Hc) as (arg & _ & _ & -> & _).
  - by destruct (launch_stop _ _ _ _ _ He) as (arg & _ & _ & -> & _).
  - destruct Hend as [[Hagg ->]|(rsn & _ & ->)];
      [|by rewrite on_rejected_run].
    rewrite on_fulfilled_run. cbn [fst snd fs]. intros _ l val Hval.
    destruct (aggregate_resolved _ _ Hagg) as [-> ->].
    rewrite file_at_entry, cleaned_entry, <- file_at_entry.
    + apply (HJ l val); [by destruct l|done].
    + intros p Hp. by apply (Hout l val p).
Qed.

(** Property X15.  A run touches only its own paths.  A path that does
    not lie at or below a temporary path or the examples directory, and
    that is neither an output path of a manifest nor an ancestor of one,
    is at the end of any run, however it ends, what it was at the start:
    absent, a directory, or a regular file with the same content.  In
    particular a checkout named by [--core] or [--extensions] is only
    read. *)
Theorem run_touches_only_its_own_paths
    (argv : Argv) (o : Oracle) (t : node) (q : path) :
  (forall p, p ∈ temporary_paths -> ~ p `prefix_of` q) ->
  ~ examples_path `prefix_of` q ->
  (forall l val, val ∈ manifest l -> ~ q `prefix_of` outputFilePath val) ->
  entry_at q (fs (main argv o (World t [])).2) = entry_at q t.
Proof.
  intros Htmp Hex Hout.
  set (J := fun (c e : lane_state) (w : world) => entry_at q (fs w) = entry_at q t).
  assert (forall l c e w st' w',
            J c e w -> lane_step l w (st_of l c e) st' w' ->
            J (put_st l st' c e).1 (put_st l st' c e).2 w') as J_step.
  { intros l c e w st' w' HJ Hstep. unfold J in *.
    rewrite (lane_step_frame _ _ _ _ _ q Hstep); [|done|apply Hout].
    by destruct l. }
  destruct (main_ends J J_step argv o (World t []))
    as [(a & w1 & Hc & ->)
       |[(c & w1 & a & w2 & Hc & He & ->)
        |(c' & e' & w' & HJ & _ & _ & Hend)]].
  - intros c e w1 w2 Hc He. unfold J. cbn [fs].
    rewrite remove_path_entry; [|rewrite examples_path_app|done].
    + rewrite (launch_frame _ _ _ _ _ q He), (launch_frame _ _ _ _ _ q Hc);
        [done|apply Htmp, working_dir_temporary..].
    + intros Heq. by apply app_eq_nil in Heq as [_ ?].
  - by destruct (launch_stop _ _ _ _ _ Hc) as (arg & _ & _ & _ & ->).
  - destruct (launch_stop _ _ _ _ _ He) as (arg & _ & _ & _ & ->).
    cbn [snd fs].
    by rewrite (launch_frame _ _ _ _ _ q Hc); [|apply Htmp, working_dir_temporary].
  - unfold J in HJ.
    destruct Hend as [[_ ->]|(rsn & _ & ->)];
      rewrite ?on_fulfilled_run, ?on_rejected_run; cbn [snd fs];
      by rewrite cleaned_entry.
Qed.

(** Property X16.  With both flags given the network plays no part: the
    run is the same whatever the downloads would answer and in whatever
    order they would complete.  Moreover neither lane is left behind: in
    every such run in which the removal of the examples directory has
    returned, both lanes have settled, each by its processor having run
    or by its copy having failed, before the aggregate's reaction cleans
    up: the trace ends with the four removals of [clean] and the success
    message, or with the error, the four removals and [Exit 1], and the
    settlement of each lane precedes that ending. *)
Theorem local_run_ignores_the_network
    (argv : Argv) (o o' : Oracle) (t : node) (arg_c arg_e : string) :
  flag_given (core argv) = Some arg_c ->
  flag_given (extensions argv) = Some arg_e ->
  main argv o (World t []) = main argv o' (World t [])
  /\ (Rimraf examples_path ∈ trace (main argv o (World t [])).2 ->
      exists before ending,
        trace (main argv o (World t [])).2 = before ++ ending
        /\ (ending = clean_events ++ [LogInfo success_message]
            \/ exists rsn, ending = [LogError rsn] ++ clean_events ++ [Exit 1])
        /\ forall l, exists out, Settle l out ∈ before).
Proof.
  intros Hfc Hfe.
  destruct (local_run_shape argv t arg_c arg_e Hfc Hfe) as (res & Hres & Hboth).
  rewrite !Hres. done.
Qed.

(** Property X17.  Nothing is rolled back.  At the end of any run,
    successful or not, a path that was written and does not lie at or
    below a temporary path is a regular file that holds the data of the
    last [fs.writeFileSync] of the run at that path. *)
Theorem written_data_survives_the_run
    (argv : Argv) (o : Oracle) (t : node) (q : path) (data : string) :
  (forall p, p ∈ temporary_paths -> ~ p `prefix_of` q) ->
  let r := main argv o (World t []) in
  last_written q (trace r.2) = Some data ->
  entry_at q (fs r.2) = IsFile data.
Proof.
  intros Hq r. subst r.
  set (J := fun (c e : lane_state) (w : world) =>
              forall d, last_written q (trace w) = Some d ->
                        entry_at q (fs w) = IsFile d).
  assert (forall l c e w st' w',
            J c e w -> lane_step l w (st_of l c e) st' w' ->
            J (put_st l st' c e).1 (put_st l st' c e).2 w') as J_step.
  { intros l c e w st' w' HJ Hstep.
    assert (J c e w') as HJ'
      by (intros d; by apply (lane_step_last_written _ _ _ _ _ _ _ Hstep)).
    by destruct l. }
  destruct (main_ends J J_step argv o (World t []))
    as [(a & w1 & Hc & ->)
       |[(c & w1 & a & w2 & Hc & He & ->)
        |(c' & e' & w' & HJ & _ & _ & Hend)]].
  - intros c e w1 w2 Hc He d. cbn [trace fs].
    rewrite last_written_app. cbn [last_written omap list_omap last].
    by rewrite (launch_writes_nothing _ _ _ _ _ q He),
      (launch_writes_nothing _ _ _ _ _ q Hc).
  - by destruct (launch_stop _ _ _ _ _ Hc) as (arg & _ & _ & _ & ->).
  - destruct (launch_stop _ _ _ _ _ He) as (arg & _ & _ & _ & ->).
    cbn [snd trace]. rewrite last_written_app. cbn [last_written omap list_omap last].
    by rewrite (launch_writes_nothing _ _ _ _ _ q Hc).
  - assert (last_written q clean_events = None) as Hcl by done.
    destruct Hend as [[_ ->]|(rsn & _ & ->)];
      rewrite ?on_fulfilled_run, ?on_rejected_run; cbn [snd fs trace];
      rewrite !last_written_app, Hcl; cbn [last_written omap list_omap last];
      rewrite cleaned_entry by done; apply HJ.
Qed.

End Further.

(** * The model at work: runs of the small installation *)

#[local] Existing Instances Demo.util Demo.components Demo.process.

(** The temporary paths of the small installation. *)
Lemma temporary_paths_demo p :
  p ∈ temporary_paths ->
  p = ["repo"; "tools"; "mip-extensions-master.zip"]
  \/ p = ["repo"; "tools"; "mip-extensions-master"]
  \/ p = ["repo"; "tools"; "mip-master.zip"]
  \/ p = ["repo"; "tools"; "mip-master"].
Proof.
  intros Hp.
  change temporary_paths
    with [["repo"; "tools"; "mip-extensions-master.zip"];
          ["repo"; "tools"; "mip-extensions-master"];
          ["repo"; "tools"; "mip-master.zip"];
          ["repo"; "tools"; "mip-master"]] in Hp.
  rewrite !elem_of_cons, elem_of_nil in Hp. tauto.
Defined.

Lemma not_below_temporary (q : path) :
  (forall x rest, q <> "repo" :: "tools" :: x :: rest) ->
  forall p, p ∈ temporary_paths -> ~ p `prefix_of` q.
Proof.
  intros Hq p Hp [k Hk].
  destruct (temporary_paths_demo p Hp) as [->|[->|[->| ->]]];
    by apply Hq in Hk.
Defined.

(** The records of the small installation. *)
Lemma demo_manifest l val :
  val ∈ manifest l ->
  val = Demo.mip_a \/ val = Demo.mip_b \/ val = Demo.mip_c \/ val = Demo.mip_x.
Proof.
  destruct l; cbn [manifest getCore getExtensions Demo.components].
  - rewrite !elem_of_cons, elem_of_nil. tauto.
  - rewrite !elem_of_cons, elem_of_nil. tauto.
Defined.

(** Nothing stands in the way of the outputs of [mip-a] and [mip-c] on
    the acquired disk. *)
Lemma demo_output_clear before val :
  val = Demo.mip_a \/ val = Demo.mip_c ->
  (forall v, v ∈ before -> v ∈ manifest Core) ->
  output_clear Demo.disk_acquired before val.
Proof.
  intros Hval Hbefore. split.
  - split; [by destruct Hval as [-> | ->]|].
    split; [by destruct Hval as [-> | ->]|].
    intros q [[k Hk] Hne].
    assert (exists x, outputFilePath val = ["repo"; "source"; "components"; x])
      as [x Hx] by (destruct Hval as [-> | ->]; by eexists).
    rewrite Hx in Hk.
    apply (f_equal (take (length q))) in Hk. rewrite take_app_length in Hk.
    destruct (length q) as [|[|[|[|n]]]]; cbn [take] in Hk; subst q;
      reflexivity.
  - intros v Hv. apply Hbefore in Hv.
    cbn [manifest getCore Demo.components] in Hv.
    rewrite !elem_of_cons, elem_of_nil in Hv.
    destruct Hv as [->|[->|[->|[]]]], Hval as [-> | ->];
      split; intros [[k Hk] Hne]; try done; discriminate Hk.
Defined.

(** The core processor on a working directory that lacks [b/README.md]:
    [mip-a] and [mip-c] are processed in this order, [mip-b] leaves no
    event. *)
Example demo_core_processor_trace :
  trace (processor Core (World Demo.disk_acquired [])).2
  = [ReadFile ["repo"; "tools"; "mip-master"; "a"; "README.md"];
     Mkdirp ["repo"; "source"; "components"];
     WriteFile ["repo"; "source"; "components"; "a.md"] "A|<A>|mip-a|preview";
     LogInfo "components/a.md 同步成功";
     ReadFile ["repo"; "tools"; "mip-master"; "c"; "README.md"];
     Mkdirp ["repo"; "source"; "components"];
     WriteFile ["repo"; "source"; "components"; "c.md"] "C|<C>|mip-c|no preview";
     LogInfo "components/c.md 同步成功"].
Proof. vm_compute. reflexivity. Qed.

(** ... and its promise is rejected with the message of [mip-b]. *)
Example demo_core_processor_outcome :
  (processor Core (World Demo.disk_acquired [])).1
  = inr (Failed RecordStage
           (Message "/repo/tools/mip-master/b/README.md 不存在")).
Proof. vm_compute. reflexivity. Qed.

(** A run without flags in which both downloads succeed. *)
Example demo_remote_run :
  let r := main Demo.argv_none Demo.oracle (World Demo.disk []) in
  r.1 = inr tt /\ removed (trace r.2) = examples_path :: temporary_paths.
Proof. vm_compute. split; reflexivity. Qed.


(** Two bad flags, one message.  With [--core nope --extensions none],
    neither a directory, the extensions flag names a missing path, yet
    the run ends at the core check: the only message printed is about
    [/home/nope], and [/home/none] occurs in no message. *)
Lemma second_bad_flag_is_not_reported :
  let r := main Demo.argv_bad_both Demo.oracle (World Demo.disk []) in
  flag_given (extensions Demo.argv_bad_both) = Some "none"
  /\ dir_at (resolve cwd ["none"]) Demo.disk = false
  /\ trace r.2
     = [LogError (Message (missing_message Core (resolve cwd ["nope"]))); Exit 1]
  /\ forall msg,
      LogError (Message msg) ∈ trace r.2 ->
      occurs (render (resolve cwd ["none"])) msg = false.
Proof.
  split; [reflexivity|]. split; [reflexivity|]. split; [vm_compute; reflexivity|].
  intros msg Hin. vm_compute in Hin.
  apply elem_of_cons in Hin as [Hin|Hin].
  - injection Hin as ->. vm_compute. reflexivity.
  - apply elem_of_cons in Hin as [Hin|Hin]; [discriminate Hin|].
    by apply elem_of_nil in Hin.
Qed.


(** The core group of the small installation, whose working directory
    exists. *)
Lemma preview_setting_witness :
  dir_at (working_dir Core) Demo.disk_acquired = true
  /\ exists ss blocks,
      record_promises Core (World Demo.disk_acquired [])
      = (inr ss, (processor Core (World Demo.disk_acquired [])).2)
      /\ trace (processor Core (World Demo.disk_acquired [])).2
         = [] ++ concat blocks
      /\ Forall3
           (fun val s block =>
              (s = Resolved ->
               exists parsed preset,
                 block = record_block (working_dir Core) val
                           (toMarkdown (output_document parsed preset val)))
              /\ forall p data, WriteFile p data ∈ block ->
                   s = Resolved
                   /\ exists parsed preset,
                       p = outputFilePath val
                       /\ data = toMarkdown (output_document parsed preset val)
                       /\ (preview val = JUndefined ->
                           set_preview
                             (out_setting (output_document parsed preset val))
                           = true)
                       /\ (preview val = JBool false ->
                           set_preview
                             (out_setting (output_document parsed preset val))
                           = false))
           (manifest Core) ss blocks
      /\ forall l1 val l2,
           manifest Core = l1 ++ val :: l2 ->
           file_at (markdownFile (working_dir Core) val) Demo.disk_acquired
           = true ->
           output_clear Demo.disk_acquired l1 val ->
           ss !! length l1 = Some Resolved.
Proof.
  split; [reflexivity|].
  apply (preview_setting_of_written_documents Core (World Demo.disk_acquired [])).
  reflexivity.
Defined.

(** The document written for [mip-a], whose source holds [A] and whose
    output nothing blocks. *)
Lemma written_document_witness :
  lookup_path (markdownFile (working_dir Core) Demo.mip_a) Demo.disk_acquired
  = Some (File "A")
  /\ parseMarkdown "A"
     = {| data_title := "A"; data_content := "<A>"; data_deps := ["A"] |}
  /\ unblocked Demo.disk_acquired (outputFilePath Demo.mip_a)
  /\ let doc :=
       {| out_title := "A";
          out_content := "<A>";
          out_setting :=
            {| set_deps := ["A"];
               set_name := name Demo.mip_a;
               set_preset :=
                 readPreset Demo.disk_acquired
                   (dirname (markdownFile (working_dir Core) Demo.mip_a));
               set_preview := preview_setting Demo.mip_a |} |} in
     let r :=
       new_promise (record_executor (working_dir Core) Demo.mip_a)
         (World Demo.disk_acquired []) in
     r.1 = inr Resolved
     /\ trace r.2
        = [] ++ record_block (working_dir Core) Demo.mip_a (toMarkdown doc)
     /\ lookup_path (outputFilePath Demo.mip_a) (fs r.2)
        = Some (File (toMarkdown doc)).
Proof.
  assert (lookup_path (markdownFile (working_dir Core) Demo.mip_a)
            Demo.disk_acquired = Some (File "A")) as Hsrc by reflexivity.
  assert (parseMarkdown "A"
          = {| data_title := "A"; data_content := "<A>"; data_deps := ["A"] |})
    as Hparse by reflexivity.
  assert (unblocked Demo.disk_acquired (outputFilePath Demo.mip_a)) as Hun.
  { apply (demo_output_clear [] Demo.mip_a); [by left|].
    intros v Hv. by apply elem_of_nil in Hv. }
  split; [exact Hsrc|]. split; [exact Hparse|]. split; [exact Hun|].
  exact (proj1 (written_document_is_serialization Core Demo.mip_a
                  (World Demo.disk_acquired []) "A" "A" "<A>" ["A"] Hsrc Hparse)
           Hun).
Defined.

(** The core processor on a disk without [tools/mip-master]. *)
Lemma processor_rejects_witness :
  dir_at (working_dir Core) Demo.disk = false
  /\ processor Core (World Demo.disk [])
     = (inr (Failed DirCheckStage
               (Message (render (working_dir Core) +:+ " 不存在"))),
        World Demo.disk []).
Proof.
  split; [reflexivity|].
  apply (processor_rejects_without_directory Core (World Demo.disk [])).
  reflexivity.
Defined.

(** The promises and the blocks of the core group of the small
    installation. *)
Lemma manifest_order_witness :
  dir_at (working_dir Core) Demo.disk_acquired = true
  /\ exists ss blocks,
      record_promises Core (World Demo.disk_acquired [])
      = (inr ss, (processor Core (World Demo.disk_acquired [])).2)
      /\ (processor Core (World Demo.disk_acquired [])).1
         = inr (outcome_of (promise_all ss))
      /\ trace (processor Core (World Demo.disk_acquired [])).2
         = [] ++ concat blocks
      /\ Forall3 (settled_block (working_dir Core)) (manifest Core) ss blocks
      /\ written (concat blocks)
         = outputFilePath <$> resolved_records (manifest Core) ss
      /\ logged (concat blocks)
         = success_line <$> resolved_records (manifest Core) ss
      /\ ((processor Core (World Demo.disk_acquired [])).1 = inr Fulfilled ->
          resolved_records (manifest Core) ss = manifest Core)
      /\ forall l1 val l2,
           manifest Core = l1 ++ val :: l2 ->
           file_at (markdownFile (working_dir Core) val) Demo.disk_acquired
           = true ->
           output_clear Demo.disk_acquired l1 val ->
           ss !! length l1 = Some Resolved.
Proof.
  split; [reflexivity|].
  apply (records_processed_in_manifest_order Core (World Demo.disk_acquired [])).
  reflexivity.
Defined.





(** A bad [--core], and a bad [--extensions] after a remote core lane
    was launched. *)
Lemma bad_flag_witness :
  (flag_given (core Demo.argv_bad_both) = Some "nope"
   /\ dir_at (resolve cwd ["nope"]) Demo.disk = false
   /\ main Demo.argv_bad_both Demo.oracle (World Demo.disk [])
      = (inl (ExitProcess 1),
         World Demo.disk
           ([] ++ [LogError (Message (missing_message Core (resolve cwd ["nope"])));
                   Exit 1])))
  /\ (launch Demo.argv_bad_extensions Core (World Demo.disk [])
      = (inr Downloading,
         World Demo.disk
           [DownGit (lane_git Core) (resolve TOOLS_PATH [lane_zip Core])])
      /\ flag_given (extensions Demo.argv_bad_extensions) = Some "none"
      /\ dir_at (resolve cwd ["none"]) Demo.disk = false
      /\ exists pre,
          main Demo.argv_bad_extensions Demo.oracle (World Demo.disk [])
          = (inl (ExitProcess 1),
             World Demo.disk
               ([] ++ pre
                ++ [LogError
                      (Message (missing_message Extensions (resolve cwd ["none"])));
                    Exit 1]))
          /\ launched Core Downloading pre
          /\ Forall (fun ev => is_file_access ev = false) pre
          /\ forall file, DownGit (lane_git Extensions) file ∉ pre).
Proof.
  split.
  - split; [reflexivity|]. split; [reflexivity|].
    apply (proj1 (bad_local_flag_stops_the_run Demo.argv_bad_both Demo.oracle
                    (World Demo.disk []))); reflexivity.
  - split; [reflexivity|]. split; [reflexivity|]. split; [reflexivity|].
    apply (proj2 (bad_local_flag_stops_the_run Demo.argv_bad_extensions
                    Demo.oracle (World Demo.disk []))
             "none" Downloading
             (World Demo.disk
                [DownGit (lane_git Core) (resolve TOOLS_PATH [lane_zip Core])]));
      reflexivity.
Defined.

(** The local copy of the core checkout: both [node_modules]
    directories are left out. *)
Example demo_copy_result :
  lookup_path (working_dir Core)
    (fs (copydir_sync (resolve cwd ["core"]) (working_dir Core) copy_filter
           (World Demo.disk [])).2)
  = Some (Dir {[ "a" := Dir {[ "README.md" := File "A" ]};
                 "c" := Dir {[ "README.md" := File "C" ]};
                 "lib" := Dir {[ "index.js" := File "i" ]} ]}).
Proof. vm_compute. reflexivity. Qed.


(** ** The further properties on the small installation *)

(** [clean] on a disk that holds the core working directory: the source
    directory is left as it was. *)
Lemma clean_frame_witness :
  (forall p, p ∈ temporary_paths -> ~ p `prefix_of` ["repo"; "source"])
  /\ entry_at ["repo"; "source"] (fs (clean (World Demo.disk_acquired [])).2)
     = entry_at ["repo"; "source"] Demo.disk_acquired.
Proof.
  assert (forall p, p ∈ temporary_paths -> ~ p `prefix_of` ["repo"; "source"])
    as Hq by (by apply not_below_temporary).
  split; [exact Hq|].
  exact (clean_leaves_the_rest (World Demo.disk_acquired []) _ Hq).
Defined.

(** The extensions processor on a disk that holds the extensions tree
    and nothing in the way of the output. *)
Lemma clear_disk_witness :
  dir_at (working_dir Extensions) Demo.disk_extensions = true
  /\ (forall val, val ∈ manifest Extensions ->
        file_at (markdownFile (working_dir Extensions) val) Demo.disk_extensions
        = true)
  /\ (forall val, val ∈ manifest Extensions ->
        unblocked Demo.disk_extensions (outputFilePath val))
  /\ (forall v1 v2, v1 ∈ manifest Extensions -> v2 ∈ manifest Extensions ->
        ~ nested (outputFilePath v1) (outputFilePath v2))
  /\ (processor Extensions (World Demo.disk_extensions [])).1 = inr Fulfilled.
Proof.
  assert (forall val, val ∈ manifest Extensions -> val = Demo.mip_x) as Hone.
  { intros val Hval. by apply list_elem_of_singleton in Hval. }
  assert (forall val, val ∈ manifest Extensions ->
            file_at (markdownFile (working_dir Extensions) val)
              Demo.disk_extensions = true) as Hsrc.
  { intros val Hval. rewrite (Hone val Hval). reflexivity. }
  assert (forall val, val ∈ manifest Extensions ->
            unblocked Demo.disk_extensions (outputFilePath val)) as Hclear.
  { intros val Hval. rewrite (Hone val Hval).
    split; [done|]. split; [reflexivity|].
    intros q [[k Hk] Hne].
    change (outputFilePath Demo.mip_x)
      with ["repo"; "source"; "extensions"; "x.md"] in *.
    apply (f_equal (take (length q))) in Hk. rewrite take_app_length in Hk.
    destruct (length q) as [|[|[|[|n]]]]; cbn [take] in Hk; subst q;
      reflexivity. }
  assert (forall v1 v2, v1 ∈ manifest Extensions -> v2 ∈ manifest Extensions ->
            ~ nested (outputFilePath v1) (outputFilePath v2)) as Hfree.
  { intros v1 v2 H1 H2. rewrite (Hone v1 H1), (Hone v2 H2). by intros [_ ?]. }
  split; [reflexivity|]. split; [exact Hsrc|]. split; [exact Hclear|].
  split; [exact Hfree|].
  exact (processor_fulfils_on_a_clear_disk Extensions
           (World Demo.disk_extensions []) eq_refl Hsrc Hclear Hfree).
Defined.

(** [--core core --extensions none]: the copy of the core checkout stays
    on the disk. *)
Lemma leaked_copy_witness :
  flag_given (core Demo.argv_core_then_bad) = Some "core"
  /\ launch Demo.argv_core_then_bad Core (World Demo.disk [])
     = (inr (Copied Resolved),
        (launch Demo.argv_core_then_bad Core (World Demo.disk [])).2)
  /\ flag_given (extensions Demo.argv_core_then_bad) = Some "none"
  /\ dir_at (resolve cwd ["none"])
       (fs (launch Demo.argv_core_then_bad Core (World Demo.disk [])).2)
     = false
  /\ (main Demo.argv_core_then_bad Demo.oracle (World Demo.disk [])).1
     = inl (ExitProcess 1)
  /\ trace (main Demo.argv_core_then_bad Demo.oracle (World Demo.disk [])).2
     = [LogInfo (load_message Core (resolve cwd ["core"]));
        CopyDir (resolve cwd ["core"]) (working_dir Core);
        LogError (Message (missing_message Extensions (resolve cwd ["none"])));
        Exit 1]
  /\ removed
       (trace (main Demo.argv_core_then_bad Demo.oracle (World Demo.disk [])).2)
     = []
  /\ fs (main Demo.argv_core_then_bad Demo.oracle (World Demo.disk [])).2
     = fs (launch Demo.argv_core_then_bad Core (World Demo.disk [])).2
  /\ dir_at (working_dir Core)
       (fs (main Demo.argv_core_then_bad Demo.oracle (World Demo.disk [])).2)
     = true.
Proof.
  assert (launch Demo.argv_core_then_bad Core (World Demo.disk [])
          = (inr (Copied Resolved),
             (launch Demo.argv_core_then_bad Core (World Demo.disk [])).2))
    as Hcopy by (vm_compute; reflexivity).
  assert (dir_at (resolve cwd ["none"])
            (fs (launch Demo.argv_core_then_bad Core (World Demo.disk [])).2)
          = false) as Hbad by (vm_compute; reflexivity).
  split; [reflexivity|]. split; [exact Hcopy|]. split; [reflexivity|].
  split; [exact Hbad|].
  exact (bad_extensions_flag_leaves_the_core_copy Demo.argv_core_then_bad
           Demo.oracle Demo.disk "core" "none" _ eq_refl Hcopy eq_refl Hbad).
Defined.

(** [--core core] on a disk where [tools/mip-master] is a regular file:
    the copy throws. *)
Lemma failed_copy_witness :
  launch Demo.argv_local_core Core (World Demo.disk_blocked [])
  = (inr (Copied (Rejected (Thrown (CopyFailed (resolve cwd ["core"])
                                      (working_dir Core))))),
     (launch Demo.argv_local_core Core (World Demo.disk_blocked [])).2)
  /\ Rimraf examples_path
     ∈ trace (main Demo.argv_local_core Demo.oracle
                (World Demo.disk_blocked [])).2
  /\ (main Demo.argv_local_core Demo.oracle (World Demo.disk_blocked [])).1
     = inl (ExitProcess 1)
  /\ errors (trace (main Demo.argv_local_core Demo.oracle
                      (World Demo.disk_blocked [])).2)
     = [Thrown (CopyFailed (resolve cwd ["core"]) (working_dir Core))]
  /\ Settle Core
       (Failed AcquireStage
          (Thrown (CopyFailed (resolve cwd ["core"]) (working_dir Core))))
     ∈ trace (main Demo.argv_local_core Demo.oracle
                (World Demo.disk_blocked [])).2.
Proof.
  assert (launch Demo.argv_local_core Core (World Demo.disk_blocked [])
          = (inr (Copied (Rejected (Thrown (CopyFailed (resolve cwd ["core"])
                                              (working_dir Core))))),
             (launch Demo.argv_local_core Core (World Demo.disk_blocked [])).2))
    as Hcopy by (vm_compute; reflexivity).
  assert (Rimraf examples_path
          ∈ trace (main Demo.argv_local_core Demo.oracle
                     (World Demo.disk_blocked [])).2) as Hrm
    by (vm_compute; repeat constructor).
  split; [exact Hcopy|]. split; [exact Hrm|].
  exact (failed_core_copy_is_reported Demo.argv_local_core Demo.oracle
           Demo.disk_blocked _ _ Hcopy Hrm).
Defined.

(** A run without flags: the examples directory, present at the start,
    is gone at the end. *)
Lemma examples_removed_witness :
  (forall l val, val ∈ manifest l ->
                 ~ examples_path `prefix_of` outputFilePath val)
  /\ Rimraf examples_path
     ∈ trace (main Demo.argv_none Demo.oracle (World Demo.disk [])).2
  /\ entry_at examples_path Demo.disk = IsDir
  /\ entry_at examples_path
       (fs (main Demo.argv_none Demo.oracle (World Demo.disk [])).2) = Absent.
Proof.
  assert (forall l val, val ∈ manifest l ->
                        ~ examples_path `prefix_of` outputFilePath val) as Hout.
  { intros l val Hval [k Hk].
    destruct (demo_manifest l val Hval) as [->|[->|[->| ->]]];
      discriminate Hk. }
  assert (Rimraf examples_path
          ∈ trace (main Demo.argv_none Demo.oracle (World Demo.disk [])).2)
    as Hin by (vm_compute; repeat constructor).
  split; [exact Hout|]. split; [exact Hin|]. split; [reflexivity|].
  exact (examples_stay_removed Demo.argv_none Demo.oracle Demo.disk Hout Hin).
Defined.

(** A run without flags returns normally and has processed the core
    manifest. *)
Lemma every_record_witness :
  (main Demo.argv_none Demo.oracle (World Demo.disk [])).1 = inr tt
  /\ exists datas before after,
      length datas = length (manifest Core)
      /\ trace (main Demo.argv_none Demo.oracle (World Demo.disk [])).2
         = before
           ++ concat (zip_with (record_block (working_dir Core))
                        (manifest Core) datas)
           ++ Settle Core Fulfilled :: after.
Proof.
  assert ((main Demo.argv_none Demo.oracle (World Demo.disk [])).1 = inr tt)
    as Hok by (vm_compute; reflexivity).
  split; [exact Hok|].
  exact (successful_run_processes_every_record Demo.argv_none Demo.oracle
           Demo.disk Core Hok).
Defined.

(** A run without flags leaves every output of the small installation. *)
Lemma every_output_witness :
  (forall l val p, val ∈ manifest l -> p ∈ temporary_paths ->
                   ~ p `prefix_of` outputFilePath val)
  /\ (main Demo.argv_none Demo.oracle (World Demo.disk [])).1 = inr tt
  /\ forall l val, val ∈ manifest l ->
       file_at (outputFilePath val)
         (fs (main Demo.argv_none Demo.oracle (World Demo.disk [])).2) = true.
Proof.
  assert (forall l val p, val ∈ manifest l -> p ∈ temporary_paths ->
                          ~ p `prefix_of` outputFilePath val) as Hout.
  { intros l val p Hval. apply not_below_temporary.
    intros x rest Heq.
    destruct (demo_manifest l val Hval) as [->|[->|[->| ->]]];
      discriminate Heq. }
  assert ((main Demo.argv_none Demo.oracle (World Demo.disk [])).1 = inr tt)
    as Hok by (vm_compute; reflexivity).
  split; [exact Hout|]. split; [exact Hok|].
  exact (successful_run_leaves_every_output Demo.argv_none Demo.oracle
           Demo.disk Hout Hok).
Defined.

(** The run with [--core core] leaves the checkout as it was. *)
Lemma checkout_untouched_witness :
  (forall p, p ∈ temporary_paths ->
             ~ p `prefix_of` ["home"; "core"; "a"; "README.md"])
  /\ ~ examples_path `prefix_of` ["home"; "core"; "a"; "README.md"]
  /\ (forall l val, val ∈ manifest l ->
        ~ ["home"; "core"; "a"; "README.md"] `prefix_of` outputFilePath val)
  /\ entry_at ["home"; "core"; "a"; "README.md"]
       (fs (main Demo.argv_local_core Demo.oracle (World Demo.disk [])).2)
     = IsFile "A".
Proof.
  assert (forall p, p ∈ temporary_paths ->
                    ~ p `prefix_of` ["home"; "core"; "a"; "README.md"]) as Htmp
    by (by apply not_below_temporary).
  assert (~ examples_path `prefix_of` ["home"; "core"; "a"; "README.md"]) as Hex.
  { intros [k Hk]. discriminate Hk. }
  assert (forall l val, val ∈ manifest l ->
            ~ ["home"; "core"; "a"; "README.md"] `prefix_of` outputFilePath val)
    as Hout.
  { intros l val Hval [k Hk].
    destruct (demo_manifest l val Hval) as [->|[->|[->| ->]]];
      discriminate Hk. }
  split; [exact Htmp|]. split; [exact Hex|]. split; [exact Hout|].
  exact (run_touches_only_its_own_paths Demo.argv_local_core Demo.oracle
           Demo.disk _ Htmp Hex Hout).
Defined.

(** [--core core --extensions core]: the same run with the network and
    without it. *)
Lemma local_run_witness :
  flag_given (core Demo.argv_local_both) = Some "core"
  /\ flag_given (extensions Demo.argv_local_both) = Some "core"
  /\ main Demo.argv_local_both Demo.oracle (World Demo.disk [])
     = main Demo.argv_local_both Demo.oracle_offline (World Demo.disk [])
  /\ (Rimraf examples_path
      ∈ trace (main Demo.argv_local_both Demo.oracle (World Demo.disk [])).2 ->
      exists before ending,
        trace (main Demo.argv_local_both Demo.oracle (World Demo.disk [])).2
        = before ++ ending
        /\ (ending = clean_events ++ [LogInfo success_message]
            \/ exists rsn, ending = [LogError rsn] ++ clean_events ++ [Exit 1])
        /\ forall l, exists out, Settle l out ∈ before).
Proof.
  do 2 (split; [reflexivity|]).
  exact (local_run_ignores_the_network Demo.argv_local_both Demo.oracle
           Demo.oracle_offline Demo.disk "core" "core" eq_refl eq_refl).
Defined.

(** The run with [--core core] fails at [mip-b]; the document written
    for [mip-a] before that is on the disk at the end. *)
Lemma no_rollback_witness :
  (forall p, p ∈ temporary_paths ->
             ~ p `prefix_of` ["repo"; "source"; "components"; "a.md"])
  /\ (main Demo.argv_local_core Demo.oracle (World Demo.disk [])).1
     = inl (ExitProcess 1)
  /\ last_written ["repo"; "source"; "components"; "a.md"]
       (trace (main Demo.argv_local_core Demo.oracle (World Demo.disk [])).2)
     = Some "A|<A>|mip-a|preview"
  /\ entry_at ["repo"; "source"; "components"; "a.md"]
       (fs (main Demo.argv_local_core Demo.oracle (World Demo.disk [])).2)
     = IsFile "A|<A>|mip-a|preview".
Proof.
  assert (forall p, p ∈ temporary_paths ->
            ~ p `prefix_of` ["repo"; "source"; "components"; "a.md"]) as Hq
    by (by apply not_below_temporary).
  assert (last_written ["repo"; "source"; "components"; "a.md"]
            (trace (main Demo.argv_local_core Demo.oracle (World Demo.disk [])).2)
          = Some "A|<A>|mip-a|preview") as Hw by (vm_compute; reflexivity).
  split; [exact Hq|]. split; [vm_compute; reflexivity|]. split; [exact Hw|].
  exact (written_data_survives_the_run Demo.argv_local_core Demo.oracle
           Demo.disk _ _ Hq Hw).
Defined.
